(** * xv6 lock lab: per-CPU page allocator (kernel/kalloc.c) and
      bucketed buffer cache (kernel/bio.c)

    A shallow embedding of the two C files and the properties of their
    natural-language specification.

    Conventions of the embedding.
    - C integers are [Z] (or [nat] for small loop counters and array
      indices); [uint] fields wrap modulo [2^32].
    - A spinlock is the identity of the CPU holding it, if any.
    - Every kernel function is a function from the machine state to a
      [result]: it returns, panics, or is stuck waiting for a lock. *)

From Stdlib Require Import String ZArith List Lia Bool Arith PeanoNat.
Import ListNotations.
Local Open Scope Z_scope.

(** ** Arrays *)

(** [a[i] = x] on a C array held as a list.  Writing out of range is
    undefined behaviour in C; here it leaves the array alone. *)
Fixpoint upd {A : Type} (i : nat) (x : A) (l : list A) : list A :=
  match l, i with
  | [], _ => []
  | _ :: t, O => x :: t
  | h :: t, S i' => h :: upd i' x t
  end.

(** ** Spinlocks (kernel/spinlock.c is not part of the sources) *)

(** Modelled from the spec: spinlock.c is missing; a spinlock gives
    "busy-wait mutual exclusion", so all that is kept of it is which CPU
    holds it. *)
Definition spinlock : Type := option nat.

(** Modelled from the spec: spinlock.c is missing; [holding] tells whether
    the lock is "already held by the current caller". *)
Definition holding (lk : spinlock) (cpu : nat) : bool :=
  match lk with
  | Some c => Nat.eqb c cpu
  | None => false
  end.

(* ================================================================== *)
(** * kernel/kalloc.c *)
(* ================================================================== *)

Module Kalloc.

(** riscv.h is not part of the sources; the comment on [kalloc] fixes the
    page size: "Allocate one 4096-byte page of physical memory". *)
Definition PGSIZE : Z := 4096.

(** Physical memory, one byte per address. *)
Definition mem : Type := Z -> Z.

(** [memset(dst, c, n)] *)
Definition memset (dst c n : Z) (m : mem) : mem :=
  fun a => if (dst <=? a) && (a <? dst + n) then c mod 256 else m a.

(** A little-endian load of [n] bytes: [r->next] is [load_le 8 m r]
    (RISC-V is little-endian, pointers are 64 bits wide). *)
Fixpoint load_le (n : nat) (m : mem) (a : Z) : Z :=
  match n with
  | O => 0
  | S n' => m a + 256 * load_le n' m (a + 1)
  end.

Fixpoint store_le (n : nat) (a v : Z) (m : mem) : mem :=
  match n with
  | O => m
  | S n' => store_le n' (a + 1) (v / 256)
              (fun x => if x =? a then v mod 256 else m x)
  end.

(** [struct { struct spinlock locks[NCPU]; struct run *freelist_CPU[NCPU]; } kmem]
    together with the physical memory the free lists are threaded through. *)
Record state : Type := mkstate {
  locks : list spinlock;
  freelist_CPU : list Z;
  memory : mem
}.

Inductive result (A : Type) : Type :=
| Done (a : A) (s : state)          (* the call returned [a] *)
| Panic (msg : string)              (* panic(msg) *)
| Spin (i : nat) (s : state).       (* busy-waiting in acquire(&kmem.locks[i]) *)
Arguments Done {A} a s.
Arguments Panic {A} msg.
Arguments Spin {A} i s.

Definition M (A : Type) : Type := state -> result A.

Definition ret {A : Type} (a : A) : M A := fun s => Done a s.

Definition bind {A B : Type} (c : M A) (k : A -> M B) : M B :=
  fun s =>
    match c s with
    | Done a s' => k a s'
    | Panic msg => Panic msg
    | Spin i s' => Spin i s'
    end.

Notation "x <- c ;; k" := (bind c (fun x => k))
  (at level 61, c at next level, right associativity).
Notation "c ;; k" := (bind c (fun _ => k))
  (at level 61, right associativity).

Definition panic {A : Type} (msg : string) : M A := fun _ => Panic msg.

(** Modelled from the spec: spinlock.c is missing; [acquire] busy-waits
    for as long as the lock is held. *)
Definition acquire (i cpu : nat) : M unit :=
  fun s =>
    match nth i (locks s) None with
    | None => Done tt (mkstate (upd i (Some cpu) (locks s)) (freelist_CPU s) (memory s))
    | Some _ => Spin i s
    end.

(** Modelled from the spec: spinlock.c is missing; [release] frees the lock. *)
Definition release (i : nat) : M unit :=
  fun s => Done tt (mkstate (upd i None (locks s)) (freelist_CPU s) (memory s)).

Definition get_freelist (i : nat) : M Z :=
  fun s => Done (nth i (freelist_CPU s) 0) s.

Definition set_freelist (i : nat) (r : Z) : M unit :=
  fun s => Done tt (mkstate (locks s) (upd i r (freelist_CPU s)) (memory s)).

(** [r->next] *)
Definition get_next (r : Z) : M Z :=
  fun s => Done (load_le 8 (memory s) r) s.

(** [r->next = v] *)
Definition set_next (r v : Z) : M unit :=
  fun s => Done tt (mkstate (locks s) (freelist_CPU s) (store_le 8 r v (memory s))).

Definition do_memset (dst c n : Z) : M unit :=
  fun s => Done tt (mkstate (locks s) (freelist_CPU s) (memset dst c n (memory s))).

(** The fill bytes of [kfree] and [kalloc]. *)
Definition KFREE_JUNK : Z := 1.
Definition KALLOC_JUNK : Z := 5.

Section Kernel.

(** param.h and memlayout.h are not part of the sources, nor is the linker
    script that places [end]: the number of CPUs and the bounds of the
    managed physical range are parameters. *)
Variable NCPU : nat.
Variable kernel_end : Z.      (* [end]: first address after the kernel *)
Variable PHYSTOP : Z.

(** [kfree(pa)] run on CPU [cpu] ([cpuid()] between [push_off] and
    [pop_off], which keep the thread on that CPU). *)
Definition kfree (cpu : nat) (pa : Z) : M unit :=
  if negb (pa mod PGSIZE =? 0) || (pa <? kernel_end) || (PHYSTOP <=? pa)
  then panic "kfree"
  else
    (* Fill with junk to catch dangling refs. *)
    do_memset pa KFREE_JUNK PGSIZE ;;
    let r := pa in
    let cur_cpu := cpu in
    acquire cur_cpu cpu ;;
    head <- get_freelist cur_cpu ;;
    set_next r head ;;
    set_freelist cur_cpu r ;;
    release cur_cpu.

(** The stealing loop of [kalloc]: [for (int i = ...; i < NCPU; ++i)],
    with [n] iterations left. *)
Fixpoint kalloc_steal (cpu cur_cpu : nat) (n i : nat) : M Z :=
  match n with
  | O => ret 0
  | S n' =>
      if Nat.eqb i cur_cpu then kalloc_steal cpu cur_cpu n' (S i)   (* continue *)
      else
        acquire i cpu ;;
        r <- get_freelist i ;;
        if negb (r =? 0) then
          nxt <- get_next r ;;
          set_freelist i nxt ;;
          release i ;;
          ret r                                                     (* break *)
        else
          release i ;;
          kalloc_steal cpu cur_cpu n' (S i)
  end.

(** [kalloc()] run on CPU [cpu]; the null pointer is [0]. *)
Definition kalloc (cpu : nat) : M Z :=
  let cur_cpu := cpu in
  acquire cur_cpu cpu ;;
  r <- get_freelist cur_cpu ;;
  (if negb (r =? 0) then
     nxt <- get_next r ;;
     set_freelist cur_cpu nxt
   else ret tt) ;;
  release cur_cpu ;;
  r <- (if r =? 0 then kalloc_steal cpu cur_cpu NCPU 0 else ret r) ;;
  (if negb (r =? 0) then do_memset r KALLOC_JUNK PGSIZE (* fill with junk *) else ret tt) ;;
  ret r.

(** [freerange(pa_start, pa_end)], with [n] pages left to consider. *)
Fixpoint freerange_loop (cpu : nat) (n : nat) (p pa_end : Z) : M unit :=
  match n with
  | O => ret tt
  | S n' =>
      if p + PGSIZE <=? pa_end
      then kfree cpu p ;; freerange_loop cpu n' (p + PGSIZE) pa_end
      else ret tt
  end.

Definition PGROUNDUP (sz : Z) : Z := ((sz + PGSIZE - 1) / PGSIZE) * PGSIZE.

Definition freerange (cpu : nat) (pa_start pa_end : Z) : M unit :=
  let p := PGROUNDUP pa_start in
  freerange_loop cpu (Z.to_nat ((pa_end - p) / PGSIZE)) p pa_end.

(** [kinit()]: the locks start free and all memory goes to the booting CPU. *)
Definition kinit (cpu : nat) (m : mem) : result unit :=
  freerange cpu kernel_end PHYSTOP (mkstate (repeat None NCPU) (repeat 0 NCPU) m).

End Kernel.

(** *** The free pools as lists of pages *)

(** The free list starting at [r] holds exactly the pages [l], in order. *)
Fixpoint freelist_repr (m : mem) (r : Z) (l : list Z) : Prop :=
  match l with
  | [] => r = 0
  | p :: l' => r = p /\ p <> 0 /\ freelist_repr m (load_le 8 m p) l'
  end.

Definition page_aligned (p : Z) : Prop := p mod PGSIZE = 0.

(** Addresses are 64 bits wide. *)
Definition ADDR_MAX : Z := 18446744073709551616.

(** [P c] is the free pool of CPU [c]: every pool is a null-terminated
    list through memory, and no page is in two pools or twice in one. *)
Record pools_repr (NCPU : nat) (s : state) (P : nat -> list Z) : Prop := {
  pr_locks : length (locks s) = NCPU;
  pr_heads : length (freelist_CPU s) = NCPU;
  pr_list : forall c, (c < NCPU)%nat ->
              freelist_repr (memory s) (nth c (freelist_CPU s) 0) (P c);
  pr_pages : forall c p, In p (P c) -> page_aligned p /\ 0 < p < ADDR_MAX;
  pr_nodup : forall c, NoDup (P c);
  pr_disjoint : forall c c' p, In p (P c) -> In p (P c') -> c = c'
}.

(** Every byte of the page at [pa] holds [c]. *)
Definition page_filled (m : mem) (pa c : Z) : Prop :=
  forall a, pa <= a < pa + PGSIZE -> m a = c.

Definition all_free (s : state) : Prop :=
  forall i, nth i (locks s) None = None.

(** The pools after CPU [i]'s pool has become [l]. *)
Definition set_pool (i : nat) (l : list Z) (P : nat -> list Z) : nat -> list Z :=
  fun c => if Nat.eqb c i then l else P c.

(** *** An eight-CPU machine with 128 MB of memory *)

Definition kend_ex : Z := 2147618816.       (* 0x80021000 *)
Definition PHYSTOP_ex : Z := 2281701376.    (* 0x88000000 *)
Definition boot_ex : state :=
  mkstate (repeat None 8) (repeat 0 8) (fun _ => 0).

(** CPU 0 has no free page, CPU 1 has been given three. *)
Definition three_pages : state :=
  match
    (kfree kend_ex PHYSTOP_ex 1 2281689088 ;;
     kfree kend_ex PHYSTOP_ex 1 2281693184 ;;
     kfree kend_ex PHYSTOP_ex 1 2281697280) boot_ex
  with
  | Done _ s => s
  | _ => boot_ex
  end.

Definition three_pools : nat -> list Z :=
  set_pool 1 [2281697280; 2281693184; 2281689088] (fun _ => []).

(** *** Ranges of pages and runs of calls *)

(** The [n] pages from [p] on, by increasing address. *)
Fixpoint pages_from (p : Z) (n : nat) : list Z :=
  match n with
  | O => []
  | S n' => p :: pages_from (p + PGSIZE) n'
  end.

(** The number of whole pages between [p] and [pa_end]. *)
Definition page_count (p pa_end : Z) : nat := Z.to_nat ((pa_end - p) / PGSIZE).

(** The state [kfree(pa)] on CPU [cpu] leaves: the page filled and linked
    in front of the CPU's list. *)
Definition freed (cpu : nat) (pa : Z) (s : state) : state :=
  mkstate (locks s) (upd cpu pa (freelist_CPU s))
    (store_le 8 pa (nth cpu (freelist_CPU s) 0)
       (memset pa KFREE_JUNK PGSIZE (memory s))).

(** The state [kalloc] leaves when it takes the page [r] from the list of
    CPU [i]: the page unlinked and filled. *)
Definition taken (i : nat) (r : Z) (s : state) : state :=
  mkstate (locks s) (upd i (load_le 8 (memory s) r) (freelist_CPU s))
    (memset r KALLOC_JUNK PGSIZE (memory s)).

(** A run of [kalloc] calls, one on each of the listed CPUs; it yields the
    pointers returned, in order. *)
Fixpoint kallocs (NCPU : nat) (cpus : list nat) : M (list Z) :=
  match cpus with
  | [] => ret []
  | c :: cs =>
      r <- kalloc NCPU c ;;
      rs <- kallocs NCPU cs ;;
      ret (r :: rs)
  end.

(** Eight bytes of [kalloc]'s junk, read as a pointer: 0x0505050505050505. *)
Definition junk_pointer : Z := 361700864190383365.

(** *** The critical sections of [kalloc] *)

(** [kalloc] holds no lock between its critical sections, so calls of the
    other CPUs can run there.  These are the sections, each from its
    [acquire] to its [release]. *)

(** The first section: the caller's own list. *)
Definition kalloc_own (cpu : nat) : M Z :=
  let cur_cpu := cpu in
  acquire cur_cpu cpu ;;
  r <- get_freelist cur_cpu ;;
  (if negb (r =? 0) then
     nxt <- get_next r ;;
     set_freelist cur_cpu nxt
   else ret tt) ;;
  release cur_cpu ;;
  ret r.

(** One turn of the loop, at the list of a CPU [i] other than the
    caller's. *)
Definition kalloc_visit (cpu i : nat) : M Z :=
  acquire i cpu ;;
  r <- get_freelist i ;;
  if negb (r =? 0) then
    nxt <- get_next r ;;
    set_freelist i nxt ;;
    release i ;;
    ret r
  else
    release i ;;
    ret 0.

(** The end of [kalloc], once [r] is settled. *)
Definition kalloc_end (r : Z) : M Z :=
  (if negb (r =? 0) then do_memset r KALLOC_JUNK PGSIZE (* fill with junk *) else ret tt) ;;
  ret r.

(** [kalloc] from the loop on, about to look at CPU [i]. *)
Definition kalloc_rest (NCPU cpu i : nat) : M Z :=
  r <- kalloc_steal cpu cpu (NCPU - i) i ;;
  kalloc_end r.

End Kalloc.

(* ================================================================== *)
(** * kernel/bio.c *)
(* ================================================================== *)

Module Bio.

Definition BUCKET_SIZE : nat := 13.

(** Arithmetic on [uint]. *)
Definition wrap32 (z : Z) : Z := z mod 2 ^ 32.

(** A [struct buf *]: null, [&bcache.head[k]] or [&bcache.buf[i]]. *)
Inductive ptr : Type :=
| Null
| Head (k : nat)
| Buf (i : nat).

Definition ptr_eqb (p q : ptr) : bool :=
  match p, q with
  | Null, Null => true
  | Head k, Head k' => Nat.eqb k k'
  | Buf i, Buf i' => Nat.eqb i i'
  | _, _ => false
  end.

(** The payload of a buffer, [uchar data[BSIZE]]. *)
Definition block : Type := list Z.

(** Modelled from the spec: buf.h is missing; a buffer has a "device id,
    block number, validity flag (content reflects disk), pin/reference
    count, a last-used timestamp, and the data payload guarded by a
    dedicated exclusive lock", and is a node of a doubly linked list.
    bio.c passes [dev] and [blockno] as [uint] and copies [used_tick] into
    a [uint]; the reference count is a [uint] as well.  The sleep-lock is
    kept as the pid of its holder, if any. *)
Record buf : Type := mkbuf {
  valid : Z;
  dev : Z;
  blockno : Z;
  lock : option nat;
  refcnt : Z;
  used_tick : Z;
  prev : ptr;
  next : ptr;
  data : block
}.

(** Static storage starts zeroed. *)
Definition zero_buf : buf := mkbuf 0 0 0 None 0 0 Null Null [].

(** [struct { struct spinlock lock[BUCKET_SIZE]; struct buf buf[NBUF];
    struct buf head[BUCKET_SIZE]; } bcache], the tick counter with its
    lock, and the disk behind the driver. *)
Record state : Type := mkstate {
  bcache_lock : list spinlock;
  bcache_buf : list buf;
  bcache_head : list buf;
  ticks : Z;
  tickslock : spinlock;
  disk : Z -> Z -> block
}.

(** The running thread: [cpuid()] and [myproc()->pid]. *)
Record ctx : Type := mkctx { cpu : nat; pid : nat }.

(** [*p] *)
Definition deref (s : state) (p : ptr) : buf :=
  match p with
  | Null => zero_buf
  | Head k => nth k (bcache_head s) zero_buf
  | Buf i => nth i (bcache_buf s) zero_buf
  end.

(** [*p = f( *p )].  A store through a null or wild pointer is undefined
    behaviour in C; here it is dropped. *)
Definition assign (p : ptr) (f : buf -> buf) (s : state) : state :=
  match p with
  | Null => s
  | Head k => mkstate (bcache_lock s) (bcache_buf s)
                (upd k (f (deref s p)) (bcache_head s))
                (ticks s) (tickslock s) (disk s)
  | Buf i => mkstate (bcache_lock s)
               (upd i (f (deref s p)) (bcache_buf s)) (bcache_head s)
               (ticks s) (tickslock s) (disk s)
  end.

Definition with_valid (v : Z) (b : buf) : buf :=
  mkbuf v (dev b) (blockno b) (lock b) (refcnt b) (used_tick b) (prev b) (next b) (data b).
Definition with_dev (v : Z) (b : buf) : buf :=
  mkbuf (valid b) v (blockno b) (lock b) (refcnt b) (used_tick b) (prev b) (next b) (data b).
Definition with_blockno (v : Z) (b : buf) : buf :=
  mkbuf (valid b) (dev b) v (lock b) (refcnt b) (used_tick b) (prev b) (next b) (data b).
Definition with_lock (v : option nat) (b : buf) : buf :=
  mkbuf (valid b) (dev b) (blockno b) v (refcnt b) (used_tick b) (prev b) (next b) (data b).
Definition with_refcnt (v : Z) (b : buf) : buf :=
  mkbuf (valid b) (dev b) (blockno b) (lock b) v (used_tick b) (prev b) (next b) (data b).
Definition with_used_tick (v : Z) (b : buf) : buf :=
  mkbuf (valid b) (dev b) (blockno b) (lock b) (refcnt b) v (prev b) (next b) (data b).
Definition with_prev (v : ptr) (b : buf) : buf :=
  mkbuf (valid b) (dev b) (blockno b) (lock b) (refcnt b) (used_tick b) v (next b) (data b).
Definition with_next (v : ptr) (b : buf) : buf :=
  mkbuf (valid b) (dev b) (blockno b) (lock b) (refcnt b) (used_tick b) (prev b) v (data b).
Definition with_data (v : block) (b : buf) : buf :=
  mkbuf (valid b) (dev b) (blockno b) (lock b) (refcnt b) (used_tick b) (prev b) (next b) v.

(** The locks bio.c takes. *)
Inductive lockid : Type :=
| BucketLock (k : nat)       (* bcache.lock[k] *)
| TicksLock.                 (* tickslock *)

Inductive result (A : Type) : Type :=
| Done (a : A) (s : state)          (* the call returned [a] *)
| Panic (msg : string)              (* panic(msg) *)
| Spin (l : lockid) (s : state)     (* busy-waiting in acquire(l) *)
| Sleep (b : ptr) (s : state)       (* asleep in acquiresleep(&b->lock) *)
| OutOfFuel.                        (* a list walk outran its fuel *)
Arguments Done {A} a s.
Arguments Panic {A} msg.
Arguments Spin {A} l s.
Arguments Sleep {A} b s.
Arguments OutOfFuel {A}.

Definition M (A : Type) : Type := state -> result A.

Definition ret {A : Type} (a : A) : M A := fun s => Done a s.

Definition bind {A B : Type} (c : M A) (k : A -> M B) : M B :=
  fun s =>
    match c s with
    | Done a s' => k a s'
    | Panic msg => Panic msg
    | Spin l s' => Spin l s'
    | Sleep b s' => Sleep b s'
    | OutOfFuel => OutOfFuel
    end.

Notation "x <- c ;; k" := (bind c (fun x => k))
  (at level 61, c at next level, right associativity).
Notation "c ;; k" := (bind c (fun _ => k))
  (at level 61, right associativity).

Definition panic {A : Type} (msg : string) : M A := fun _ => Panic msg.

(** [p->f] *)
Definition get {A : Type} (f : buf -> A) (p : ptr) : M A :=
  fun s => Done (f (deref s p)) s.

(** [p->f = v], with [w] the update of field [f] *)
Definition set {A : Type} (w : A -> buf -> buf) (p : ptr) (v : A) : M unit :=
  fun s => Done tt (assign p (w v) s).

Definition get_ticks : M Z := fun s => Done (ticks s) s.

Definition lock_of (s : state) (l : lockid) : spinlock :=
  match l with
  | BucketLock k => nth k (bcache_lock s) None
  | TicksLock => tickslock s
  end.

Definition set_lock (l : lockid) (v : spinlock) (s : state) : state :=
  match l with
  | BucketLock k => mkstate (upd k v (bcache_lock s)) (bcache_buf s) (bcache_head s)
                      (ticks s) (tickslock s) (disk s)
  | TicksLock => mkstate (bcache_lock s) (bcache_buf s) (bcache_head s)
                   (ticks s) v (disk s)
  end.

(** Modelled from the spec: spinlock.c is missing; [acquire] busy-waits
    for as long as the lock is held. *)
Definition acquire (c : ctx) (l : lockid) : M unit :=
  fun s =>
    match lock_of s l with
    | None => Done tt (set_lock l (Some (cpu c)) s)
    | Some _ => Spin l s
    end.

(** Modelled from the spec: spinlock.c is missing; [release] frees the lock. *)
Definition release (l : lockid) : M unit :=
  fun s => Done tt (set_lock l None s).

(** [holding(&bcache.lock[k])] *)
Definition holding_bucket (c : ctx) (k : nat) : M bool :=
  fun s => Done (holding (lock_of s (BucketLock k)) (cpu c)) s.

(** Modelled from the spec: sleeplock.c is missing; the block lock is "a
    sleep-capable exclusive lock": the acquiring thread sleeps while
    another holds it. *)
Definition acquiresleep (c : ctx) (b : ptr) : M unit :=
  fun s =>
    match lock (deref s b) with
    | None => Done tt (assign b (with_lock (Some (pid c))) s)
    | Some _ => Sleep b s
    end.

(** Modelled from the spec: sleeplock.c is missing. *)
Definition releasesleep (b : ptr) : M unit :=
  set with_lock b None.

(** Modelled from the spec: sleeplock.c is missing; [holdingsleep] tells
    whether "the caller currently hold[s] the buffer's block lock". *)
Definition holdingsleep (c : ctx) (b : ptr) : M bool :=
  fun s =>
    Done (match lock (deref s b) with
          | Some p => Nat.eqb p (pid c)
          | None => false
          end) s.

(** Modelled from the spec: virtio_disk.c is missing; the driver is "a
    blocking call taking a buffer's device id, block number, data payload,
    and a direction flag", which returns once the transfer is complete. *)
Definition virtio_disk_rw (b : ptr) (write : bool) : M unit :=
  fun s =>
    let bf := deref s b in
    if write
    then Done tt (mkstate (bcache_lock s) (bcache_buf s) (bcache_head s)
                    (ticks s) (tickslock s)
                    (fun d n => if (d =? dev bf) && (n =? blockno bf)
                                then data bf else disk s d n))
    else Done tt (assign b (with_data (disk s (dev bf) (blockno bf))) s).

(** Modelled from the spec: trap.c is missing; the tick source is "a
    global lock-protected monotonically increasing counter, incremented
    externally" (a [uint], as it is copied into [uint temp_tick]). *)
Definition clockintr (c : ctx) : M unit :=
  acquire c TicksLock ;;
  (fun s => Done tt (mkstate (bcache_lock s) (bcache_buf s) (bcache_head s)
                       (wrap32 (ticks s + 1)) (tickslock s) (disk s))) ;;
  release TicksLock.

(** [acquire(&tickslock); b->used_tick = ticks; release(&tickslock);] *)
Definition stamp (c : ctx) (b : ptr) : M unit :=
  acquire c TicksLock ;;
  t <- get_ticks ;;
  set with_used_tick b t ;;
  release TicksLock.

(** *** binit *)

(** First loop of [binit], [n] iterations left. *)
Fixpoint binit_heads (n i : nat) : M unit :=
  match n with
  | O => ret tt
  | S n' =>
      release (BucketLock i) ;;                 (* initlock: the lock starts free *)
      set with_prev (Head i) (Head i) ;;
      set with_next (Head i) (Head i) ;;
      binit_heads n' (S i)
  end.

(** Second loop of [binit], [n] iterations left. *)
Fixpoint binit_bufs (n i : nat) : M unit :=
  match n with
  | O => ret tt
  | S n' =>
      let b := Buf i in
      let cur_bucket := (i mod BUCKET_SIZE)%nat in
      set with_lock b None ;;                   (* initsleeplock *)
      hn <- get next (Head cur_bucket) ;;
      set with_next b hn ;;
      set with_prev b (Head cur_bucket) ;;
      hn <- get next (Head cur_bucket) ;;
      set with_prev hn b ;;
      set with_next (Head cur_bucket) b ;;
      binit_bufs n' (S i)
  end.

Definition binit (NBUF : nat) : M unit :=
  binit_heads BUCKET_SIZE 0 ;;
  binit_bufs NBUF 0.

(** The zeroed [bcache] the kernel image starts with, on a disk [d];
    param.h is not part of the sources, so [NBUF] is a parameter. *)
Definition boot_state (NBUF : nat) (d : Z -> Z -> block) : state :=
  mkstate (repeat None BUCKET_SIZE) (repeat zero_buf NBUF)
          (repeat zero_buf BUCKET_SIZE) 0 None d.

(** *** bget *)

(** The lookup loop of [bget]:
    [for(b = head.next; b != &head; b = b->next) if (b->dev == dev && ...)]
    yields the matching buffer, if the walk finds one. *)
Fixpoint bget_find (fuel : nat) (head b : ptr) (dv bn : Z) : M (option ptr) :=
  match fuel with
  | O => fun _ => OutOfFuel
  | S fuel' =>
      if ptr_eqb b head then ret None
      else
        d <- get dev b ;;
        n <- get blockno b ;;
        if (d =? dv) && (n =? bn) then ret (Some b)
        else
          nb <- get next b ;;
          bget_find fuel' head nb dv bn
  end.

(** The inner loop of the recycling scan: the candidate so far is [temp],
    with tick [temp_tick]. *)
Fixpoint bget_scan (fuel : nat) (head b temp : ptr) (temp_tick : Z) : M (ptr * Z) :=
  match fuel with
  | O => fun _ => OutOfFuel
  | S fuel' =>
      if ptr_eqb b head then ret (temp, temp_tick)
      else
        rc <- get refcnt b ;;
        ut <- get used_tick b ;;
        nb <- get next b ;;
        if (rc =? 0) && ((temp_tick =? 0) || (ut <? temp_tick))
        then bget_scan fuel' head nb b ut
        else bget_scan fuel' head nb temp temp_tick
  end.

(** The body of [if(temp){ ... }] in the recycling loop: [temp], found in
    [bucket], becomes the buffer of block [bn] of device [dv]. *)
Definition bget_reuse (c : ctx) (dv bn : Z) (cur_bucket bucket : nat) (temp : ptr)
    : M ptr :=
  (if negb (Nat.eqb bucket cur_bucket) then
     tp <- get prev temp ;; tn <- get next temp ;; set with_next tp tn ;;
     tn <- get next temp ;; tp <- get prev temp ;; set with_prev tn tp ;;
     release (BucketLock bucket) ;;
     hn <- get next (Head cur_bucket) ;; set with_next temp hn ;;
     set with_prev temp (Head cur_bucket) ;;
     hn <- get next (Head cur_bucket) ;; set with_prev hn temp ;;
     set with_next (Head cur_bucket) temp
   else ret tt) ;;
  let b := temp in
  set with_dev b dv ;;
  set with_blockno b bn ;;
  set with_valid b 0 ;;
  set with_refcnt b 1 ;;
  stamp c b ;;
  release (BucketLock cur_bucket) ;;
  acquiresleep c b ;;
  ret b.

(** The recycling loop of [bget], [for(int i = ...; i < BUCKET_SIZE; ++i)],
    with [n] iterations left. *)
Fixpoint bget_recycle (fuel : nat) (c : ctx) (dv bn : Z) (cur_bucket : nat)
    (n i : nat) (temp : ptr) (temp_tick : Z) : M ptr :=
  match n with
  | O => panic "bget: no buffers"
  | S n' =>
      let bucket := ((cur_bucket + i) mod BUCKET_SIZE)%nat in
      skip <- (if negb (Nat.eqb bucket cur_bucket) then
                 h <- holding_bucket c bucket ;;
                 if negb h then acquire c (BucketLock bucket) ;; ret false
                 else ret true                                   (* continue *)
               else ret false) ;;
      if (skip : bool) then bget_recycle fuel c dv bn cur_bucket n' (S i) temp temp_tick
      else
        first <- get next (Head bucket) ;;
        found <- bget_scan fuel (Head bucket) first temp temp_tick ;;
        let temp := fst found in
        let temp_tick := snd found in
        if negb (ptr_eqb temp Null) then
          bget_reuse c dv bn cur_bucket bucket temp
        else
          (if negb (Nat.eqb bucket cur_bucket)
           then release (BucketLock bucket) else ret tt) ;;
          bget_recycle fuel c dv bn cur_bucket n' (S i) temp temp_tick
  end.

(** [blockno % BUCKET_SIZE] *)
Definition bucket_of (bn : Z) : nat := Z.to_nat (bn mod Z.of_nat BUCKET_SIZE).

Definition bget (fuel : nat) (c : ctx) (dv bn : Z) : M ptr :=
  let cur_bucket := bucket_of bn in
  acquire c (BucketLock cur_bucket) ;;
  first <- get next (Head cur_bucket) ;;
  hit <- bget_find fuel (Head cur_bucket) first dv bn ;;
  match hit with
  | Some b =>
      rc <- get refcnt b ;;
      set with_refcnt b (wrap32 (rc + 1)) ;;
      stamp c b ;;
      release (BucketLock cur_bucket) ;;
      acquiresleep c b ;;
      ret b
  | None =>
      (* Not cached. *)
      bget_recycle fuel c dv bn cur_bucket BUCKET_SIZE 0 Null 0
  end.

(** *** bread, bwrite, brelse, bpin, bunpin *)

(** What [bread] does once [bget] has returned [b]. *)
Definition bread_rest (c : ctx) (b : ptr) : M ptr :=
  v <- get valid b ;;
  (if v =? 0 then virtio_disk_rw b false ;; set with_valid b 1 else ret tt) ;;
  stamp c b ;;
  ret b.

Definition bread (fuel : nat) (c : ctx) (dv bn : Z) : M ptr :=
  b <- bget fuel c dv bn ;;
  bread_rest c b.

Definition bwrite (c : ctx) (b : ptr) : M unit :=
  h <- holdingsleep c b ;;
  if negb h then panic "bwrite"
  else virtio_disk_rw b true.

Definition brelse (c : ctx) (b : ptr) : M unit :=
  h <- holdingsleep c b ;;
  if negb h then panic "brelse"
  else
    releasesleep b ;;
    bn <- get blockno b ;;
    let cur_bucket := bucket_of bn in
    acquire c (BucketLock cur_bucket) ;;
    rc <- get refcnt b ;;
    set with_refcnt b (wrap32 (rc - 1)) ;;
    stamp c b ;;
    rc <- get refcnt b ;;
    (if rc =? 0 then
       (* no one is waiting for it. *)
       bnx <- get next b ;; bpv <- get prev b ;; set with_prev bnx bpv ;;
       bpv <- get prev b ;; bnx <- get next b ;; set with_next bpv bnx ;;
       hn <- get next (Head cur_bucket) ;; set with_next b hn ;;
       set with_prev b (Head cur_bucket) ;;
       hn <- get next (Head cur_bucket) ;; set with_prev hn b ;;
       set with_next (Head cur_bucket) b
     else ret tt) ;;
    release (BucketLock cur_bucket).

Definition bpin (c : ctx) (b : ptr) : M unit :=
  bn <- get blockno b ;;
  let cur_bucket := bucket_of bn in
  acquire c (BucketLock cur_bucket) ;;
  rc <- get refcnt b ;;
  set with_refcnt b (wrap32 (rc + 1)) ;;
  release (BucketLock cur_bucket).

Definition bunpin (c : ctx) (b : ptr) : M unit :=
  bn <- get blockno b ;;
  let cur_bucket := bucket_of bn in
  acquire c (BucketLock cur_bucket) ;;
  rc <- get refcnt b ;;
  set with_refcnt b (wrap32 (rc - 1)) ;;
  release (BucketLock cur_bucket).

(** *** The bucket lists *)

(** [p] points into [bcache]. *)
Definition inrange (s : state) (p : ptr) : Prop :=
  match p with
  | Null => False
  | Head k => (k < length (bcache_head s))%nat
  | Buf i => (i < length (bcache_buf s))%nat
  end.

Abbreviation nx s p := (next (deref s p)).
Abbreviation pv s p := (prev (deref s p)).

(** From [p], following [next], come the nodes of [l] and then [r];
    following [prev] from [r] leads back the same way. *)
Fixpoint dll (s : state) (p : ptr) (l : list ptr) (r : ptr) : Prop :=
  match l with
  | [] => nx s p = r /\ pv s r = p
  | q :: l' => nx s p = q /\ pv s q = p /\ dll s q l' r
  end.

(** [L k] lists the buffers of bucket [k] from [head.next] on: every list
    is a ring through its head, and no buffer is on two lists or twice on
    one. *)
Record rings (s : state) (L : nat -> list nat) : Prop := {
  r_heads : length (bcache_head s) = BUCKET_SIZE;
  r_ring : forall k, (k < BUCKET_SIZE)%nat ->
             dll s (Head k) (map Buf (L k)) (Head k);
  r_range : forall k i, In i (L k) ->
              (k < BUCKET_SIZE)%nat /\ (i < length (bcache_buf s))%nat;
  r_nodup : forall k, NoDup (L k);
  r_disjoint : forall k k' i, In i (L k) -> In i (L k') -> k = k'
}.

(** Every buffer of the pool is on some list. *)
Definition covers (s : state) (L : nat -> list nat) : Prop :=
  forall i, (i < length (bcache_buf s))%nat -> exists k, In i (L k).

(** The lists once buffer [i] is taken out, and once it is put in front
    of list [k]. *)
Definition L_remove (i : nat) (L : nat -> list nat) : nat -> list nat :=
  fun k => remove Nat.eq_dec i (L k).

Definition L_push (k i : nat) (L : nat -> list nat) : nat -> list nat :=
  fun k' => if Nat.eqb k' k then i :: L k' else L k'.

(** The state after the statements that take [b] out of its list, in the
    order of [bget] ... *)
Definition unlinked_np (b : ptr) (s : state) : state :=
  let s1 := assign (pv s b) (with_next (nx s b)) s in
  assign (nx s1 b) (with_prev (pv s1 b)) s1.

(** ... and in the order of [brelse]. *)
Definition unlinked_pn (b : ptr) (s : state) : state :=
  let s1 := assign (nx s b) (with_prev (pv s b)) s in
  assign (pv s1 b) (with_next (nx s1 b)) s1.

(** The state after the statements that put [b] at the front of the list
    of bucket [k]. *)
Definition pushed (k : nat) (b : ptr) (s : state) : state :=
  let s1 := assign b (with_next (nx s (Head k))) s in
  let s2 := assign b (with_prev (Head k)) s1 in
  let s3 := assign (nx s2 (Head k)) (with_prev b) s2 in
  assign (Head k) (with_next b) s3.

(** A field other than the two links. *)
Definition link_blind {A : Type} (g : buf -> A) : Prop :=
  (forall v b, g (with_next v b) = g b) /\ (forall v b, g (with_prev v b) = g b).

(** *** The two list walks of [bget], on a list of buffer numbers *)

Definition matches (s : state) (dv bn : Z) (i : nat) : bool :=
  (dev (deref s (Buf i)) =? dv) && (blockno (deref s (Buf i)) =? bn).

Fixpoint scan_list (s : state) (l : list nat) (temp : ptr) (temp_tick : Z)
    : ptr * Z :=
  match l with
  | [] => (temp, temp_tick)
  | i :: l' =>
      let b := deref s (Buf i) in
      if (refcnt b =? 0) && ((temp_tick =? 0) || (used_tick b <? temp_tick))
      then scan_list s l' (Buf i) (used_tick b)
      else scan_list s l' temp temp_tick
  end.

(** No buffer of [l] is free for reuse. *)
Definition no_free (s : state) (l : list nat) : Prop :=
  forall i, In i l -> refcnt (deref s (Buf i)) <> 0.

(** *** The effects of [bget], as states *)

(** The state once [temp], found in [bucket], is on the list of
    [cur_bucket]. *)
Definition relinked (cur_bucket bucket : nat) (temp : ptr) (s : state) : state :=
  if Nat.eqb bucket cur_bucket then s
  else pushed cur_bucket temp
         (set_lock (BucketLock bucket) None (unlinked_np temp s)).

(** The new identity of a recycled buffer, stamped at tick [t]. *)
Definition retag (dv bn t : Z) (b : buf) : buf :=
  mkbuf 0 dv bn (lock b) 1 t (prev b) (next b) (data b).

(** The state when [bget_reuse] is about to take the block lock. *)
Definition reused (dv bn : Z) (cur_bucket bucket : nat) (temp : ptr) (s : state)
    : state :=
  set_lock (BucketLock cur_bucket) None
    (assign temp (retag dv bn (ticks s)) (relinked cur_bucket bucket temp s)).

(** The cache once [bget] has recycled [temp], found in [bucket], for
    block [bn] of device [dv], and has let go of the spinlocks. *)
Definition recycled (dv bn : Z) (cur_bucket bucket : nat) (temp : ptr) (s : state)
    : state :=
  assign temp (retag dv bn (ticks s))
    (if Nat.eqb bucket cur_bucket then s
     else pushed cur_bucket temp (unlinked_np temp s)).

(** What a cache hit does to the buffer, at tick [t]. *)
Definition rehit (t : Z) (b : buf) : buf :=
  with_used_tick t (with_refcnt (wrap32 (refcnt b + 1)) b).

(** The bucket visited by iteration [j] of the recycling loop. *)
Definition rot (cur_bucket j : nat) : nat := ((cur_bucket + j) mod BUCKET_SIZE)%nat.

(** Iteration [j] of the recycling loop passes without a candidate: the
    bucket is skipped because the caller holds its lock already, or it is
    locked, walked and found to hold no free buffer. *)
Definition passes (s : state) (c : ctx) (L : nat -> list nat)
    (cur_bucket j : nat) : Prop :=
  let bucket := rot cur_bucket j in
  (bucket <> cur_bucket /\ holding (lock_of s (BucketLock bucket)) (cpu c) = true) \/
  ((bucket = cur_bucket \/ lock_of s (BucketLock bucket) = None) /\
   no_free s (L bucket)).

(** Block [bn] of device [dv] is not on the list of its home bucket. *)
Definition miss (s : state) (L : nat -> list nat) (dv bn : Z) : Prop :=
  forall i, In i (L (bucket_of bn)) -> matches s dv bn i = false.

(** *** The cache as a transition system *)

(** The calls of the file system, each run on its own until it returns or
    goes to sleep on a block lock, and the two ways a sleeper carries on.
    Under the spinlocks the calls exclude one another, so runs of the
    kernel are sequences of these. *)
Inductive op : Type :=
| Obget (c : ctx) (dv bn : Z)
| Obread (c : ctx) (dv bn : Z)
| Owake (c : ctx) (i : nat)         (* asleep in [bget]: gets the block lock *)
| Owake_read (c : ctx) (i : nat)    (* asleep in [bread]: gets it, ends [bread] *)
| Obwrite (c : ctx) (i : nat)
| Obrelse (c : ctx) (i : nat)
| Obpin (c : ctx) (i : nat)
| Obunpin (c : ctx) (i : nat)
| Otick (c : ctx).

Definition is_uint (z : Z) : bool := (0 <=? z) && (z <? 2 ^ 32).

(** The state a call leaves behind when it returns or falls asleep. *)
Definition settle {A : Type} (r : result A) : option state :=
  match r with
  | Done _ s' => Some s'
  | Sleep _ s' => Some s'
  | _ => None
  end.

(** Fuel enough to walk any list of buffers. *)
Definition walk_fuel (s : state) : nat := S (length (bcache_buf s)).

Definition exec (o : op) (s : state) : option state :=
  let pool i := (i <? length (bcache_buf s))%nat in
  match o with
  | Obget c dv bn =>
      if is_uint dv && is_uint bn then settle (bget (walk_fuel s) c dv bn s) else None
  | Obread c dv bn =>
      if is_uint dv && is_uint bn then settle (bread (walk_fuel s) c dv bn s) else None
  | Owake c i =>
      if pool i then settle (acquiresleep c (Buf i) s) else None
  | Owake_read c i =>
      if pool i then settle ((acquiresleep c (Buf i) ;; bread_rest c (Buf i)) s) else None
  | Obwrite c i => if pool i then settle (bwrite c (Buf i) s) else None
  | Obrelse c i => if pool i then settle (brelse c (Buf i) s) else None
  | Obpin c i => if pool i then settle (bpin c (Buf i) s) else None
  | Obunpin c i => if pool i then settle (bunpin c (Buf i) s) else None
  | Otick c => settle (clockintr c s)
  end.

Fixpoint run_ops (ops : list op) (s : state) : option state :=
  match ops with
  | [] => Some s
  | o :: ops' =>
      match exec o s with
      | Some s' => run_ops ops' s'
      | None => None
      end
  end.

(** The cache after [binit], with [NBUF] buffers, on disk [d]. *)
Definition booted (NBUF : nat) (d : Z -> Z -> block) : state :=
  match binit NBUF (boot_state NBUF d) with
  | Done _ s => s
  | _ => boot_state NBUF d
  end.

Definition reachable (NBUF : nat) (d : Z -> Z -> block) (s : state) : Prop :=
  exists ops, run_ops ops (booted NBUF d) = Some s.

(** The invariant of a cache of [NBUF] buffers. *)
Record inv (NBUF : nat) (s : state) (L : nat -> list nat) : Prop := {
  inv_rings : rings s L;
  inv_covers : covers s L;
  inv_locks : forall l, lock_of s l = None;
  (* a buffer that stands for a block is on the list of the block's bucket *)
  inv_home : forall i, (i < length (bcache_buf s))%nat ->
      dev (deref s (Buf i)) <> 0 \/ blockno (deref s (Buf i)) <> 0 ->
      In i (L (bucket_of (blockno (deref s (Buf i)))));
  (* only the boot-time identity (0, 0) is shared *)
  inv_uniq : forall i j,
      (i < length (bcache_buf s))%nat -> (j < length (bcache_buf s))%nat -> i <> j ->
      dev (deref s (Buf i)) = dev (deref s (Buf j)) ->
      blockno (deref s (Buf i)) = blockno (deref s (Buf j)) ->
      dev (deref s (Buf i)) = 0 /\ blockno (deref s (Buf i)) = 0;
  inv_refcnt : forall i, (i < length (bcache_buf s))%nat ->
      0 <= refcnt (deref s (Buf i)) < 2 ^ 32;
  inv_size : length (bcache_buf s) = NBUF
}.

(** *** Reading the bucket lists off a state *)

Fixpoint walk (s : state) (fuel : nat) (p : ptr) : list nat :=
  match fuel with
  | O => []
  | S fuel' =>
      match p with
      | Buf i => i :: walk s fuel' (nx s p)
      | _ => []
      end
  end.

Definition lists_of (s : state) : nat -> list nat :=
  fun k => if (k <? BUCKET_SIZE)%nat
           then walk s (length (bcache_buf s)) (nx s (Head k)) else [].

Fixpoint dllb (s : state) (p : ptr) (l : list ptr) (r : ptr) : bool :=
  match l with
  | [] => ptr_eqb (nx s p) r && ptr_eqb (pv s r) p
  | q :: l' => ptr_eqb (nx s p) q && ptr_eqb (pv s q) p && dllb s q l' r
  end.

Fixpoint nodupb (l : list nat) : bool :=
  match l with
  | [] => true
  | x :: l' => negb (existsb (Nat.eqb x) l') && nodupb l'
  end.

(** A check that the lists read off [s] are the bucket lists of [s]. *)
Definition ringsb (s : state) : bool :=
  let all := flat_map (lists_of s) (seq 0 BUCKET_SIZE) in
  (length (bcache_head s) =? BUCKET_SIZE)%nat &&
  forallb (fun k => dllb s (Head k) (map Buf (lists_of s k)) (Head k))
          (seq 0 BUCKET_SIZE) &&
  nodupb all &&
  forallb (fun i => (i <? length (bcache_buf s))%nat) all.

(** *** Fields, pins, and the states of some runs *)

(** What [brelse] does to the buffer itself, at tick [t]. *)
Definition released (t : Z) (b : buf) : buf :=
  with_used_tick t (with_refcnt (wrap32 (refcnt b - 1)) (with_lock None b)).

(** The fields of a buffer other than its two links. *)
Definition meta (b : buf) : Z * Z * Z * option nat * Z * Z * block :=
  (valid b, dev b, blockno b, lock b, refcnt b, used_tick b, data b).

(** A run of [bpin] and [bunpin] calls on one buffer. *)
Inductive pin_call : Type := Pin | Unpin.

Fixpoint pin_calls (c : ctx) (b : ptr) (l : list pin_call) : M unit :=
  match l with
  | [] => ret tt
  | Pin :: l' => bpin c b ;; pin_calls c b l'
  | Unpin :: l' => bunpin c b ;; pin_calls c b l'
  end.

(** Pins minus unpins. *)
Fixpoint balance (l : list pin_call) : Z :=
  match l with
  | [] => 0
  | Pin :: l' => 1 + balance l'
  | Unpin :: l' => balance l' - 1
  end.

(** The lists after [bget] has recycled buffer [v] of bucket [bk]. *)
Definition L_recycled (cur bk v : nat) (L : nat -> list nat) : nat -> list nat :=
  if Nat.eqb bk cur then L else L_push cur v (L_remove v L).

(** Buffers that are referred to keep their identity from [s] to [s']. *)
Definition keeps_pinned (s s' : state) : Prop :=
  forall i, refcnt (deref s (Buf i)) <> 0 ->
    dev (deref s' (Buf i)) = dev (deref s (Buf i)) /\
    blockno (deref s' (Buf i)) = blockno (deref s (Buf i)).

(** All buffers keep their identity from [s] to [s']. *)
Definition same_ids (s s' : state) : Prop :=
  forall q, dev (deref s' q) = dev (deref s q) /\
            blockno (deref s' q) = blockno (deref s q).

(** The state of [binit] with the buffers numbered below [i] on the
    lists and the others still as the boot image has them. *)
Record booting (s : state) (L : nat -> list nat) (i : nat) : Prop := {
  bo_rings : rings s L;
  bo_locks : forall l, lock_of s l = None;
  bo_listed : forall x, (exists k, In x (L k)) <-> (x < i)%nat;
  bo_zero : forall j, dev (deref s (Buf j)) = 0 /\ blockno (deref s (Buf j)) = 0 /\
                      refcnt (deref s (Buf j)) = 0
}.

(** [v] is, of all the buffers of the pool that nobody refers to, one
    with the oldest tick. *)
Definition global_lru (s : state) (v : nat) : Prop :=
  refcnt (deref s (Buf v)) = 0 /\
  forall i, (i < length (bcache_buf s))%nat -> refcnt (deref s (Buf i)) = 0 ->
    used_tick (deref s (Buf v)) <= used_tick (deref s (Buf i)).

(** An xv6 with its usual thirty buffers ([NBUF] is [MAXOPBLOCKS*3] in the
    stock param.h) and two threads, on two CPUs. *)
Definition no_disk : Z -> Z -> block := fun _ _ => [].
Definition thread0 : ctx := mkctx 0 1.
Definition thread1 : ctx := mkctx 1 2.

Definition after (ops : list op) : state :=
  match run_ops ops (booted 30 no_disk) with
  | Some s => s
  | None => booted 30 no_disk
  end.

(** Blocks 1 to 30 of device 1 are read, a tick apart, and kept. *)
Definition read_all : list op :=
  flat_map (fun n => [Otick thread0; Obread thread0 1 (Z.of_nat n)]) (seq 1 30).

(** Then they are released, a tick apart, in the order they were read
    (block [n] sits in buffer [n], but for 13, 26 and 30, which sit in
    buffers 0, 13 and 26). *)
Definition release_all : list op :=
  flat_map (fun i => [Otick thread0; Obrelse thread0 i])
    ([1; 2; 3; 4; 5; 6; 7; 8; 9; 10; 11; 12; 0; 14; 15; 16; 17; 18; 19; 20;
      21; 22; 23; 24; 25; 13; 27; 28; 29; 26])%nat.

Definition pinned_state : state := after read_all.
Definition lru_state : state := after (read_all ++ release_all).

(** Thread 0 holds block 1. *)
Definition held_state : state := after [Otick thread0; Obread thread0 1 1].

(** The three buffers of bucket 0 are in use, and CPU 1 is in a call
    that holds the lock of bucket 1. *)
Definition bucket0_busy : state :=
  set_lock (BucketLock 1) (Some (cpu thread1))
    (after [Obread thread0 1 13; Obread thread0 1 26; Obread thread0 1 39]).

(** Every buffer is in use; CPU 0 is in a [bget] with home bucket 0 and
    CPU 1 in a [bget] with home bucket 1, each past its lookup. *)
Definition both_scanning : state :=
  set_lock (BucketLock 1) (Some (cpu thread1))
    (set_lock (BucketLock 0) (Some (cpu thread0)) pinned_state).


(** *** The lists [binit] builds *)

(** The bucket lists after the first [n] iterations of the second loop of
    [binit]: buffer [i] goes in front of the list of bucket
    [i % BUCKET_SIZE]. *)
Fixpoint init_lists (n : nat) : nat -> list nat :=
  match n with
  | O => fun _ => []
  | S n' => L_push (n' mod BUCKET_SIZE) n' (init_lists n')
  end.

(** What [bread] does to the buffer [bget] returned, on a disk [d]: the
    block is read in unless the buffer is valid. *)
Definition fetched (d : Z -> Z -> block) (b : buf) : buf :=
  if valid b =? 0 then with_valid 1 (with_data (d (dev b) (blockno b)) b) else b.

(** What [bread] does to a buffer that holds the block already, for the
    thread [c], at tick [t]. *)
Definition served (c : ctx) (t : Z) (d : Z -> Z -> block) (b : buf) : buf :=
  with_used_tick t (fetched d (with_lock (Some (pid c)) (rehit t b))).

(** A computation that leaves the disk as it is, however it ends. *)
Definition keeps_disk {A : Type} (m : M A) : Prop :=
  forall s,
    match m s with
    | Done _ s' => disk s' = disk s
    | Spin _ s' => disk s' = disk s
    | Sleep _ s' => disk s' = disk s
    | _ => True
    end.

(** Nobody refers to buffer [i]. *)
Definition free_buf (s : state) (i : nat) : bool :=
  refcnt (deref s (Buf i)) =? 0.

End Bio.

(* ================================================================== *)
(** * Proofs *)
(* ================================================================== *)

(** * Arrays *)

Section ArrayFacts.
Context {A : Type}.

Lemma length_upd (i : nat) (x : A) (l : list A) :
  length (upd i x l) = length l.
Proof. revert i; induction l as [|h t IH]; intros [|i]; simpl; auto. Qed.

Lemma nth_upd_eq (i : nat) (x d : A) (l : list A) :
  (i < length l)%nat -> nth i (upd i x l) d = x.
Proof.
  revert i; induction l as [|h t IH]; intros [|i] Hi; simpl in *; try lia; auto.
  apply IH; lia.
Qed.

Lemma nth_upd_ne (i j : nat) (x d : A) (l : list A) :
  i <> j -> nth j (upd i x l) d = nth j l d.
Proof.
  revert i j; induction l as [|h t IH]; intros [|i] [|j] Hij; simpl; auto; try congruence.
Qed.

Lemma upd_upd (i : nat) (x y : A) (l : list A) :
  upd i x (upd i y l) = upd i x l.
Proof. revert i; induction l as [|h t IH]; intros [|i]; simpl; auto. f_equal; auto. Qed.

Lemma upd_same (i : nat) (d : A) (l : list A) :
  upd i (nth i l d) l = l.
Proof.
  revert i; induction l as [|h t IH]; intros [|i]; simpl; auto. f_equal; auto.
Qed.

Lemma upd_out (i : nat) (x : A) (l : list A) :
  (length l <= i)%nat -> upd i x l = l.
Proof.
  revert i; induction l as [|h t IH]; intros [|i] Hi; simpl in *; auto; try lia.
  f_equal. apply IH. lia.
Qed.

Lemma upd_restore (i : nat) (x d : A) (l : list A) :
  upd i (nth i l d) (upd i x l) = l.
Proof. rewrite upd_upd. apply upd_same. Qed.

Lemma upd_relock (i : nat) (x d : A) (l : list A) :
  nth i l d = d -> upd i d (upd i x l) = l.
Proof. intros H. rewrite <- H at 1. apply upd_restore. Qed.

End ArrayFacts.

(* ================================================================== *)
(** * kernel/kalloc.c: proofs *)
(* ================================================================== *)

Module KallocProofs.
Import Kalloc.

(** ** Memory *)

Lemma store_le_frame n : forall a v m x,
  x < a \/ a + Z.of_nat n <= x -> store_le n a v m x = m x.
Proof.
  induction n as [|n IH]; intros a v m x Hx; [reflexivity|].
  cbn [store_le]. rewrite IH by lia.
  destruct (Z.eqb_spec x a); [lia | reflexivity].
Qed.

Lemma load_le_ext n : forall m m' a,
  (forall x, a <= x < a + Z.of_nat n -> m' x = m x) ->
  load_le n m' a = load_le n m a.
Proof.
  induction n as [|n IH]; intros m m' a H; [reflexivity|].
  cbn [load_le]. rewrite H by lia. rewrite (IH m m' (a + 1)); [reflexivity|].
  intros x Hx; apply H; lia.
Qed.

Lemma load_store_le n : forall a v m,
  load_le n (store_le n a v m) a = v mod 256 ^ Z.of_nat n.
Proof.
  induction n as [|n IH]; intros a v m.
  - cbn. now rewrite Z.mod_1_r.
  - cbn [load_le store_le]. rewrite IH.
    rewrite store_le_frame by lia. rewrite Z.eqb_refl.
    rewrite Nat2Z.inj_succ, Z.pow_succ_r by lia.
    rewrite Z.rem_mul_r by lia. reflexivity.
Qed.

Lemma load_store_ptr a v m :
  0 <= v < ADDR_MAX -> load_le 8 (store_le 8 a v m) a = v.
Proof.
  intros Hv. rewrite load_store_le. apply Z.mod_small. exact Hv.
Qed.

Lemma pages_apart p q :
  page_aligned p -> page_aligned q -> p <> q ->
  p + PGSIZE <= q \/ q + PGSIZE <= p.
Proof.
  unfold page_aligned, PGSIZE. intros Hp Hq Hne.
  apply Z.mod_divide in Hp; [|lia]. apply Z.mod_divide in Hq; [|lia].
  destruct Hp as [x ->], Hq as [y ->]. lia.
Qed.

Lemma freelist_repr_ext m m' l : forall r,
  (forall p, In p l -> load_le 8 m' p = load_le 8 m p) ->
  freelist_repr m r l -> freelist_repr m' r l.
Proof.
  induction l as [|p l IH]; intros r H Hr; simpl in *; [exact Hr|].
  destruct Hr as (-> & Hp & Hr). repeat split; auto.
  rewrite H by auto. apply IH; auto.
Qed.

Lemma freelist_repr_nil_iff m r l :
  freelist_repr m r l -> (r = 0 <-> l = []).
Proof.
  destruct l; simpl.
  - intros ->; tauto.
  - intros (-> & Hp & _). split; [contradiction | discriminate].
Qed.

(** ** Locks *)

Lemma kmem_eta s : mkstate (locks s) (freelist_CPU s) (memory s) = s.
Proof. destruct s; reflexivity. Qed.

Lemma kmem_acquire_free i cpu s :
  nth i (locks s) None = None ->
  acquire i cpu s =
  Done tt (mkstate (upd i (Some cpu) (locks s)) (freelist_CPU s) (memory s)).
Proof. unfold acquire. intros ->. reflexivity. Qed.

Lemma relock i (x : spinlock) l :
  nth i l None = None -> upd i None (upd i x l) = l.
Proof. apply upd_relock. Qed.

Section Steal.
Variables (NCPU : nat).

(** The stealing loop finds nothing when the pools it visits are empty. *)
Lemma kalloc_steal_none cpu cur n : forall i s,
  all_free s ->
  (forall j, (i <= j < i + n)%nat -> j <> cur -> nth j (freelist_CPU s) 0 = 0) ->
  kalloc_steal cpu cur n i s = Done 0 s.
Proof.
  induction n as [|n IH]; intros i s Hfree Hempty; [reflexivity|].
  cbn [kalloc_steal]. destruct (Nat.eqb_spec i cur) as [->|Hne].
  - apply IH; auto. intros j Hj; apply Hempty; lia.
  - unfold bind at 1. rewrite kmem_acquire_free by apply Hfree.
    unfold bind at 1, get_freelist; cbn [freelist_CPU].
    rewrite (Hempty i) by (auto; lia). cbn [Z.eqb negb].
    unfold bind at 1, release. cbn [locks freelist_CPU memory].
    rewrite relock by apply Hfree. rewrite kmem_eta.
    apply IH; auto. intros j Hj; apply Hempty; lia.
Qed.

(** It takes the head of the first non-empty pool it visits. *)
Lemma kalloc_steal_some cpu cur n k : forall i s,
  all_free s ->
  (i <= k < i + n)%nat -> k <> cur ->
  nth k (freelist_CPU s) 0 <> 0 ->
  (forall j, (i <= j < k)%nat -> j <> cur -> nth j (freelist_CPU s) 0 = 0) ->
  kalloc_steal cpu cur n i s =
  Done (nth k (freelist_CPU s) 0)
       (mkstate (locks s)
          (upd k (load_le 8 (memory s) (nth k (freelist_CPU s) 0)) (freelist_CPU s))
          (memory s)).
Proof.
  induction n as [|n IH]; intros i s Hfree Hk Hkc Hnz Hempty; [lia|].
  cbn [kalloc_steal]. destruct (Nat.eqb_spec i cur) as [->|Hne].
  - apply IH; auto; try lia. intros j Hj; apply Hempty; lia.
  - unfold bind at 1. rewrite kmem_acquire_free by apply Hfree.
    unfold bind at 1, get_freelist; cbn [freelist_CPU].
    destruct (Nat.eq_dec i k) as [->|Hik].
    + destruct (Z.eqb_spec (nth k (freelist_CPU s) 0) 0) as [E|_]; [contradiction|].
      cbn [negb]. unfold bind, get_next, set_freelist, release, ret.
      cbn [locks freelist_CPU memory].
      rewrite relock by apply Hfree. reflexivity.
    + rewrite (Hempty i) by (auto; lia). cbn [Z.eqb negb].
      unfold bind at 1, release. cbn [locks freelist_CPU memory].
      rewrite relock by apply Hfree. rewrite kmem_eta.
      apply IH; auto; try lia. intros j Hj; apply Hempty; lia.
Qed.

End Steal.

(** A bounded search for the first index from [i] satisfying a property. *)
Lemma first_nonzero (f : nat -> Z) (cur : nat) n : forall i,
  (forall j, (i <= j < i + n)%nat -> j <> cur -> f j = 0) \/
  (exists k, (i <= k < i + n)%nat /\ k <> cur /\ f k <> 0 /\
             forall j, (i <= j < k)%nat -> j <> cur -> f j = 0).
Proof.
  induction n as [|n IH]; intros i.
  - left; intros; lia.
  - destruct (Nat.eq_dec i cur) as [E|E].
    + destruct (IH (S i)) as [H|(k & Hk & Hkc & Hnz & H)].
      * left. intros j Hj Hjc. apply H; [lia|assumption].
      * right. exists k. split; [lia|]. do 2 (split; [assumption|]).
        intros j Hj Hjc. apply H; [lia|assumption].
    + destruct (Z.eq_dec (f i) 0) as [Z0|NZ].
      * destruct (IH (S i)) as [H|(k & Hk & Hkc & Hnz & H)].
        -- left. intros j Hj Hjc. destruct (Nat.eq_dec j i) as [->|]; [assumption|].
           apply H; [lia|assumption].
        -- right. exists k. split; [lia|]. do 2 (split; [assumption|]).
           intros j Hj Hjc. destruct (Nat.eq_dec j i) as [->|]; [assumption|].
           apply H; [lia|assumption].
      * right. exists i. split; [lia|]. do 2 (split; [assumption|]). intros; lia.
Qed.

Lemma memset_outside dst c n m a :
  a < dst \/ dst + n <= a -> memset dst c n m a = m a.
Proof.
  unfold memset. intros H.
  destruct (Z.leb_spec dst a), (Z.ltb_spec a (dst + n)); simpl; auto; lia.
Qed.

Lemma memset_inside dst c n m a :
  dst <= a < dst + n -> memset dst c n m a = c mod 256.
Proof.
  unfold memset. intros H.
  destruct (Z.leb_spec dst a), (Z.ltb_spec a (dst + n)); simpl; auto; lia.
Qed.

(** The link of a free page survives filling or relinking another page. *)
Lemma load_other_page (m m' : mem) r p :
  page_aligned r -> page_aligned p -> p <> r ->
  (forall a, a < r \/ r + PGSIZE <= a -> m' a = m a) ->
  load_le 8 m' p = load_le 8 m p.
Proof.
  intros Hr Hp Hne Hout. apply load_le_ext. intros x Hx. apply Hout.
  destruct (pages_apart p r Hp Hr Hne); unfold PGSIZE in *; lia.
Qed.

Lemma set_pool_in i l P c p :
  In p (set_pool i l P c) -> (c = i /\ In p l) \/ (c <> i /\ In p (P c)).
Proof.
  unfold set_pool. destruct (Nat.eqb_spec c i); auto.
Qed.

(** Unlinking the head [r] of pool [i] and filling the page with junk. *)
Lemma take_page NCPU s P i r l :
  pools_repr NCPU s P -> (i < NCPU)%nat -> P i = r :: l ->
  pools_repr NCPU
    (mkstate (locks s)
       (upd i (load_le 8 (memory s) r) (freelist_CPU s))
       (memset r KALLOC_JUNK PGSIZE (memory s)))
    (set_pool i l P)
  /\ page_filled (memset r KALLOC_JUNK PGSIZE (memory s)) r KALLOC_JUNK.
Proof.
  intros [Hlk Hhd Hlist Hpg Hnd Hdj] Hi HPi.
  assert (Hr : In r (P i)) by (rewrite HPi; left; reflexivity).
  assert (Hrl : ~ In r l).
  { specialize (Hnd i). rewrite HPi in Hnd. now inversion Hnd. }
  split.
  - constructor; cbn [locks freelist_CPU memory].
    + exact Hlk.
    + now rewrite length_upd.
    + intros c Hc. unfold set_pool.
      destruct (Nat.eqb_spec c i) as [->|Hci].
      * rewrite nth_upd_eq by lia.
        generalize (Hlist i Hi). rewrite HPi. cbn [freelist_repr].
        intros (_ & _ & Hl). revert Hl. apply freelist_repr_ext.
        intros p Hp. apply (load_other_page _ _ r).
        -- apply (Hpg i r Hr).
        -- apply (Hpg i p). rewrite HPi. now right.
        -- intros ->. contradiction.
        -- intros a Ha. now apply memset_outside.
      * rewrite nth_upd_ne by auto.
        generalize (Hlist c Hc). apply freelist_repr_ext.
        intros p Hp. apply (load_other_page _ _ r).
        -- apply (Hpg i r Hr).
        -- apply (Hpg c p Hp).
        -- intros ->. apply Hci. now apply (Hdj c i r).
        -- intros a Ha. now apply memset_outside.
    + intros c p Hp. apply set_pool_in in Hp as [(-> & Hp)|(_ & Hp)].
      * apply (Hpg i). rewrite HPi. now right.
      * now apply (Hpg c).
    + intros c. unfold set_pool. destruct (Nat.eqb_spec c i) as [->|_]; auto.
      specialize (Hnd i). rewrite HPi in Hnd. now inversion Hnd.
    + intros c c' p Hp Hp'.
      apply (Hdj c c' p).
      * apply set_pool_in in Hp as [(-> & Hp)|(_ & Hp)]; auto. rewrite HPi. now right.
      * apply set_pool_in in Hp' as [(-> & Hp')|(_ & Hp')]; auto. rewrite HPi. now right.
  - intros a Ha. rewrite memset_inside by exact Ha. reflexivity.
Qed.

Lemma pool_head NCPU s P c :
  pools_repr NCPU s P -> (c < NCPU)%nat ->
  (nth c (freelist_CPU s) 0 = 0 <-> P c = []).
Proof.
  intros H Hc. apply (freelist_repr_nil_iff (memory s)). now apply (pr_list _ _ _ H).
Qed.

Lemma pool_head_cons NCPU s P c :
  pools_repr NCPU s P -> (c < NCPU)%nat -> nth c (freelist_CPU s) 0 <> 0 ->
  exists l, P c = nth c (freelist_CPU s) 0 :: l.
Proof.
  intros H Hc Hnz. generalize (pr_list _ _ _ H c Hc).
  destruct (P c) as [|p l]; cbn [freelist_repr].
  - intros E; contradiction.
  - intros (-> & _). now exists l.
Qed.

(** *** [kalloc] as the sequence of its critical sections *)

Lemma kalloc_sections NCPU cpu s :
  kalloc NCPU cpu s =
  (r <- kalloc_own cpu ;;
   if r =? 0 then kalloc_rest NCPU cpu 0 else kalloc_end r) s.
Proof.
  unfold kalloc, kalloc_own, kalloc_rest, kalloc_end. rewrite Nat.sub_0_r.
  unfold bind. destruct (acquire cpu cpu s) as [[] s1| |]; try reflexivity.
  unfold get_freelist, get_next, set_freelist, release, ret.
  destruct (nth cpu (freelist_CPU s1) 0 =? 0) eqn:E; cbn [negb]; rewrite ?E; reflexivity.
Qed.

Lemma kalloc_rest_visit NCPU cpu i s :
  (i < NCPU)%nat -> i <> cpu ->
  kalloc_rest NCPU cpu i s =
  (r <- kalloc_visit cpu i ;;
   if r =? 0 then kalloc_rest NCPU cpu (S i) else kalloc_end r) s.
Proof.
  intros Hi Hne. unfold kalloc_rest.
  replace (NCPU - i)%nat with (S (NCPU - S i)) by lia.
  cbn [kalloc_steal]. destruct (Nat.eqb_spec i cpu) as [|_]; [contradiction|].
  unfold kalloc_visit.
  unfold bind. destruct (acquire i cpu s) as [[] s1| |]; try reflexivity.
  unfold get_freelist, get_next, set_freelist, release, ret.
  destruct (nth i (freelist_CPU s1) 0 =? 0) eqn:E; cbn [negb Z.eqb]; rewrite ?E; reflexivity.
Qed.

Lemma kalloc_rest_own NCPU cpu s :
  (cpu < NCPU)%nat -> kalloc_rest NCPU cpu cpu s = kalloc_rest NCPU cpu (S cpu) s.
Proof.
  intros Hc. unfold kalloc_rest.
  replace (NCPU - cpu)%nat with (S (NCPU - S cpu)) by lia.
  cbn [kalloc_steal]. now rewrite Nat.eqb_refl.
Qed.

(** C4 (amended).  A [kalloc] that runs with every lock free and no call
    of another CPU between its critical sections takes one page from the
    pool of the calling CPU when that pool is not empty; otherwise it
    visits the other pools by increasing CPU number and takes one page from
    the first that is not empty; it returns the null pointer exactly when
    every pool is empty.  The page returned is removed from its pool, and
    filled with junk. *)
Theorem kalloc_takes_one_page NCPU cpu s P :
  pools_repr NCPU s P -> all_free s -> (cpu < NCPU)%nat ->
  exists r s',
    kalloc NCPU cpu s = Done r s' /\
    locks s' = locks s /\
    (r = 0 <-> forall c, (c < NCPU)%nat -> P c = []) /\
    ((r = 0 /\ s' = s) \/
     exists i l,
       (i < NCPU)%nat /\ P i = r :: l /\
       (i = cpu \/
        (P cpu = [] /\ forall j, (j < i)%nat -> j <> cpu -> P j = [])) /\
       pools_repr NCPU s' (set_pool i l P) /\
       page_filled (memory s') r KALLOC_JUNK).
Proof.
  intros HP Hfree Hcpu.
  unfold kalloc. unfold bind at 1. rewrite kmem_acquire_free by apply Hfree.
  unfold bind at 1, get_freelist; cbn [freelist_CPU].
  destruct (Z.eqb_spec (nth cpu (freelist_CPU s) 0) 0) as [E0|NZ]; cbn [negb].
  - (* the local pool is empty *)
    unfold bind at 1, ret. unfold bind at 1, release. cbn [locks freelist_CPU memory].
    rewrite relock by apply Hfree. rewrite kmem_eta.
    assert (Hloc : P cpu = []) by (apply (pool_head NCPU s P cpu HP Hcpu); exact E0).
    destruct (first_nonzero (fun j => nth j (freelist_CPU s) 0) cpu NCPU 0%nat)
      as [Hnone|(k & Hk & Hkc & Hnz & Hbefore)].
    + unfold bind at 1. rewrite kalloc_steal_none by auto.
      exists 0, s. cbn. split; [reflexivity|]. split; [reflexivity|].
      split; [|left; auto].
      split; [|reflexivity]. intros _ c Hc.
      destruct (Nat.eq_dec c cpu) as [->|Hne]; auto.
      apply (pool_head NCPU s P c HP Hc). apply Hnone; auto. lia.
    + unfold bind at 1. rewrite (kalloc_steal_some cpu cpu NCPU k) by auto.
      destruct (pool_head_cons NCPU s P k HP) as [l Hl]; auto; try lia.
      set (r := nth k (freelist_CPU s) 0) in *.
      destruct (Z.eqb_spec r 0) as [|_]; [contradiction|]. cbn [negb].
      unfold bind, do_memset, ret. cbn [locks freelist_CPU memory].
      eexists _, _. split; [reflexivity|]. cbn [locks]. split; [reflexivity|].
      split.
      { split; [contradiction|]. intros Hall. rewrite Hall in Hl by lia. discriminate. }
      right. exists k, l. split; [lia|]. split; [exact Hl|]. split.
      { right. split; auto. intros j Hj Hjc.
        apply (pool_head NCPU s P j HP); [lia|]. apply Hbefore; auto. lia. }
      cbn [locks freelist_CPU memory]. apply take_page; auto. lia.
  - (* the local pool has a page *)
    destruct (pool_head_cons NCPU s P cpu HP Hcpu NZ) as [l Hl].
    set (r := nth cpu (freelist_CPU s) 0) in *.
    unfold bind, get_next, set_freelist, release, do_memset, ret.
    cbn [locks freelist_CPU memory].
    destruct (Z.eqb_spec r 0) as [|_]; [contradiction|]. cbn [negb].
    rewrite relock by apply Hfree.
    eexists _, _. split; [reflexivity|]. cbn [locks]. split; [reflexivity|].
    split.
    { split; [contradiction|]. intros Hall. rewrite Hall in Hl by lia. discriminate. }
    right. exists cpu, l. split; [lia|]. split; [exact Hl|]. split; [now left|].
    cbn [locks freelist_CPU memory]. apply take_page; auto.
Qed.

Lemma pool_head_in NCPU s P c :
  pools_repr NCPU s P -> (c < NCPU)%nat ->
  nth c (freelist_CPU s) 0 = 0 \/ In (nth c (freelist_CPU s) 0) (P c).
Proof.
  intros H Hc. generalize (pr_list _ _ _ H c Hc).
  destruct (P c) as [|p l]; cbn [freelist_repr].
  - now left.
  - intros (-> & _). right. now left.
Qed.

(** Filling the page at [pa] and linking it in front of pool [cpu]. *)
Lemma give_page NCPU s P cpu pa :
  pools_repr NCPU s P -> (cpu < NCPU)%nat ->
  page_aligned pa -> 0 < pa < ADDR_MAX ->
  (forall c, ~ In pa (P c)) ->
  pools_repr NCPU
    (mkstate (locks s) (upd cpu pa (freelist_CPU s))
       (store_le 8 pa (nth cpu (freelist_CPU s) 0)
          (memset pa KFREE_JUNK PGSIZE (memory s))))
    (set_pool cpu (pa :: P cpu) P).
Proof.
  intros HP Hcpu Hal Hpa Hnew.
  pose proof (pool_head_in NCPU s P cpu HP Hcpu) as Hhead.
  destruct HP as [Hlk Hhd Hlist Hpg Hnd Hdj].
  set (m' := store_le 8 pa _ _).
  assert (Hout : forall a, a < pa \/ pa + PGSIZE <= a -> m' a = memory s a).
  { intros a Ha. unfold m'. rewrite store_le_frame by (unfold PGSIZE in *; lia).
    now apply memset_outside. }
  assert (Hkeep : forall c l r, (forall p, In p l -> In p (P c)) ->
            freelist_repr (memory s) r l -> freelist_repr m' r l).
  { intros c l r Hsub. apply freelist_repr_ext. intros p Hp.
    apply (load_other_page _ _ pa); auto.
    - apply (Hpg c p); auto.
    - intros ->. apply (Hnew c); auto. }
  constructor; cbn [locks freelist_CPU memory].
  - exact Hlk.
  - now rewrite length_upd.
  - intros c Hc. unfold set_pool. destruct (Nat.eqb_spec c cpu) as [->|Hne].
    + rewrite nth_upd_eq by lia. cbn [freelist_repr].
      split; [reflexivity|]. split; [lia|].
      unfold m'. rewrite load_store_ptr.
      * apply (Hkeep cpu); auto.
      * destruct Hhead as [->|Hin]; [unfold ADDR_MAX; lia|].
        destruct (Hpg cpu _ Hin); lia.
    + rewrite nth_upd_ne by auto. apply (Hkeep c); auto.
  - intros c p Hp. apply set_pool_in in Hp as [(-> & [<-|Hp])|(_ & Hp)]; eauto.
  - intros c. unfold set_pool. destruct (Nat.eqb_spec c cpu) as [->|_]; auto.
    constructor; auto.
  - intros c c' p Hp Hp'.
    apply set_pool_in in Hp as [(-> & [<-|Hp])|(Hc & Hp)];
      apply set_pool_in in Hp' as [(-> & [E|Hp'])|(Hc' & Hp')];
      subst; eauto; try (exfalso; eapply Hnew; eassumption).
Qed.

Section Kfree.
Variables (NCPU : nat) (kernel_end PHYSTOP : Z).


End Kfree.

(** *** The two theorems at work on an eight-CPU machine *)


Lemma three_pages_repr : pools_repr 8 three_pages three_pools.
Proof.
  constructor.
  - reflexivity.
  - reflexivity.
  - intros c Hc.
    destruct c as [|[|[|[|[|[|[|[|c]]]]]]]]; try lia; cbn; repeat split; discriminate.
  - intros c p Hp. apply set_pool_in in Hp as [(-> & Hp)|(_ & [])].
    cbn in Hp. unfold page_aligned, ADDR_MAX.
    destruct Hp as [<-|[<-|[<-|[]]]]; split; try reflexivity; lia.
  - intros c. unfold three_pools, set_pool. destruct (Nat.eqb c 1); [|constructor].
    repeat constructor; cbn; intuition discriminate.
  - intros c c' p Hp Hp'.
    apply set_pool_in in Hp as [(-> & _)|(_ & [])].
    apply set_pool_in in Hp' as [(-> & _)|(_ & [])]. reflexivity.
Qed.

Lemma kalloc_takes_one_page_witness :
  exists r s',
    kalloc 8 0 three_pages = Done r s' /\
    locks s' = locks three_pages /\
    (r = 0 <-> forall c, (c < 8)%nat -> three_pools c = []) /\
    ((r = 0 /\ s' = three_pages) \/
     exists i l,
       (i < 8)%nat /\ three_pools i = r :: l /\
       (i = 0%nat \/
        (three_pools 0 = [] /\ forall j, (j < i)%nat -> j <> 0%nat -> three_pools j = [])) /\
       pools_repr 8 s' (set_pool i l three_pools) /\
       page_filled (memory s') r KALLOC_JUNK).
Proof.
  apply (kalloc_takes_one_page 8 0 three_pages three_pools).
  - exact three_pages_repr.
  - intros i. do 9 (destruct i as [|i]; [reflexivity|]). destruct i; reflexivity.
  - lia.
Defined.

(** C4, as stated, fails: a [kalloc] can return the null pointer while a
    page is free.  CPU 2 calls [kalloc] when the only free page is in the
    list of CPU 1.  It finds its own list and that of CPU 0 empty.  Before
    it gets to the list of CPU 1, CPU 0 frees a page and CPU 1 allocates the
    page of its own list.  CPU 2 then finds the lists of CPUs 1 to 7 empty
    and returns the null pointer, although at every moment of the call a
    page was in the list of CPU 1 or in that of CPU 0.  Left alone, the
    same call returns the page of CPU 1. *)
Lemma kalloc_fails_with_free_page :
  exists s0 s1 s2,
    kfree kend_ex PHYSTOP_ex 1 2281697280 boot_ex = Done tt s0 /\
    nth 1 (freelist_CPU s0) 0 = 2281697280 /\
    kalloc_own 2 s0 = Done 0 s0 /\
    kalloc_visit 2 0 s0 = Done 0 s0 /\
    kfree kend_ex PHYSTOP_ex 0 2281693184 s0 = Done tt s1 /\
    nth 0 (freelist_CPU s1) 0 = 2281693184 /\
    nth 1 (freelist_CPU s1) 0 = 2281697280 /\
    kalloc 8 1 s1 = Done 2281697280 s2 /\
    nth 0 (freelist_CPU s2) 0 = 2281693184 /\
    kalloc_rest 8 2 1 s2 = Done 0 s2 /\
    kalloc 8 2 s0 = Done 2281697280 (taken 1 2281697280 s0).
Proof.
  exists (freed 1 2281697280 boot_ex),
         (freed 0 2281693184 (freed 1 2281697280 boot_ex)),
         (taken 1 2281697280 (freed 0 2281693184 (freed 1 2281697280 boot_ex))).
  split; [reflexivity|].
  split; [reflexivity|].
  split; [reflexivity|].
  split; [reflexivity|].
  split; [reflexivity|].
  split; [reflexivity|].
  split; [reflexivity|].
  split; [reflexivity|].
  split; [reflexivity|].
  split; [reflexivity|].
  reflexivity.
Qed.

(** ** Runs of kfree and kalloc *)

Lemma pools_repr_ext NCPU s P P' :
  pools_repr NCPU s P -> (forall c, P' c = P c) -> pools_repr NCPU s P'.
Proof.
  intros [Hlk Hhd Hlist Hpg Hnd Hdj] E. constructor; auto.
  - intros c Hc. rewrite E. auto.
  - intros c p. rewrite E. apply Hpg.
  - intros c. rewrite E. apply Hnd.
  - intros c c' p. rewrite !E. apply Hdj.
Qed.

Lemma in_pages_from q n : forall p,
  In q (pages_from p n) <-> exists k, (k < n)%nat /\ q = p + Z.of_nat k * PGSIZE.
Proof.
  induction n as [|n IH]; intros p; cbn [pages_from In].
  - split; [intros [] | intros (k & Hk & _); lia].
  - rewrite IH. split.
    + intros [<-|(k & Hk & ->)].
      * exists 0%nat. split; [lia|]. cbn. lia.
      * exists (S k). split; [lia|]. unfold PGSIZE. lia.
    + intros (k & Hk & ->). destruct k as [|k].
      * left. cbn. lia.
      * right. exists k. split; [lia|]. unfold PGSIZE. lia.
Qed.

Lemma pages_from_aligned p n q :
  page_aligned p -> In q (pages_from p n) -> page_aligned q.
Proof.
  unfold page_aligned. intros Hp Hq. apply in_pages_from in Hq as (k & _ & ->).
  rewrite Z.mod_add by (unfold PGSIZE; lia). exact Hp.
Qed.

Lemma pages_from_nodup n : forall p, NoDup (pages_from p n).
Proof.
  induction n as [|n IH]; intros p; cbn [pages_from]; constructor; auto.
  intros H. apply in_pages_from in H as (k & _ & E). unfold PGSIZE in E. lia.
Qed.

Lemma PGROUNDUP_spec x :
  page_aligned (PGROUNDUP x) /\ x <= PGROUNDUP x < x + PGSIZE.
Proof.
  unfold PGROUNDUP, page_aligned, PGSIZE. split.
  - apply Z.mod_mul. lia.
  - pose proof (Z.div_mod (x + 4096 - 1) 4096 ltac:(lia)).
    pose proof (Z.mod_pos_bound (x + 4096 - 1) 4096 ltac:(lia)). lia.
Qed.

Lemma page_count_spec p pa_end :
  ((0 < page_count p pa_end)%nat ->
   p + Z.of_nat (page_count p pa_end) * PGSIZE <= pa_end) /\
  pa_end < p + Z.of_nat (S (page_count p pa_end)) * PGSIZE.
Proof.
  unfold page_count, PGSIZE.
  pose proof (Z.div_mod (pa_end - p) 4096 ltac:(lia)).
  pose proof (Z.mod_pos_bound (pa_end - p) 4096 ltac:(lia)).
  destruct (Z.le_gt_cases 0 ((pa_end - p) / 4096)) as [Hq|Hq].
  - rewrite Nat2Z.inj_succ, Z2Nat.id by lia. lia.
  - replace (Z.to_nat ((pa_end - p) / 4096)) with 0%nat by lia. split; lia.
Qed.

Lemma freed_pools NCPU s P cpu pa :
  pools_repr NCPU s P -> (cpu < NCPU)%nat ->
  page_aligned pa -> 0 < pa < ADDR_MAX ->
  (forall c, ~ In pa (P c)) ->
  pools_repr NCPU (freed cpu pa s) (set_pool cpu (pa :: P cpu) P).
Proof. apply give_page. Qed.

Lemma freed_outside cpu pa s a :
  a < pa \/ pa + PGSIZE <= a -> memory (freed cpu pa s) a = memory s a.
Proof.
  intros Ha. cbn [freed memory]. rewrite store_le_frame by (unfold PGSIZE in *; lia).
  now apply memset_outside.
Qed.

Lemma in_range_dec kernel_end PHYSTOP q :
  {kernel_end <= q < PHYSTOP} + {~ (kernel_end <= q < PHYSTOP)}.
Proof.
  destruct (Z_le_dec kernel_end q), (Z_lt_dec q PHYSTOP); (left; lia) || (right; lia).
Qed.

Lemma all_or_one_outside kernel_end PHYSTOP (l : list Z) :
  (forall q, In q l -> kernel_end <= q < PHYSTOP) \/
  (exists q, In q l /\ ~ (kernel_end <= q < PHYSTOP)).
Proof.
  induction l as [|x l [IH|(q & Hq & Hb)]].
  - left. intros q [].
  - destruct (in_range_dec kernel_end PHYSTOP x) as [Hx|Hx].
    + left. intros q [<-|Hq]; auto.
    + right. exists x. split; [now left|exact Hx].
  - right. exists q. split; [now right|exact Hb].
Qed.

Section KfreeRuns.
Variables (NCPU : nat) (kernel_end PHYSTOP : Z).

Lemma kfree_run cpu pa s :
  page_aligned pa -> kernel_end <= pa < PHYSTOP ->
  nth cpu (locks s) None = None ->
  kfree kernel_end PHYSTOP cpu pa s = Done tt (freed cpu pa s).
Proof.
  intros Hal Hr Hfree. unfold kfree. unfold page_aligned in Hal. rewrite Hal.
  destruct (Z.ltb_spec pa kernel_end); [lia|].
  destruct (Z.leb_spec PHYSTOP pa); [lia|]. cbn [Z.eqb negb orb].
  unfold bind at 1, do_memset. unfold bind at 1.
  rewrite kmem_acquire_free by (cbn [locks]; exact Hfree).
  unfold bind, get_freelist, set_next, set_freelist, release.
  cbn [locks freelist_CPU memory]. now rewrite relock by exact Hfree.
Qed.

Lemma kfree_panics cpu pa s :
  ~ (page_aligned pa /\ kernel_end <= pa < PHYSTOP) ->
  kfree kernel_end PHYSTOP cpu pa s = Panic "kfree".
Proof.
  intros H. unfold kfree, page_aligned in *.
  destruct (Z.eqb_spec (pa mod PGSIZE) 0); cbn [negb orb]; [|reflexivity].
  destruct (Z.ltb_spec pa kernel_end); cbn [orb]; [reflexivity|].
  destruct (Z.leb_spec PHYSTOP pa); [reflexivity|]. exfalso. apply H. split; [assumption|lia].
Qed.

Lemma page_aligned_next p : page_aligned p -> page_aligned (p + PGSIZE).
Proof.
  unfold page_aligned, PGSIZE. intros H.
  replace (p + 4096) with (p + 1 * 4096) by lia. now rewrite Z.mod_add by lia.
Qed.

(** The loop of [freerange] frees its pages one after the other ... *)
Lemma freerange_loop_run cpu pa_end n : forall p s,
  nth cpu (locks s) None = None -> page_aligned p ->
  ((0 < n)%nat -> p + Z.of_nat n * PGSIZE <= pa_end) ->
  (forall q, In q (pages_from p n) -> kernel_end <= q < PHYSTOP) ->
  freerange_loop kernel_end PHYSTOP cpu n p pa_end s =
  Done tt (fold_left (fun s q => freed cpu q s) (pages_from p n) s).
Proof.
  induction n as [|n IH]; intros p s Hfree Hal Hfit Hin; [reflexivity|].
  cbn [freerange_loop pages_from fold_left].
  destruct (Z.leb_spec (p + PGSIZE) pa_end) as [_|Hno]; [|unfold PGSIZE in *; lia].
  unfold bind. rewrite kfree_run; auto.
  - apply IH.
    + exact Hfree.
    + now apply page_aligned_next.
    + intros Hn. specialize (Hfit ltac:(lia)). unfold PGSIZE in *. lia.
    + intros q Hq. apply Hin. now right.
  - apply Hin. now left.
Qed.

(** ... and stops in the [panic] of [kfree] at the first one that lies
    outside the managed range. *)
Lemma freerange_loop_panics cpu pa_end n : forall p s,
  nth cpu (locks s) None = None -> page_aligned p ->
  ((0 < n)%nat -> p + Z.of_nat n * PGSIZE <= pa_end) ->
  (exists q, In q (pages_from p n) /\ ~ (kernel_end <= q < PHYSTOP)) ->
  freerange_loop kernel_end PHYSTOP cpu n p pa_end s = Panic "kfree".
Proof.
  induction n as [|n IH]; intros p s Hfree Hal Hfit (q & Hq & Hbad); [destruct Hq|].
  cbn [freerange_loop].
  destruct (Z.leb_spec (p + PGSIZE) pa_end) as [_|Hno]; [|unfold PGSIZE in *; lia].
  unfold bind. destruct (in_range_dec kernel_end PHYSTOP p) as [Hp|Hp].
  - rewrite kfree_run; auto. apply IH.
    + exact Hfree.
    + now apply page_aligned_next.
    + intros Hn. specialize (Hfit ltac:(lia)). unfold PGSIZE in *. lia.
    + exists q. split; [|exact Hbad]. destruct Hq as [<-|Hq]; [contradiction|exact Hq].
  - rewrite kfree_panics; [reflexivity|]. now intros [_ H].
Qed.

Lemma fold_freed_locks cpu l : forall s,
  locks (fold_left (fun s q => freed cpu q s) l s) = locks s.
Proof. induction l as [|x l IH]; intros s; cbn [fold_left]; [reflexivity|]. now rewrite IH. Qed.

Lemma fold_freed_pools cpu n : forall p s P,
  pools_repr NCPU s P -> (cpu < NCPU)%nat ->
  page_aligned p -> 0 < p -> ((0 < n)%nat -> p + Z.of_nat n * PGSIZE <= ADDR_MAX) ->
  (forall c q, In q (P c) -> ~ In q (pages_from p n)) ->
  let s' := fold_left (fun s q => freed cpu q s) (pages_from p n) s in
  pools_repr NCPU s' (set_pool cpu (rev (pages_from p n) ++ P cpu) P) /\
  (forall a, a < p \/ p + Z.of_nat n * PGSIZE <= a -> memory s' a = memory s a).
Proof.
  induction n as [|n IH]; intros p s P HP Hcpu Hal Hpos Hmax Hnew; cbn zeta.
  - cbn [pages_from fold_left rev app]. split; [|reflexivity].
    apply (pools_repr_ext _ _ P); auto.
    intros c. unfold set_pool. now destruct (Nat.eqb_spec c cpu) as [->|].
  - cbn [pages_from fold_left rev].
    assert (HP1 : pools_repr NCPU (freed cpu p s) (set_pool cpu (p :: P cpu) P)).
    { apply freed_pools; auto.
      - specialize (Hmax ltac:(lia)). unfold PGSIZE in *. lia.
      - intros c Hin. apply (Hnew c p Hin). now left. }
    destruct (IH (p + PGSIZE) (freed cpu p s) (set_pool cpu (p :: P cpu) P))
      as [HP' Hframe]; auto.
    + now apply page_aligned_next.
    + unfold PGSIZE. lia.
    + intros Hn. specialize (Hmax ltac:(lia)). unfold PGSIZE in *. lia.
    + intros c q Hq Hin.
      apply set_pool_in in Hq as [(-> & [<-|Hq])|(_ & Hq)].
      * apply in_pages_from in Hin as (k & _ & E). unfold PGSIZE in E. lia.
      * apply (Hnew cpu q Hq). now right.
      * apply (Hnew c q Hq). now right.
    + split.
      * apply (pools_repr_ext _ _ _ _ HP'). intros c. unfold set_pool.
        destruct (Nat.eqb_spec c cpu) as [->|]; [|reflexivity].
        rewrite Nat.eqb_refl. now rewrite <- app_assoc.
      * intros a Ha. rewrite Hframe by (unfold PGSIZE in *; lia).
        apply freed_outside. unfold PGSIZE in *. lia.
Qed.

(** X1.  [freerange(pa_start, pa_end)] gives the calling CPU every whole
    page of the range, from the first page boundary at or after
    [pa_start]: when these pages lie in [[end, PHYSTOP)] and are not
    free already, it returns with the pages in front of that CPU's free
    list, the last one freed first, and has written to no byte outside
    them.  No further whole page fits below [pa_end].  (The addresses are
    such that the pointer arithmetic of the loop does not wrap.) *)
Theorem freerange_frees_whole_pages cpu pa_start pa_end s P :
  let p0 := PGROUNDUP pa_start in
  let n := page_count p0 pa_end in
  pools_repr NCPU s P -> (cpu < NCPU)%nat -> nth cpu (locks s) None = None ->
  0 < pa_start -> pa_start + PGSIZE <= ADDR_MAX ->
  kernel_end <= pa_start -> pa_end <= PHYSTOP -> PHYSTOP + PGSIZE <= ADDR_MAX ->
  (forall c q, In q (P c) -> ~ In q (pages_from p0 n)) ->
  exists s',
    freerange kernel_end PHYSTOP cpu pa_start pa_end s = Done tt s' /\
    locks s' = locks s /\
    pools_repr NCPU s' (set_pool cpu (rev (pages_from p0 n) ++ P cpu) P) /\
    (forall a, a < p0 \/ p0 + Z.of_nat n * PGSIZE <= a -> memory s' a = memory s a) /\
    page_aligned p0 /\ pa_start <= p0 < pa_start + PGSIZE /\
    ((0 < n)%nat -> p0 + Z.of_nat n * PGSIZE <= pa_end) /\
    pa_end < p0 + Z.of_nat (S n) * PGSIZE.
Proof.
  intros p0 n HP Hcpu Hfree Hpos _ Hlo Hhi Hmax Hnew.
  assert (Hmax' : PHYSTOP <= ADDR_MAX) by (unfold PGSIZE in Hmax; lia).
  destruct (PGROUNDUP_spec pa_start) as [Hal Hp0]. fold p0 in Hal, Hp0.
  destruct (page_count_spec p0 pa_end) as [Hfit Hstop]. fold n in Hfit, Hstop.
  assert (Hin : forall q, In q (pages_from p0 n) -> kernel_end <= q < PHYSTOP).
  { intros q Hq. apply in_pages_from in Hq as (k & Hk & ->).
    specialize (Hfit ltac:(lia)). unfold PGSIZE in *. nia. }
  assert (Htail : page_aligned p0 /\ pa_start <= p0 < pa_start + PGSIZE /\
            ((0 < n)%nat -> p0 + Z.of_nat n * PGSIZE <= pa_end) /\
            pa_end < p0 + Z.of_nat (S n) * PGSIZE) by auto.
  destruct (fold_freed_pools cpu n p0 s P) as [HP' Hframe]; auto; try lia.
  eexists. unfold freerange. cbv zeta. fold p0. fold (page_count p0 pa_end). fold n.
  rewrite freerange_loop_run; auto.
  split; [reflexivity|]. split; [apply fold_freed_locks|].
  split; [exact HP'|]. split; [exact Hframe|]. exact Htail.
Qed.

(** X2.  [freerange] ends in the [panic] of [kfree] exactly when one of
    the whole pages of its range lies outside [[end, PHYSTOP)].  (The
    addresses are such that the pointer arithmetic of the loop does not
    wrap.) *)
Theorem freerange_panics_iff cpu pa_start pa_end s :
  let p0 := PGROUNDUP pa_start in
  nth cpu (locks s) None = None ->
  0 <= pa_start -> pa_start + PGSIZE <= ADDR_MAX ->
  0 <= pa_end -> pa_end + PGSIZE <= ADDR_MAX ->
  ((exists msg, freerange kernel_end PHYSTOP cpu pa_start pa_end s = Panic msg) <->
   (exists q, In q (pages_from p0 (page_count p0 pa_end)) /\
              ~ (kernel_end <= q < PHYSTOP))).
Proof.
  intros p0 Hfree _ _ _ _.
  destruct (PGROUNDUP_spec pa_start) as [Hal _]. fold p0 in Hal.
  destruct (page_count_spec p0 pa_end) as [Hfit _].
  unfold freerange. cbv zeta. fold p0. fold (page_count p0 pa_end). split.
  - intros [msg E].
    destruct (all_or_one_outside kernel_end PHYSTOP (pages_from p0 (page_count p0 pa_end)))
      as [Hall|Hone]; [|exact Hone].
    rewrite freerange_loop_run in E by auto. discriminate.
  - intros Hone. exists "kfree"%string. now apply freerange_loop_panics.
Qed.

(** [kinit] on the machine as it boots. *)
Lemma kinit_run cpu m :
  let p0 := PGROUNDUP kernel_end in
  let n := page_count p0 PHYSTOP in
  (cpu < NCPU)%nat -> 0 < kernel_end -> PHYSTOP <= ADDR_MAX ->
  exists s',
    kinit NCPU kernel_end PHYSTOP cpu m = Done tt s' /\
    all_free s' /\
    pools_repr NCPU s' (set_pool cpu (rev (pages_from p0 n)) (fun _ => [])).
Proof.
  intros p0 n Hcpu Hpos Hmax.
  destruct (PGROUNDUP_spec kernel_end) as [Hal Hp0]. fold p0 in Hal, Hp0.
  destruct (page_count_spec p0 PHYSTOP) as [Hfit Hstop]. fold n in Hfit, Hstop.
  set (s0 := mkstate (repeat None NCPU) (repeat 0 NCPU) m).
  assert (Hfree0 : all_free s0).
  { intros i. cbn [s0 locks]. apply nth_repeat. }
  assert (HP0 : pools_repr NCPU s0 (fun _ => [])).
  { constructor; cbn [s0 locks freelist_CPU memory].
    - apply repeat_length.
    - apply repeat_length.
    - intros c _. cbn. apply nth_repeat.
    - intros c p [].
    - intros c. constructor.
    - intros c c' p []. }
  assert (Hin : forall q, In q (pages_from p0 n) -> kernel_end <= q < PHYSTOP).
  { intros q Hq. apply in_pages_from in Hq as (k & Hk & ->).
    specialize (Hfit ltac:(lia)). unfold PGSIZE in *. nia. }
  assert (HP' : pools_repr NCPU (fold_left (fun s q => freed cpu q s) (pages_from p0 n) s0)
                  (set_pool cpu (rev (pages_from p0 n)) (fun _ => []))).
  { destruct (fold_freed_pools cpu n p0 s0 (fun _ => [])) as [HP' _]; auto; try lia.
    now rewrite app_nil_r in HP'. }
  eexists. unfold kinit, freerange. cbv zeta. fold p0. fold (page_count p0 PHYSTOP).
  fold n. fold s0.
  rewrite freerange_loop_run; auto.
  split; [reflexivity|]. split; [|exact HP'].
  intros i. rewrite fold_freed_locks. apply Hfree0.
Qed.

(** X3.  [kinit] returns with every lock free and with all the whole pages
    between [end] and [PHYSTOP] on the free list of the CPU that boots,
    the highest page first; the lists of the other CPUs are empty.  (The
    addresses are such that the pointer arithmetic of [freerange] does not
    wrap.) *)
Theorem kinit_fills_boot_pool cpu m :
  let p0 := PGROUNDUP kernel_end in
  let n := page_count p0 PHYSTOP in
  (cpu < NCPU)%nat -> 0 < kernel_end -> kernel_end + PGSIZE <= ADDR_MAX ->
  PHYSTOP + PGSIZE <= ADDR_MAX ->
  exists s',
    kinit NCPU kernel_end PHYSTOP cpu m = Done tt s' /\
    all_free s' /\
    pools_repr NCPU s' (set_pool cpu (rev (pages_from p0 n)) (fun _ => [])) /\
    (forall q, In q (pages_from p0 n) <->
       page_aligned q /\ kernel_end <= q /\ q + PGSIZE <= PHYSTOP).
Proof.
  intros p0 n Hcpu Hpos _ Hmax.
  assert (Hmax' : PHYSTOP <= ADDR_MAX) by (unfold PGSIZE in Hmax; lia).
  destruct (PGROUNDUP_spec kernel_end) as [Hal Hp0]. fold p0 in Hal, Hp0.
  destruct (page_count_spec p0 PHYSTOP) as [Hfit Hstop]. fold n in Hfit, Hstop.
  destruct (kinit_run cpu m Hcpu Hpos Hmax') as (s' & E & Hfree & HP).
  exists s'. split; [exact E|]. split; [exact Hfree|]. split; [exact HP|].
  intros q. split.
  - intros Hq. split; [now apply (pages_from_aligned p0 n)|].
    apply in_pages_from in Hq as (k & Hk & ->).
    specialize (Hfit ltac:(lia)). unfold PGSIZE in *. nia.
  - intros (Hq & Hlo & Hhi). apply in_pages_from.
    unfold page_aligned, PGSIZE in *.
    apply Z.mod_divide in Hq; [|lia]. apply Z.mod_divide in Hal; [|lia].
    destruct Hq as [x ->], Hal as [y Hy].
    assert (y <= x) by lia.
    exists (Z.to_nat (x - y)). split; [|lia].
    rewrite Nat2Z.inj_succ in Hstop. lia.
Qed.

End KfreeRuns.

(** ** One call of kalloc *)

Section KallocRun.
Variable NCPU : nat.

Lemma kalloc_local cpu s :
  nth cpu (locks s) None = None ->
  nth cpu (freelist_CPU s) 0 <> 0 ->
  kalloc NCPU cpu s =
  Done (nth cpu (freelist_CPU s) 0) (taken cpu (nth cpu (freelist_CPU s) 0) s).
Proof.
  intros Hfree NZ. unfold kalloc. unfold bind at 1. rewrite kmem_acquire_free by exact Hfree.
  unfold bind at 1, get_freelist; cbn [freelist_CPU].
  set (r := nth cpu (freelist_CPU s) 0) in *.
  destruct (Z.eqb_spec r 0) as [|_]; [contradiction|]. cbn [negb].
  unfold bind, get_next, set_freelist, release, do_memset, ret, taken.
  cbn [locks freelist_CPU memory].
  rewrite relock by exact Hfree.
  destruct (Z.eqb_spec r 0) as [|_]; [contradiction|]. reflexivity.
Qed.

Lemma kalloc_remote cpu s :
  all_free s -> nth cpu (freelist_CPU s) 0 = 0 ->
  kalloc NCPU cpu s =
  (r <- kalloc_steal cpu cpu NCPU 0 ;;
   (if negb (r =? 0) then do_memset r KALLOC_JUNK PGSIZE else ret tt) ;;
   ret r) s.
Proof.
  intros Hfree E0. unfold kalloc. unfold bind at 1. rewrite kmem_acquire_free by apply Hfree.
  unfold bind at 1, get_freelist; cbn [freelist_CPU]. rewrite E0. cbn [Z.eqb negb].
  unfold bind at 1, ret. unfold bind at 1, release. cbn [locks freelist_CPU memory].
  rewrite relock by apply Hfree. now rewrite kmem_eta.
Qed.

(** What a call of [kalloc] that gets its locks does: it takes the head
    of the first list that is not empty, its own list first, or finds all
    lists empty. *)
Lemma kalloc_cases cpu s :
  all_free s ->
  (exists i,
     (i = cpu \/ (nth cpu (freelist_CPU s) 0 = 0 /\ (i < NCPU)%nat /\
                  forall j, (j < i)%nat -> j <> cpu -> nth j (freelist_CPU s) 0 = 0)) /\
     nth i (freelist_CPU s) 0 <> 0 /\
     kalloc NCPU cpu s =
     Done (nth i (freelist_CPU s) 0) (taken i (nth i (freelist_CPU s) 0) s)) \/
  (nth cpu (freelist_CPU s) 0 = 0 /\
   (forall j, (j < NCPU)%nat -> nth j (freelist_CPU s) 0 = 0) /\
   kalloc NCPU cpu s = Done 0 s).
Proof.
  intros Hfree.
  destruct (Z.eq_dec (nth cpu (freelist_CPU s) 0) 0) as [E0|NZ].
  - rewrite kalloc_remote by auto.
    destruct (first_nonzero (fun j => nth j (freelist_CPU s) 0) cpu NCPU 0%nat)
      as [Hnone|(k & Hk & Hkc & Hnz & Hbefore)].
    + right. split; [exact E0|]. split.
      * intros j Hj. destruct (Nat.eq_dec j cpu) as [->|Hne]; auto. apply Hnone; auto. lia.
      * unfold bind at 1. rewrite kalloc_steal_none by auto. reflexivity.
    + left. exists k. split.
      * right. split; [exact E0|]. split; [lia|]. intros j Hj. apply Hbefore. lia.
      * split; [exact Hnz|]. unfold bind at 1.
        rewrite (kalloc_steal_some cpu cpu NCPU k) by auto.
        destruct (Z.eqb_spec (nth k (freelist_CPU s) 0) 0) as [|_]; [contradiction|].
        reflexivity.
  - left. exists cpu. split; [now left|]. split; [exact NZ|].
    apply kalloc_local; auto.
Qed.

Lemma taken_pools s P i l :
  pools_repr NCPU s P -> (i < NCPU)%nat ->
  P i = nth i (freelist_CPU s) 0 :: l ->
  pools_repr NCPU (taken i (nth i (freelist_CPU s) 0) s) (set_pool i l P).
Proof. intros HP Hi E. now apply take_page. Qed.

End KallocRun.

Lemma load_junk m r :
  load_le 8 (memset r KALLOC_JUNK PGSIZE m) r = junk_pointer.
Proof.
  cbn [load_le]. rewrite !memset_inside by (unfold PGSIZE; lia). reflexivity.
Qed.

Lemma nth_freed_head cpu pa s :
  (cpu < length (freelist_CPU s))%nat -> nth cpu (freelist_CPU (freed cpu pa s)) 0 = pa.
Proof. intros H. cbn [freed freelist_CPU]. now apply nth_upd_eq. Qed.

Lemma kalloc_steal_mem cpu cur n : forall i s,
  match kalloc_steal cpu cur n i s with
  | Done _ s' => memory s' = memory s
  | Panic _ => False
  | Spin _ s' => memory s' = memory s
  end.
Proof.
  induction n as [|n IH]; intros i s; [reflexivity|].
  cbn [kalloc_steal]. destruct (Nat.eqb i cur); [apply IH|].
  unfold bind at 1, acquire. destruct (nth i (locks s) None); [reflexivity|].
  unfold bind at 1, get_freelist. cbn [freelist_CPU].
  destruct (nth i (freelist_CPU s) 0 =? 0); cbn [negb].
  - unfold bind at 1, release. cbn [locks freelist_CPU memory].
    match goal with |- match kalloc_steal _ _ _ _ ?s0 with _ => _ end =>
      specialize (IH (S i) s0); destruct (kalloc_steal cpu cur n (S i) s0); auto
    end.
  - reflexivity.
Qed.

Section RoundTrip.
Variables (NCPU : nat) (kernel_end PHYSTOP : Z).

Lemma head_is_pointer s P c :
  pools_repr NCPU s P -> (c < NCPU)%nat -> 0 <= nth c (freelist_CPU s) 0 < ADDR_MAX.
Proof.
  intros HP Hc. destruct (pool_head_in NCPU s P c HP Hc) as [->|Hin].
  - unfold ADDR_MAX. lia.
  - destruct (pr_pages _ _ _ HP c _ Hin). lia.
Qed.

(** X4.  A page given to [kfree] is the page the next [kalloc] on the same
    CPU returns: the free lists are then as they were before the two
    calls, the page is filled with the junk of [kalloc], and no byte
    outside the page has changed. *)
Theorem kfree_then_kalloc cpu pa s P :
  pools_repr NCPU s P -> (cpu < NCPU)%nat -> nth cpu (locks s) None = None ->
  page_aligned pa -> kernel_end <= pa < PHYSTOP -> 0 < pa < ADDR_MAX ->
  (forall c, ~ In pa (P c)) ->
  exists s',
    (kfree kernel_end PHYSTOP cpu pa ;; kalloc NCPU cpu) s = Done pa s' /\
    locks s' = locks s /\ freelist_CPU s' = freelist_CPU s /\
    pools_repr NCPU s' P /\
    page_filled (memory s') pa KALLOC_JUNK /\
    (forall a, a < pa \/ pa + PGSIZE <= a -> memory s' a = memory s a).
Proof.
  intros HP Hcpu Hfree Hal Hr Hpa Hnew.
  assert (Hlen : (cpu < length (freelist_CPU s))%nat) by (now rewrite (pr_heads _ _ _ HP)).
  pose proof (nth_freed_head cpu pa s Hlen) as Hhead.
  pose proof (freed_pools NCPU s P cpu pa HP Hcpu Hal Hpa Hnew) as HP1.
  pose proof (taken_pools NCPU (freed cpu pa s) _ cpu (P cpu) HP1 Hcpu) as HP2.
  rewrite Hhead in HP2.
  exists (taken cpu pa (freed cpu pa s)).
  split.
  { unfold bind. rewrite (kfree_run kernel_end PHYSTOP) by auto.
    rewrite kalloc_local; rewrite ?Hhead; auto. lia. }
  split; [reflexivity|]. split.
  { cbn [taken freed freelist_CPU memory].
    rewrite load_store_ptr by (now apply (head_is_pointer s P)).
    rewrite upd_upd. apply upd_same. }
  split.
  { apply (pools_repr_ext _ _ (set_pool cpu (P cpu) (set_pool cpu (pa :: P cpu) P))).
    - apply HP2. unfold set_pool. now rewrite Nat.eqb_refl.
    - intros c. unfold set_pool. now destruct (Nat.eqb_spec c cpu) as [->|]. }
  split.
  { intros a Ha. cbn [taken memory]. now rewrite memset_inside. }
  intros a Ha. cbn [taken memory]. rewrite memset_outside by exact Ha.
  now apply freed_outside.
Qed.

(** X7.  [kfree] does not notice a page that is freed twice: the next two
    calls of [kalloc] on that CPU then both return that page, and the free
    list of the CPU is left starting at the junk that the first of them
    wrote into the page, read as a pointer. *)
Theorem kfree_twice_allocates_twice cpu pa s :
  nth cpu (locks s) None = None -> (cpu < length (freelist_CPU s))%nat ->
  page_aligned pa -> kernel_end <= pa < PHYSTOP -> 0 < pa < ADDR_MAX ->
  exists s',
    (kfree kernel_end PHYSTOP cpu pa ;; kfree kernel_end PHYSTOP cpu pa ;;
     r1 <- kalloc NCPU cpu ;; r2 <- kalloc NCPU cpu ;; ret (r1, r2)) s
    = Done (pa, pa) s' /\
    nth cpu (freelist_CPU s') 0 = junk_pointer.
Proof.
  intros Hfree Hlen Hal Hr Hpa.
  set (s1 := freed cpu pa s). set (s2 := freed cpu pa s1).
  assert (H2 : nth cpu (freelist_CPU s2) 0 = pa).
  { apply nth_freed_head. unfold s1. cbn [freed freelist_CPU]. now rewrite length_upd. }
  set (s3 := taken cpu pa s2).
  assert (H3 : nth cpu (freelist_CPU s3) 0 = pa).
  { unfold s3. cbn [taken freelist_CPU].
    rewrite nth_upd_eq by (unfold s2, s1; cbn [freed freelist_CPU]; now rewrite !length_upd).
    unfold s2 at 1. cbn [freed memory].
    replace (nth cpu (freelist_CPU s1) 0) with pa by (symmetry; now apply nth_freed_head).
    apply load_store_ptr. lia. }
  exists (taken cpu pa s3). split.
  - unfold bind at 1. rewrite (kfree_run kernel_end PHYSTOP) by auto. fold s1.
    unfold bind at 1. rewrite (kfree_run kernel_end PHYSTOP) by auto. fold s2.
    unfold bind at 1. rewrite kalloc_local by (rewrite ?H2; auto; lia).
    rewrite H2. fold s3.
    unfold bind at 1. rewrite kalloc_local by (rewrite ?H3; auto; lia).
    rewrite H3. reflexivity.
  - cbn [taken freelist_CPU].
    rewrite nth_upd_eq
      by (unfold s3, s2, s1; cbn [taken freed freelist_CPU]; now rewrite !length_upd).
    unfold s3. cbn [taken memory]. apply load_junk.
Qed.

End RoundTrip.

Lemma kalloc_mem NCPU cpu s :
  match kalloc NCPU cpu s with
  | Done r s' =>
      (r = 0 -> memory s' = memory s) /\
      (r <> 0 -> memory s' = memset r KALLOC_JUNK PGSIZE (memory s))
  | Panic _ => False
  | Spin _ _ => True
  end.
Proof.
  unfold kalloc. unfold bind at 1, acquire.
  destruct (nth cpu (locks s) None); [exact I|].
  unfold bind at 1, get_freelist. cbn [freelist_CPU].
  set (r0 := nth cpu (freelist_CPU s) 0).
  destruct (Z.eqb_spec r0 0) as [E0|NZ]; cbn [negb].
  - unfold bind at 1, ret. unfold bind at 1, release. cbn [locks freelist_CPU memory].
    unfold bind at 1.
    match goal with |- context [kalloc_steal cpu cpu NCPU 0%nat ?s0] =>
      pose proof (kalloc_steal_mem cpu cpu NCPU 0%nat s0) as Hm;
      destruct (kalloc_steal cpu cpu NCPU 0%nat s0) as [r s1|msg|i s1]
    end; [|contradiction|exact I].
    cbn [memory] in Hm.
    destruct (Z.eqb_spec r 0) as [Er|Er]; cbn [negb];
      unfold bind, ret, do_memset; cbn [memory]; rewrite Hm; split; intros; congruence.
  - unfold bind, get_next, set_freelist, release, do_memset, ret.
    cbn [locks freelist_CPU memory].
    destruct (Z.eqb_spec r0 0) as [|_]; [contradiction|]. cbn [negb memory].
    split; intros; congruence.
Qed.

(** X6.  [kalloc] never panics, and the only memory it writes is the page
    it returns, every byte of which it sets to its junk byte: when it
    returns the null pointer, memory is as it was. *)
Theorem kalloc_touches_one_page NCPU cpu s :
  (forall msg, kalloc NCPU cpu s <> Panic msg) /\
  (forall r s', kalloc NCPU cpu s = Done r s' ->
     (r = 0 -> memory s' = memory s) /\
     (r <> 0 -> memory s' = memset r KALLOC_JUNK PGSIZE (memory s))).
Proof.
  pose proof (kalloc_mem NCPU cpu s) as H.
  destruct (kalloc NCPU cpu s) as [r s'|msg|i s'].
  - split; [intros msg E; discriminate E|]. now intros r' s'' [= <- <-].
  - contradiction.
  - split; [intros msg E; discriminate E | intros r s'' E; discriminate E].
Qed.

(** ** Runs of kalloc *)

Section Allocations.
Variable NCPU : nat.

Local Abbreviation nonnull := (fun r : Z => negb (r =? 0)).

Lemma filter_nonnull_zeros n : filter nonnull (repeat 0 n) = [].
Proof. induction n; cbn; auto. Qed.

(** Once every list is empty, every call returns the null pointer. *)
Lemma kallocs_empty cpus : forall s,
  all_free s -> (forall j, (j < NCPU)%nat -> nth j (freelist_CPU s) 0 = 0) ->
  Forall (fun c => (c < NCPU)%nat) cpus ->
  kallocs NCPU cpus s = Done (repeat 0 (length cpus)) s.
Proof.
  induction cpus as [|c cs IH]; intros s Hfree Hempty Hcpus; [reflexivity|].
  inversion Hcpus as [|? ? Hc Hcs]; subst.
  cbn [kallocs length repeat]. unfold bind at 1.
  destruct (kalloc_cases NCPU c s Hfree) as [(i & Hi & Hnz & _)|(_ & _ & ->)].
  - exfalso. apply Hnz. apply Hempty. destruct Hi as [->|(_ & Hi & _)]; assumption.
  - unfold bind. rewrite IH by auto. reflexivity.
Qed.

Lemma not_in_rest s P i r l c :
  pools_repr NCPU s P -> P i = r :: l -> ~ In r (set_pool i l P c).
Proof.
  intros HP E Hin. apply set_pool_in in Hin as [(-> & Hin)|(Hne & Hin)].
  - pose proof (pr_nodup _ _ _ HP i) as Hnd. rewrite E in Hnd.
    apply NoDup_cons_iff in Hnd. tauto.
  - apply Hne. apply (pr_disjoint _ _ _ HP c i r Hin). rewrite E. now left.
Qed.

(** X5.  However many times [kalloc] is called, and on whichever CPUs, it
    never hands out a page twice: the pages returned are distinct pages of
    the free lists, none of them is on a list afterwards and no page has
    joined a list; and once a call has returned the null pointer, so do
    all the calls after it. *)
Theorem kallocs_never_repeat cpus : forall s P,
  pools_repr NCPU s P -> all_free s ->
  Forall (fun c => (c < NCPU)%nat) cpus ->
  exists rs s' P',
    kallocs NCPU cpus s = Done rs s' /\ length rs = length cpus /\
    pools_repr NCPU s' P' /\ all_free s' /\
    NoDup (filter nonnull rs) /\
    (forall r, In r rs -> r <> 0 ->
       (exists c, In r (P c)) /\ forall c, ~ In r (P' c)) /\
    (forall c p, In p (P' c) -> In p (P c)) /\
    (forall rs1 rs2, rs = rs1 ++ 0 :: rs2 -> forall r, In r rs2 -> r = 0).
Proof.
  induction cpus as [|c cs IH]; intros s P HP Hfree Hcpus.
  - exists [], s, P. cbn [kallocs ret length filter].
    split; [reflexivity|]. split; [reflexivity|]. split; [exact HP|].
    split; [exact Hfree|]. split; [constructor|]. split; [intros r []|].
    split; [auto|]. intros [|x rs1] rs2 E; discriminate E.
  - inversion Hcpus as [|? ? Hc Hcs]; subst.
    cbn [kallocs]. unfold bind at 1.
    destruct (kalloc_cases NCPU c s Hfree) as [(i & Hi & Hnz & ->)|(_ & Hempty & ->)].
    + assert (HiN : (i < NCPU)%nat) by (destruct Hi as [->|(_ & Hi & _)]; assumption).
      set (r := nth i (freelist_CPU s) 0) in *.
      destruct (pool_head_cons NCPU s P i HP HiN Hnz) as [l Hl]. fold r in Hl.
      pose proof (taken_pools NCPU s P i l HP HiN Hl) as HP1. fold r in HP1.
      destruct (IH (taken i r s) (set_pool i l P) HP1 Hfree Hcs)
        as (rs & s' & P' & E & Hlen & HP' & Hfree' & Hnd & Hfrom & Hsub & Hzeros).
      exists (r :: rs), s', P'. unfold bind. rewrite E. unfold ret.
      split; [reflexivity|]. split; [cbn [length]; now rewrite Hlen|].
      split; [exact HP'|]. split; [exact Hfree'|].
      assert (Hgone : forall c', ~ In r (P' c')).
      { intros c' Hin. apply (not_in_rest s P i r l c' HP Hl). now apply Hsub. }
      split.
      { cbn [filter]. destruct (Z.eqb_spec r 0) as [|_]; [contradiction|]. cbn [negb].
        constructor; [|exact Hnd]. intros Hin. apply filter_In in Hin as [Hin _].
        destruct (Hfrom r Hin Hnz) as [[c' Hc'] _].
        now apply (not_in_rest s P i r l c' HP Hl). }
      split.
      { intros x [<-|Hx] Hx0.
        - split; [|exact Hgone]. exists i. rewrite Hl. now left.
        - destruct (Hfrom x Hx Hx0) as [[c' Hc'] Hout]. split; [|exact Hout].
          exists c'. apply set_pool_in in Hc' as [(-> & Hin)|(_ & Hin)]; [|exact Hin].
          rewrite Hl. now right. }
      split.
      { intros c' p Hp. apply Hsub in Hp.
        apply set_pool_in in Hp as [(-> & Hin)|(_ & Hin)]; [|exact Hin].
        rewrite Hl. now right. }
      intros [|x rs1] rs2 Ers; cbn [app] in Ers.
      * injection Ers as E0 _. contradiction.
      * injection Ers as _ Ers. now apply (Hzeros rs1 rs2).
    + unfold bind. rewrite kallocs_empty by auto. unfold ret.
      exists (0 :: repeat 0 (length cs)), s, P.
      split; [reflexivity|]. split; [cbn [length]; now rewrite repeat_length|].
      split; [exact HP|]. split; [exact Hfree|].
      assert (Hall : forall x, In x (0 :: repeat 0 (length cs)) -> x = 0).
      { intros x [<-|Hx]; [reflexivity|]. now apply repeat_spec in Hx. }
      split.
      { cbn [filter Z.eqb negb]. rewrite filter_nonnull_zeros. constructor. }
      split; [intros x Hx Hx0; exfalso; auto|].
      split; [auto|].
      intros rs1 rs2 Ers x Hx. apply Hall. rewrite Ers. apply in_or_app. right. now right.
Qed.

End Allocations.

Lemma pages_from_snoc n : forall p,
  pages_from p (S n) = pages_from p n ++ [p + Z.of_nat n * PGSIZE].
Proof.
  induction n as [|n IH]; intros p.
  - cbn. f_equal. lia.
  - change (pages_from p (S (S n))) with (p :: pages_from (p + PGSIZE) (S n)).
    rewrite IH. cbn [pages_from app]. do 3 f_equal. unfold PGSIZE. lia.
Qed.

Section Boot.
Variables (NCPU : nat) (kernel_end PHYSTOP : Z).

(** X18.  After [kinit] the first [kalloc], on whichever CPU, returns the
    highest whole page below [PHYSTOP]: it takes it from the list of the
    CPU that booted, its own or not, and leaves the other pages there.
    When not even one page fits between [end] and [PHYSTOP] it returns
    the null pointer.  (The addresses are such that the pointer
    arithmetic of [freerange] does not wrap.) *)
Theorem kinit_then_kalloc boot cpu m :
  let p0 := PGROUNDUP kernel_end in
  let n := page_count p0 PHYSTOP in
  (boot < NCPU)%nat -> (cpu < NCPU)%nat ->
  0 < kernel_end -> kernel_end + PGSIZE <= ADDR_MAX -> PHYSTOP + PGSIZE <= ADDR_MAX ->
  exists s0 r s',
    kinit NCPU kernel_end PHYSTOP boot m = Done tt s0 /\
    kalloc NCPU cpu s0 = Done r s' /\
    (n = 0%nat -> r = 0 /\ s' = s0) /\
    ((0 < n)%nat ->
       r = p0 + Z.of_nat (n - 1) * PGSIZE /\
       pools_repr NCPU s'
         (set_pool boot (rev (pages_from p0 (n - 1))) (fun _ => [])) /\
       page_filled (memory s') r KALLOC_JUNK).
Proof.
  intros p0 n Hboot Hcpu Hpos _ Hmax.
  assert (Hmax' : PHYSTOP <= ADDR_MAX) by (unfold PGSIZE in Hmax; lia).
  destruct (kinit_run NCPU kernel_end PHYSTOP boot m Hboot Hpos Hmax')
    as (s0 & E & Hfree & HP).
  fold p0 in HP. fold n in HP.
  set (P0 := set_pool boot (rev (pages_from p0 n)) (fun _ => [])) in *.
  assert (Hothers : forall c, c <> boot -> P0 c = []).
  { intros c Hc. unfold P0, set_pool. now destruct (Nat.eqb_spec c boot). }
  assert (Hmine : P0 boot = rev (pages_from p0 n)).
  { unfold P0, set_pool. now rewrite Nat.eqb_refl. }
  exists s0.
  destruct (kalloc_cases NCPU cpu s0 Hfree) as [(i & Hi & Hnz & Ek)|(_ & Hempty & Ek)].
  - assert (HiN : (i < NCPU)%nat) by (destruct Hi as [->|(_ & Hi & _)]; assumption).
    assert (Hib : i = boot).
    { destruct (Nat.eq_dec i boot) as [|Hne]; [assumption|]. exfalso. apply Hnz.
      apply (pool_head NCPU s0 P0 i HP HiN). now apply Hothers. }
    subst i. set (r := nth boot (freelist_CPU s0) 0) in *.
    destruct (pool_head_cons NCPU s0 P0 boot HP Hboot Hnz) as [l Hl]. fold r in Hl.
    rewrite Hmine in Hl.
    destruct n as [|n']; [discriminate Hl|].
    rewrite pages_from_snoc, rev_app_distr in Hl. cbn [rev app] in Hl.
    injection Hl as Hr Hl'.
    exists r, (taken boot r s0). split; [exact E|]. split; [exact Ek|].
    split; [discriminate|]. intros _.
    replace (S n' - 1)%nat with n' by lia.
    split; [now rewrite <- Hr|]. split.
    + apply (pools_repr_ext _ _ (set_pool boot l P0)).
      * apply taken_pools; auto. rewrite Hmine, pages_from_snoc, rev_app_distr.
        cbn [rev app]. fold r. now rewrite Hr, Hl'.
      * intros c. unfold P0, set_pool. rewrite Hl'. now destruct (Nat.eqb c boot).
    + intros a Ha. cbn [taken memory]. now rewrite memset_inside.
  - exists 0, s0. split; [exact E|]. split; [exact Ek|].
    assert (Hnil : rev (pages_from p0 n) = []).
    { rewrite <- Hmine. apply (pool_head NCPU s0 P0 boot HP Hboot). now apply Hempty. }
    split; [auto|]. intros Hn. exfalso.
    destruct n as [|n']; [lia|].
    rewrite pages_from_snoc, rev_app_distr in Hnil. discriminate Hnil.
Qed.

End Boot.

(** *** The runs at work on the eight-CPU machine *)

Lemma boot_ex_repr : pools_repr 8 boot_ex (fun _ => []).
Proof.
  constructor.
  - reflexivity.
  - reflexivity.
  - intros c Hc. cbn. do 8 (destruct c as [|c]; [reflexivity|]). lia.
  - intros c p [].
  - intros c. constructor.
  - intros c c' p [].
Qed.

Lemma boot_ex_free : all_free boot_ex.
Proof. intros i. do 8 (destruct i as [|i]; [reflexivity|]). destruct i; reflexivity. Qed.

Lemma three_pages_free : all_free three_pages.
Proof. intros i. do 8 (destruct i as [|i]; [reflexivity|]). destruct i; reflexivity. Qed.

Lemma freerange_frees_whole_pages_witness :
  exists s',
    freerange kend_ex PHYSTOP_ex 1 2281688000 PHYSTOP_ex boot_ex = Done tt s' /\
    locks s' = locks boot_ex /\
    pools_repr 8 s'
      (set_pool 1 (rev (pages_from 2281689088 3) ++ []) (fun _ => [])) /\
    (forall a, a < 2281689088 \/ 2281689088 + Z.of_nat 3 * PGSIZE <= a ->
       memory s' a = memory boot_ex a) /\
    page_aligned 2281689088 /\ 2281688000 <= 2281689088 < 2281688000 + PGSIZE /\
    ((0 < 3)%nat -> 2281689088 + Z.of_nat 3 * PGSIZE <= PHYSTOP_ex) /\
    PHYSTOP_ex < 2281689088 + Z.of_nat 4 * PGSIZE.
Proof.
  apply (freerange_frees_whole_pages 8 kend_ex PHYSTOP_ex 1 2281688000 PHYSTOP_ex
           boot_ex (fun _ => [])).
  - exact boot_ex_repr.
  - lia.
  - reflexivity.
  - lia.
  - unfold PGSIZE, ADDR_MAX. lia.
  - unfold kend_ex. lia.
  - lia.
  - unfold PHYSTOP_ex, PGSIZE, ADDR_MAX. lia.
  - intros c q [].
Defined.

Lemma freerange_panics_iff_witness :
  (exists msg, freerange kend_ex PHYSTOP_ex 0 2147614720 2147622912 boot_ex = Panic msg) <->
  (exists q, In q (pages_from (PGROUNDUP 2147614720)
                     (page_count (PGROUNDUP 2147614720) 2147622912)) /\
             ~ (kend_ex <= q < PHYSTOP_ex)).
Proof.
  apply (freerange_panics_iff kend_ex PHYSTOP_ex 0 2147614720 2147622912 boot_ex).
  - reflexivity.
  - lia.
  - unfold PGSIZE, ADDR_MAX. lia.
  - lia.
  - unfold PGSIZE, ADDR_MAX. lia.
Defined.

Lemma kinit_fills_boot_pool_witness :
  exists s',
    kinit 8 kend_ex PHYSTOP_ex 0 (fun _ => 0) = Done tt s' /\
    all_free s' /\
    pools_repr 8 s'
      (set_pool 0 (rev (pages_from (PGROUNDUP kend_ex)
                          (page_count (PGROUNDUP kend_ex) PHYSTOP_ex)))
         (fun _ => [])) /\
    (forall q, In q (pages_from (PGROUNDUP kend_ex)
                       (page_count (PGROUNDUP kend_ex) PHYSTOP_ex)) <->
       page_aligned q /\ kend_ex <= q /\ q + PGSIZE <= PHYSTOP_ex).
Proof.
  apply (kinit_fills_boot_pool 8 kend_ex PHYSTOP_ex 0 (fun _ => 0)).
  - lia.
  - unfold kend_ex. lia.
  - unfold kend_ex, PGSIZE, ADDR_MAX. lia.
  - unfold PHYSTOP_ex, PGSIZE, ADDR_MAX. lia.
Defined.

Lemma not_in_three_pools pa c :
  pa < 2281689088 -> ~ In pa (three_pools c).
Proof.
  intros H Hin. apply set_pool_in in Hin as [(_ & Hin)|(_ & [])].
  cbn in Hin. lia.
Qed.

Lemma kfree_then_kalloc_witness :
  exists s',
    (kfree kend_ex PHYSTOP_ex 0 2281684992 ;; kalloc 8 0) three_pages
      = Done 2281684992 s' /\
    locks s' = locks three_pages /\ freelist_CPU s' = freelist_CPU three_pages /\
    pools_repr 8 s' three_pools /\
    page_filled (memory s') 2281684992 KALLOC_JUNK /\
    (forall a, a < 2281684992 \/ 2281684992 + PGSIZE <= a ->
       memory s' a = memory three_pages a).
Proof.
  apply (kfree_then_kalloc 8 kend_ex PHYSTOP_ex 0 2281684992 three_pages three_pools).
  - exact three_pages_repr.
  - lia.
  - reflexivity.
  - reflexivity.
  - unfold kend_ex, PHYSTOP_ex. lia.
  - unfold ADDR_MAX. lia.
  - intros c. apply not_in_three_pools. lia.
Defined.

Lemma kallocs_never_repeat_witness :
  exists rs s' P',
    kallocs 8 [0; 1; 2; 0]%nat three_pages = Done rs s' /\
    length rs = length [0; 1; 2; 0]%nat /\
    pools_repr 8 s' P' /\ all_free s' /\
    NoDup (filter (fun r => negb (r =? 0)) rs) /\
    (forall r, In r rs -> r <> 0 ->
       (exists c, In r (three_pools c)) /\ forall c, ~ In r (P' c)) /\
    (forall c p, In p (P' c) -> In p (three_pools c)) /\
    (forall rs1 rs2, rs = rs1 ++ 0 :: rs2 -> forall r, In r rs2 -> r = 0).
Proof.
  apply (kallocs_never_repeat 8 [0; 1; 2; 0]%nat three_pages three_pools).
  - exact three_pages_repr.
  - exact three_pages_free.
  - repeat constructor.
Defined.

Lemma kalloc_touches_one_page_witness :
  exists r s',
    kalloc 8 0 three_pages = Done r s' /\ r = 2281697280 /\
    memory s' = memset r KALLOC_JUNK PGSIZE (memory three_pages).
Proof.
  eexists _, _. split; [reflexivity|]. split; [reflexivity|].
  apply (proj2 (kalloc_touches_one_page 8 0 three_pages) 2281697280 _ eq_refl).
  discriminate.
Defined.

Lemma kfree_twice_allocates_twice_witness :
  exists s',
    (kfree kend_ex PHYSTOP_ex 1 2281697280 ;; kfree kend_ex PHYSTOP_ex 1 2281697280 ;;
     r1 <- kalloc 8 1 ;; r2 <- kalloc 8 1 ;; ret (r1, r2)) boot_ex
    = Done (2281697280, 2281697280) s' /\
    nth 1 (freelist_CPU s') 0 = junk_pointer.
Proof.
  apply (kfree_twice_allocates_twice 8 kend_ex PHYSTOP_ex 1 2281697280 boot_ex).
  - reflexivity.
  - cbn. lia.
  - reflexivity.
  - unfold kend_ex, PHYSTOP_ex. lia.
  - unfold ADDR_MAX. lia.
Defined.

Lemma kinit_then_kalloc_witness :
  exists s0 r s',
    kinit 8 kend_ex PHYSTOP_ex 0 (fun _ => 0) = Done tt s0 /\
    kalloc 8 3 s0 = Done r s' /\
    (page_count (PGROUNDUP kend_ex) PHYSTOP_ex = 0%nat -> r = 0 /\ s' = s0) /\
    ((0 < page_count (PGROUNDUP kend_ex) PHYSTOP_ex)%nat ->
       r = PGROUNDUP kend_ex
           + Z.of_nat (page_count (PGROUNDUP kend_ex) PHYSTOP_ex - 1) * PGSIZE /\
       pools_repr 8 s'
         (set_pool 0 (rev (pages_from (PGROUNDUP kend_ex)
                             (page_count (PGROUNDUP kend_ex) PHYSTOP_ex - 1)))
            (fun _ => [])) /\
       page_filled (memory s') r KALLOC_JUNK).
Proof.
  apply (kinit_then_kalloc 8 kend_ex PHYSTOP_ex 0 3 (fun _ => 0)).
  - lia.
  - lia.
  - unfold kend_ex. lia.
  - unfold kend_ex, PGSIZE, ADDR_MAX. lia.
  - unfold PHYSTOP_ex, PGSIZE, ADDR_MAX. lia.
Defined.

End KallocProofs.

(* ================================================================== *)
(** * kernel/bio.c: proofs *)
(* ================================================================== *)

Module BioProofs.
Import Bio.

(** ** Pointers and the store *)

Lemma ptr_eqb_spec p q : reflect (p = q) (ptr_eqb p q).
Proof.
  destruct p, q; simpl; try (constructor; congruence).
  - destruct (Nat.eqb_spec k k0); constructor; congruence.
  - destruct (Nat.eqb_spec i i0); constructor; congruence.
Qed.

Lemma ptr_eq_dec (p q : ptr) : {p = q} + {p <> q}.
Proof. destruct (ptr_eqb_spec p q); auto. Qed.

Lemma ptr_eqb_refl p : ptr_eqb p p = true.
Proof. destruct (ptr_eqb_spec p p); congruence. Qed.

Lemma deref_assign_eq p f s :
  inrange s p -> deref (assign p f s) p = f (deref s p).
Proof.
  destruct p; simpl; intros H; [contradiction| |]; now rewrite nth_upd_eq.
Qed.

Lemma deref_assign_ne p q f s :
  p <> q -> deref (assign p f s) q = deref s q.
Proof.
  destruct p, q; simpl; intros H; try reflexivity;
    rewrite nth_upd_ne; congruence.
Qed.

(** A store changes its target by [f] or, out of range, nothing at all. *)
Lemma deref_assign_cases p q f s :
  deref (assign p f s) q = deref s q \/
  (p = q /\ deref (assign p f s) q = f (deref s q)).
Proof.
  destruct (ptr_eq_dec p q) as [->|Hne]; [|left; now apply deref_assign_ne].
  destruct q as [|k|i]; simpl; auto.
  - destruct (Nat.lt_ge_cases k (length (bcache_head s))).
    + right. split; auto. now rewrite nth_upd_eq.
    + left. now rewrite upd_out.
  - destruct (Nat.lt_ge_cases i (length (bcache_buf s))).
    + right. split; auto. now rewrite nth_upd_eq.
    + left. now rewrite upd_out.
Qed.

(** A field that [f] leaves alone reads the same after the store. *)
Lemma deref_assign_proj {A : Type} (g : buf -> A) p q f s :
  (forall b, g (f b) = g b) -> g (deref (assign p f s) q) = g (deref s q).
Proof.
  intros H. destruct (deref_assign_cases p q f s) as [->|[_ ->]]; auto.
Qed.

Lemma nx_assign_next p q v s :
  inrange s p ->
  nx (assign p (with_next v) s) q = if ptr_eqb p q then v else nx s q.
Proof.
  intros H. destruct (ptr_eqb_spec p q) as [->|Hne].
  - now rewrite deref_assign_eq.
  - now rewrite deref_assign_ne.
Qed.

Lemma pv_assign_prev p q v s :
  inrange s p ->
  pv (assign p (with_prev v) s) q = if ptr_eqb p q then v else pv s q.
Proof.
  intros H. destruct (ptr_eqb_spec p q) as [->|Hne].
  - now rewrite deref_assign_eq.
  - now rewrite deref_assign_ne.
Qed.

Lemma inrange_assign p f s q : inrange (assign p f s) q <-> inrange s q.
Proof. destruct p, q; simpl; rewrite ?length_upd; tauto. Qed.

Lemma bcache_buf_assign_length p f s :
  length (bcache_buf (assign p f s)) = length (bcache_buf s).
Proof. destruct p; simpl; rewrite ?length_upd; reflexivity. Qed.

Lemma bcache_head_assign_length p f s :
  length (bcache_head (assign p f s)) = length (bcache_head s).
Proof. destruct p; simpl; rewrite ?length_upd; reflexivity. Qed.

Lemma bcache_lock_assign p f s : bcache_lock (assign p f s) = bcache_lock s.
Proof. destruct p; reflexivity. Qed.

Lemma lock_of_assign p f s l : lock_of (assign p f s) l = lock_of s l.
Proof. destruct p, l; reflexivity. Qed.

Lemma ticks_assign p f s : ticks (assign p f s) = ticks s.
Proof. destruct p; reflexivity. Qed.

Lemma tickslock_assign p f s : tickslock (assign p f s) = tickslock s.
Proof. destruct p; reflexivity. Qed.

Lemma disk_assign p f s : disk (assign p f s) = disk s.
Proof. destruct p; reflexivity. Qed.

Lemma deref_set_lock l v s p : deref (set_lock l v s) p = deref s p.
Proof. destruct l, p; reflexivity. Qed.

Lemma bcache_buf_set_lock l v s : bcache_buf (set_lock l v s) = bcache_buf s.
Proof. destruct l; reflexivity. Qed.

Lemma bcache_head_set_lock l v s : bcache_head (set_lock l v s) = bcache_head s.
Proof. destruct l; reflexivity. Qed.

Lemma ticks_set_lock l v s : ticks (set_lock l v s) = ticks s.
Proof. destruct l; reflexivity. Qed.

Lemma disk_set_lock l v s : disk (set_lock l v s) = disk s.
Proof. destruct l; reflexivity. Qed.

Lemma state_eta s :
  mkstate (bcache_lock s) (bcache_buf s) (bcache_head s)
          (ticks s) (tickslock s) (disk s) = s.
Proof. destruct s; reflexivity. Qed.

(** Taking a free lock and giving it back leaves the state as it was. *)
Lemma set_lock_restore l v s :
  lock_of s l = None -> set_lock l None (set_lock l v s) = s.
Proof.
  destruct l; simpl; intros H.
  - rewrite upd_relock by exact H. apply state_eta.
  - rewrite <- H. apply state_eta.
Qed.

Lemma set_lock_set_lock l v w s :
  set_lock l v (set_lock l w s) = set_lock l v s.
Proof. destruct l; simpl; [now rewrite upd_upd | reflexivity]. Qed.

Lemma lock_of_set_lock_eq k v s :
  (k < length (bcache_lock s))%nat -> lock_of (set_lock (BucketLock k) v s) (BucketLock k) = v.
Proof. simpl. intros H. now rewrite nth_upd_eq. Qed.

Lemma lock_of_set_lock_ne l l' v s :
  l <> l' -> lock_of (set_lock l v s) l' = lock_of s l'.
Proof.
  destruct l, l'; simpl; intros H; try reflexivity; try congruence.
  rewrite nth_upd_ne; congruence.
Qed.

Lemma lock_of_ticks_set k v s : lock_of (set_lock (BucketLock k) v s) TicksLock = lock_of s TicksLock.
Proof. reflexivity. Qed.

Lemma acquire_free c l s :
  lock_of s l = None -> acquire c l s = Done tt (set_lock l (Some (cpu c)) s).
Proof. unfold acquire. now intros ->. Qed.

Lemma acquire_held c l s o :
  lock_of s l = Some o -> acquire c l s = Spin l s.
Proof. unfold acquire. now intros ->. Qed.

(** ** Doubly linked segments *)

Lemma dll_app s l1 : forall p q l2 r,
  dll s p (l1 ++ q :: l2) r <-> dll s p l1 q /\ dll s q l2 r.
Proof.
  induction l1 as [|x l1 IH]; intros p q l2 r; simpl.
  - tauto.
  - rewrite IH. tauto.
Qed.

Lemma dll_ext s s' l : forall p r,
  (forall q, In q (p :: l) -> nx s' q = nx s q) ->
  (forall q, In q (l ++ [r]) -> pv s' q = pv s q) ->
  dll s p l r -> dll s' p l r.
Proof.
  induction l as [|x l IH]; intros p r Hn Hp; simpl.
  - intros [H1 H2]. rewrite Hn, Hp by (simpl; auto). auto.
  - intros (H1 & H2 & H3). rewrite Hn, Hp by (simpl; auto).
    repeat split; auto. apply IH; auto.
    + intros q Hq. apply Hn. now right.
    + intros q Hq. apply Hp. now right.
Qed.

Lemma last_cons_default {A} (l : list A) : forall x d : A,
  last (x :: l) d = last l x.
Proof.
  induction l as [|y l IH]; intros x d; [reflexivity|].
  change (last (x :: y :: l) d) with (last (y :: l) d).
  rewrite !IH. reflexivity.
Qed.

Lemma dll_prev_of s l1 : forall p b l2 r,
  dll s p (l1 ++ b :: l2) r -> pv s b = last l1 p.
Proof.
  induction l1 as [|x l1 IH]; intros p b l2 r.
  - simpl. tauto.
  - intros (_ & _ & H). rewrite last_cons_default. exact (IH _ _ _ _ H).
Qed.

Lemma dll_next_of s l1 : forall p b l2 r,
  dll s p (l1 ++ b :: l2) r -> nx s b = hd r l2.
Proof.
  intros p b l2 r H. apply dll_app in H as [_ H].
  destruct l2; simpl in *; tauto.
Qed.

Lemma last_in {A} (l : list A) (d : A) : l <> [] -> In (last l d) l.
Proof.
  induction l as [|x l IH]; [congruence|]. intros _.
  destruct l as [|y l]; [now left|]. right. apply IH. discriminate.
Qed.

Lemma last_in_cons {A} (l : list A) (d : A) : In (last l d) (d :: l).
Proof.
  destruct l as [|x l]; [now left|]. right. apply last_in. discriminate.
Qed.

(** Taking [b] out of a segment: only [b->prev->next] and
    [b->next->prev] change. *)
Lemma dll_unlink s s' b l2 r l1 : forall p,
  dll s p (l1 ++ b :: l2) r ->
  NoDup (p :: l1 ++ b :: l2) -> ~ In r (l1 ++ b :: l2) ->
  (forall q, nx s' q = if ptr_eqb (pv s b) q then nx s b else nx s q) ->
  (forall q, pv s' q = if ptr_eqb (nx s b) q then pv s b else pv s q) ->
  dll s' p (l1 ++ l2) r.
Proof.
  induction l1 as [|x l1 IH]; intros p H Hnd Hr Hn Hp.
  - simpl in *. destruct H as (H1 & H2 & H3).
    apply NoDup_cons_iff in Hnd as [Hp1 Hnd1].
    apply NoDup_cons_iff in Hnd1 as [Hb Hnd2].
    destruct l2 as [|c l2]; simpl in *.
    + destruct H3 as [H3 H4]. rewrite Hn, Hp, H2, H3, !ptr_eqb_refl. auto.
    + destruct H3 as (H3 & H4 & H5). rewrite Hn, Hp, H2, H3, !ptr_eqb_refl.
      repeat split; auto. revert H5. apply dll_ext.
      * intros q Hq. rewrite Hn, H2.
        destruct (ptr_eqb_spec p q) as [->|]; auto.
        exfalso. apply Hp1. right. exact Hq.
      * intros q Hq. rewrite Hp, H3.
        destruct (ptr_eqb_spec c q) as [<-|]; auto.
        exfalso. apply in_app_or in Hq as [Hq|[<-|[]]].
        -- apply NoDup_cons_iff in Hnd2 as [Hc _]. auto.
        -- apply Hr. auto.
  - simpl in H. destruct H as (H1 & H2 & H3).
    pose proof (dll_prev_of _ _ _ _ _ _ H3) as Ha.
    pose proof (dll_next_of _ _ _ _ _ _ H3) as Hc.
    apply NoDup_cons_iff in Hnd as [Hp1 Hnd1].
    simpl. rewrite Hn, Hp.
    destruct (ptr_eqb_spec (pv s b) p) as [E|_].
    { exfalso. apply Hp1. rewrite <- E, Ha.
      destruct (in_inv (last_in_cons l1 x)) as [<-|Hin]; [now left|].
      right. apply in_or_app. now left. }
    destruct (ptr_eqb_spec (nx s b) x) as [E|_].
    { exfalso. rewrite Hc in E.
      apply (NoDup_cons_iff x) in Hnd1 as [Hx _].
      destruct l2 as [|c l2]; simpl in E.
      - apply Hr. left. symmetry. exact E.
      - apply Hx. apply in_or_app. right. right. now left. }
    repeat split; auto. apply IH; auto.
    intros Hin. apply Hr. now right.
Qed.

(** Putting [b] right after [h], in front of the segment [l]. *)
Lemma dll_push s s' h b l :
  dll s h l h -> ~ In b (h :: l) -> NoDup (h :: l) ->
  (forall q, nx s' q = if ptr_eqb h q then b else if ptr_eqb b q then nx s h else nx s q) ->
  (forall q, pv s' q = if ptr_eqb (nx s h) q then b else if ptr_eqb b q then h else pv s q) ->
  dll s' h (b :: l) h.
Proof.
  intros H Hb Hnd Hn Hp.
  assert (Hbh : b <> h) by (intros ->; apply Hb; now left).
  apply NoDup_cons_iff in Hnd as [Hh Hnd1].
  destruct l as [|f l]; simpl in *.
  - destruct H as [H1 H2]. rewrite !Hn, !Hp, H1, !ptr_eqb_refl.
    destruct (ptr_eqb_spec h b) as [E|_]; [congruence|].
    repeat split; auto.
  - destruct H as (H1 & H2 & H3). rewrite !Hn, !Hp, H1, !ptr_eqb_refl.
    destruct (ptr_eqb_spec h b) as [E|_]; [congruence|].
    destruct (ptr_eqb_spec f b) as [E|_]; [exfalso; apply Hb; auto|].
    repeat split; auto. revert H3. apply dll_ext.
    + intros q Hq. rewrite Hn.
      destruct (ptr_eqb_spec h q) as [<-|_]; [exfalso; apply Hh; exact Hq|].
      destruct (ptr_eqb_spec b q) as [<-|_]; [exfalso; apply Hb; auto|]. reflexivity.
    + intros q Hq. rewrite Hp, H1.
      destruct (ptr_eqb_spec f q) as [<-|_].
      { exfalso. apply in_app_or in Hq as [Hq|[E|[]]].
        - apply NoDup_cons_iff in Hnd1 as [Hf _]. auto.
        - apply Hh. left. symmetry. exact E. }
      destruct (ptr_eqb_spec b q) as [<-|_]; [|reflexivity].
      exfalso. apply in_app_or in Hq as [Hq|[E|[]]]; [apply Hb; auto|congruence].
Qed.

Lemma in_map_Buf i l : In (Buf i) (map Buf l) <-> In i l.
Proof.
  rewrite in_map_iff. split.
  - intros (x & [= ->] & H). exact H.
  - intros H. now exists i.
Qed.

Lemma Head_notin_map_Buf k l : ~ In (Head k) (map Buf l).
Proof. rewrite in_map_iff. intros (x & [=] & _). Qed.

Lemma NoDup_map_Buf l : NoDup l -> NoDup (map Buf l).
Proof.
  induction 1 as [|x l Hx Hl IH]; simpl; constructor; auto.
  now rewrite in_map_Buf.
Qed.

Lemma NoDup_ring k l : NoDup l -> NoDup (Head k :: map Buf l).
Proof.
  intros H. constructor; [apply Head_notin_map_Buf | now apply NoDup_map_Buf].
Qed.

Lemma remove_split (i : nat) l1 l2 :
  NoDup (l1 ++ i :: l2) -> remove Nat.eq_dec i (l1 ++ i :: l2) = l1 ++ l2.
Proof.
  intros H. apply NoDup_remove_2 in H.
  rewrite remove_app, remove_cons.
  rewrite !notin_remove; auto.
  - intros Hin. apply H. apply in_or_app. now right.
  - intros Hin. apply H. apply in_or_app. now left.
Qed.

Lemma NoDup_remove_all (i : nat) l :
  NoDup l -> NoDup (remove Nat.eq_dec i l).
Proof.
  induction 1 as [|x l Hx Hl IH]; simpl; [constructor|].
  destruct (Nat.eq_dec i x); auto. constructor; auto.
  intros H. apply in_remove in H. tauto.
Qed.

Lemma in_L_remove i L k j :
  In j (L_remove i L k) <-> In j (L k) /\ j <> i.
Proof.
  unfold L_remove. split.
  - intros H. apply in_remove in H. tauto.
  - intros [H1 H2]. apply in_in_remove; auto.
Qed.

Lemma in_L_push k i L k' j :
  In j (L_push k i L k') <-> (k' = k /\ j = i) \/ In j (L k').
Proof.
  unfold L_push. destruct (Nat.eqb_spec k' k) as [->|Hne]; simpl.
  - intuition congruence.
  - intuition congruence.
Qed.

(** Nodes of a ring are in range, and so are their neighbours. *)
Lemma rings_head_inrange s L k :
  rings s L -> (k < BUCKET_SIZE)%nat -> inrange s (Head k).
Proof. intros H Hk. simpl. now rewrite (r_heads _ _ H). Qed.

Lemma rings_buf_inrange s L k i :
  rings s L -> In i (L k) -> inrange s (Buf i).
Proof. intros H Hi. simpl. now apply (r_range _ _ H k i). Qed.

Lemma rings_ext s s' L :
  rings s L ->
  length (bcache_head s') = length (bcache_head s) ->
  length (bcache_buf s') = length (bcache_buf s) ->
  (forall q, nx s' q = nx s q) -> (forall q, pv s' q = pv s q) ->
  rings s' L.
Proof.
  intros [H1 H2 H3 H4 H5] Hh Hb Hn Hp. constructor; auto.
  - congruence.
  - intros k Hk. apply (dll_ext s); auto.
  - intros k i Hi. rewrite Hb. now apply H3.
Qed.

Section Unlink.
Variables (s : state) (L : nat -> list nat) (j i : nat).
Hypothesis HR : rings s L.
Hypothesis Hin : In i (L j).

Local Abbreviation b := (Buf i).

Lemma unlink_neighbours :
  exists l1 l2, L j = l1 ++ i :: l2 /\
    pv s b = last (map Buf l1) (Head j) /\
    nx s b = hd (Head j) (map Buf l2) /\
    inrange s (pv s b) /\ inrange s (nx s b) /\
    pv s b <> b /\ nx s b <> b.
Proof.
  destruct (in_split _ _ Hin) as (l1 & l2 & E).
  destruct (r_range _ _ HR j i Hin) as [Hj Hi].
  pose proof (r_ring _ _ HR j Hj) as Hd.
  pose proof (r_nodup _ _ HR j) as Hnd.
  rewrite E in Hd, Hnd. rewrite map_app in Hd. cbn [map] in Hd.
  pose proof (dll_prev_of _ _ _ _ _ _ Hd) as Ha.
  pose proof (dll_next_of _ _ _ _ _ _ Hd) as Hc.
  exists l1, l2. split; [exact E|]. split; [exact Ha|]. split; [exact Hc|].
  assert (Hmem : forall x, In x l1 \/ In x l2 -> In x (L j) /\ x <> i).
  { intros x Hx. split.
    - rewrite E. apply in_or_app. destruct Hx; [left|right; right]; auto.
    - intros ->. apply NoDup_remove_2 in Hnd. apply Hnd, in_or_app. tauto. }
  assert (Hnode : forall q, In q (Head j :: map Buf l1) \/ In q (map Buf l2 ++ [Head j]) ->
            inrange s q /\ q <> b).
  { intros q [[<-|Hq]|Hq].
    - split; [now apply (rings_head_inrange s L)|discriminate].
    - apply in_map_iff in Hq as (x & <- & Hx).
      destruct (Hmem x (or_introl Hx)) as [H1 H2].
      split; [now apply (rings_buf_inrange s L j)|]. congruence.
    - apply in_app_or in Hq as [Hq|[<-|[]]].
      + apply in_map_iff in Hq as (x & <- & Hx).
        destruct (Hmem x (or_intror Hx)) as [H1 H2].
        split; [now apply (rings_buf_inrange s L j)|]. congruence.
      + split; [now apply (rings_head_inrange s L)|discriminate]. }
  assert (Hpa : In (pv s b) (Head j :: map Buf l1)).
  { rewrite Ha. apply last_in_cons. }
  assert (Hnc : In (nx s b) (map Buf l2 ++ [Head j])).
  { rewrite Hc. destruct (map Buf l2); simpl; auto. }
  destruct (Hnode _ (or_introl Hpa)), (Hnode _ (or_intror Hnc)). auto.
Qed.

(** What the two unlinking stores leave behind. *)
Lemma unlinked_np_obs :
  let s' := unlinked_np b s in
  (forall q, nx s' q = if ptr_eqb (pv s b) q then nx s b else nx s q) /\
  (forall q, pv s' q = if ptr_eqb (nx s b) q then pv s b else pv s q).
Proof.
  destruct unlink_neighbours as (l1 & l2 & _ & _ & _ & Ha & Hc & Hab & Hcb).
  unfold unlinked_np. cbv zeta.
  assert (E1 : nx (assign (pv s b) (with_next (nx s b)) s) b = nx s b).
  { rewrite deref_assign_ne; auto. }
  assert (E2 : pv (assign (pv s b) (with_next (nx s b)) s) b = pv s b).
  { rewrite deref_assign_ne; auto. }
  rewrite E1, E2. split; intros q.
  - rewrite (deref_assign_proj next) by reflexivity. now apply nx_assign_next.
  - rewrite pv_assign_prev by (now apply inrange_assign).
    now rewrite (deref_assign_proj prev) by reflexivity.
Qed.

Lemma unlinked_pn_obs :
  let s' := unlinked_pn b s in
  (forall q, nx s' q = if ptr_eqb (pv s b) q then nx s b else nx s q) /\
  (forall q, pv s' q = if ptr_eqb (nx s b) q then pv s b else pv s q).
Proof.
  destruct unlink_neighbours as (l1 & l2 & _ & _ & _ & Ha & Hc & Hab & Hcb).
  unfold unlinked_pn. cbv zeta.
  assert (E1 : nx (assign (nx s b) (with_prev (pv s b)) s) b = nx s b).
  { rewrite deref_assign_ne; auto. }
  assert (E2 : pv (assign (nx s b) (with_prev (pv s b)) s) b = pv s b).
  { rewrite deref_assign_ne; auto. }
  rewrite E1, E2. split; intros q.
  - rewrite nx_assign_next by (now apply inrange_assign).
    now rewrite (deref_assign_proj next) by reflexivity.
  - rewrite (deref_assign_proj prev) by reflexivity. now apply pv_assign_prev.
Qed.

(** Any state with those links has [b] out of its ring, and the other
    rings as they were. *)
Lemma rings_unlink s' :
  length (bcache_head s') = length (bcache_head s) ->
  length (bcache_buf s') = length (bcache_buf s) ->
  (forall q, nx s' q = if ptr_eqb (pv s b) q then nx s b else nx s q) ->
  (forall q, pv s' q = if ptr_eqb (nx s b) q then pv s b else pv s q) ->
  rings s' (L_remove i L).
Proof.
  intros Hh Hb Hn Hp.
  destruct unlink_neighbours as (l1 & l2 & E & Ha & Hc & _).
  destruct (r_range _ _ HR j i Hin) as [Hj _].
  pose proof (r_nodup _ _ HR j) as Hnd.
  assert (Hpa : In (pv s b) (Head j :: map Buf l1)).
  { rewrite Ha. apply last_in_cons. }
  assert (Hnc : In (nx s b) (map Buf l2 ++ [Head j])).
  { rewrite Hc. destruct (map Buf l2); simpl; auto. }
  constructor.
  - rewrite Hh. apply (r_heads _ _ HR).
  - intros k Hk. destruct (Nat.eq_dec k j) as [->|Hkj].
    + unfold L_remove. rewrite E. rewrite E in Hnd.
      rewrite remove_split by exact Hnd. rewrite map_app.
      apply (dll_unlink s s' b); auto.
      * pose proof (r_ring _ _ HR j Hj) as Hd. rewrite E, map_app in Hd. exact Hd.
      * change (NoDup (Head j :: map Buf l1 ++ map Buf (i :: l2))).
        rewrite <- map_app. now apply NoDup_ring.
      * change (~ In (Head j) (map Buf l1 ++ map Buf (i :: l2))).
        rewrite <- map_app. apply Head_notin_map_Buf.
    + assert (Hk_no : forall x, In x (L k) -> x <> i).
      { intros x Hx ->. apply Hkj. now apply (r_disjoint _ _ HR k j i). }
      unfold L_remove. rewrite notin_remove by (intros Hx; now apply (Hk_no i)).
      apply (dll_ext s); [| |now apply (r_ring _ _ HR)].
      * intros q Hq. rewrite Hn.
        destruct (ptr_eqb_spec (pv s b) q) as [<-|_]; [|reflexivity].
        exfalso. destruct Hq as [Hq|Hq], Hpa as [Hpa|Hpa];
          rewrite <- ?Hq, <- ?Hpa in *; try congruence.
        -- apply in_map_iff in Hpa as (x & [=] & _).
        -- now apply Head_notin_map_Buf in Hq.
        -- apply in_map_iff in Hpa as (x & Ex & Hx). rewrite <- Ex in Hq.
           apply in_map_Buf in Hq. apply Hkj. apply (r_disjoint _ _ HR k j x); auto.
           rewrite E. apply in_or_app. now left.
      * intros q Hq. rewrite Hp.
        destruct (ptr_eqb_spec (nx s b) q) as [<-|_]; [|reflexivity].
        exfalso. apply in_app_or in Hq as [Hq|[Hq|[]]];
          apply in_app_or in Hnc as [Hnc|[Hnc|[]]];
          rewrite <- ?Hq, <- ?Hnc in *; try congruence.
        -- apply in_map_iff in Hnc as (x & Ex & Hx). rewrite <- Ex in Hq.
           apply in_map_Buf in Hq. apply Hkj. apply (r_disjoint _ _ HR k j x); auto.
           rewrite E. apply in_or_app. right. now right.
        -- now apply Head_notin_map_Buf in Hq.
        -- apply in_map_iff in Hnc as (x & [=] & _).
  - intros k x Hx. apply in_L_remove in Hx as [Hx _]. rewrite Hb.
    now apply (r_range _ _ HR).
  - intros k. apply NoDup_remove_all, (r_nodup _ _ HR).
  - intros k k' x Hx Hx'. apply in_L_remove in Hx as [Hx _].
    apply in_L_remove in Hx' as [Hx' _]. now apply (r_disjoint _ _ HR k k' x).
Qed.

End Unlink.

Create Rewrite HintDb st.
#[export] Hint Rewrite bcache_lock_assign lock_of_assign ticks_assign tickslock_assign
  disk_assign bcache_buf_assign_length bcache_head_assign_length
  deref_set_lock bcache_buf_set_lock bcache_head_set_lock ticks_set_lock
  disk_set_lock : st.

Lemma tickslock_set_bucket k v s :
  tickslock (set_lock (BucketLock k) v s) = tickslock s.
Proof. reflexivity. Qed.

Lemma unlinked_np_proj {A : Type} (g : buf -> A) b s q :
  link_blind g -> g (deref (unlinked_np b s) q) = g (deref s q).
Proof.
  intros [Hn Hp]. unfold unlinked_np. cbv zeta.
  rewrite !deref_assign_proj; auto.
Qed.

Lemma unlinked_pn_proj {A : Type} (g : buf -> A) b s q :
  link_blind g -> g (deref (unlinked_pn b s) q) = g (deref s q).
Proof.
  intros [Hn Hp]. unfold unlinked_pn. cbv zeta.
  rewrite !deref_assign_proj; auto.
Qed.

Lemma pushed_proj {A : Type} (g : buf -> A) k b s q :
  link_blind g -> g (deref (pushed k b s) q) = g (deref s q).
Proof.
  intros [Hn Hp]. unfold pushed. cbv zeta.
  rewrite !deref_assign_proj; auto.
Qed.

Lemma unlinked_np_frame b s :
  length (bcache_head (unlinked_np b s)) = length (bcache_head s) /\
  length (bcache_buf (unlinked_np b s)) = length (bcache_buf s) /\
  bcache_lock (unlinked_np b s) = bcache_lock s /\
  ticks (unlinked_np b s) = ticks s /\
  tickslock (unlinked_np b s) = tickslock s /\
  disk (unlinked_np b s) = disk s.
Proof. unfold unlinked_np; cbv zeta. now autorewrite with st. Qed.

Lemma unlinked_pn_frame b s :
  length (bcache_head (unlinked_pn b s)) = length (bcache_head s) /\
  length (bcache_buf (unlinked_pn b s)) = length (bcache_buf s) /\
  bcache_lock (unlinked_pn b s) = bcache_lock s /\
  ticks (unlinked_pn b s) = ticks s /\
  tickslock (unlinked_pn b s) = tickslock s /\
  disk (unlinked_pn b s) = disk s.
Proof. unfold unlinked_pn; cbv zeta. now autorewrite with st. Qed.

Lemma pushed_frame k b s :
  length (bcache_head (pushed k b s)) = length (bcache_head s) /\
  length (bcache_buf (pushed k b s)) = length (bcache_buf s) /\
  bcache_lock (pushed k b s) = bcache_lock s /\
  ticks (pushed k b s) = ticks s /\
  tickslock (pushed k b s) = tickslock s /\
  disk (pushed k b s) = disk s.
Proof. unfold pushed; cbv zeta. now autorewrite with st. Qed.

Lemma rings_unlinked_np s L j i :
  rings s L -> In i (L j) -> rings (unlinked_np (Buf i) s) (L_remove i L).
Proof.
  intros HR Hin.
  destruct (unlinked_np_frame (Buf i) s) as (H1 & H2 & _).
  destruct (unlinked_np_obs s L j i HR Hin) as [Hn Hp].
  now apply (rings_unlink s L j i HR Hin).
Qed.

Lemma rings_unlinked_pn s L j i :
  rings s L -> In i (L j) -> rings (unlinked_pn (Buf i) s) (L_remove i L).
Proof.
  intros HR Hin.
  destruct (unlinked_pn_frame (Buf i) s) as (H1 & H2 & _).
  destruct (unlinked_pn_obs s L j i HR Hin) as [Hn Hp].
  now apply (rings_unlink s L j i HR Hin).
Qed.

Section Push.
Variables (s : state) (L : nat -> list nat) (k i : nat).
Hypothesis HR : rings s L.
Hypothesis Hk : (k < BUCKET_SIZE)%nat.
Hypothesis Hi : (i < length (bcache_buf s))%nat.
Hypothesis Hout : forall k', ~ In i (L k').

Local Abbreviation b := (Buf i).

Lemma push_first :
  In (nx s (Head k)) (map Buf (L k) ++ [Head k]) /\
  inrange s (nx s (Head k)) /\ nx s (Head k) <> b.
Proof.
  pose proof (r_ring _ _ HR k Hk) as Hd.
  destruct (L k) as [|f l] eqn:E; cbn [dll map] in Hd.
  - destruct Hd as [-> _]. split; [now left|].
    split; [now apply (rings_head_inrange s L)|discriminate].
  - destruct Hd as (-> & _). split; [now left|].
    assert (Hf : In f (L k)) by (rewrite E; now left).
    split; [now apply (rings_buf_inrange s L k)|].
    intros [= ->]. now apply (Hout k).
Qed.

Lemma pushed_obs :
  let s' := pushed k b s in
  (forall q, nx s' q =
     if ptr_eqb (Head k) q then b else if ptr_eqb b q then nx s (Head k) else nx s q) /\
  (forall q, pv s' q =
     if ptr_eqb (nx s (Head k)) q then b else if ptr_eqb b q then Head k else pv s q).
Proof.
  destruct push_first as (_ & Hf & Hfb).
  pose proof (rings_head_inrange s L k HR Hk) as Hh.
  unfold pushed. cbv zeta.
  set (s1 := assign b (with_next (nx s (Head k))) s).
  set (s2 := assign b (with_prev (Head k)) s1).
  assert (E : nx s2 (Head k) = nx s (Head k)).
  { unfold s2, s1. rewrite !deref_assign_ne by discriminate. reflexivity. }
  rewrite E.
  set (s3 := assign (nx s (Head k)) (with_prev b) s2).
  split; intros q.
  - rewrite nx_assign_next by (unfold s3, s2, s1; now rewrite !inrange_assign).
    destruct (ptr_eqb_spec (Head k) q) as [_|_]; [reflexivity|].
    unfold s3, s2. rewrite !(deref_assign_proj next) by reflexivity.
    unfold s1. now apply nx_assign_next.
  - rewrite (deref_assign_proj prev) by reflexivity.
    unfold s3. rewrite pv_assign_prev by (unfold s2, s1; now rewrite !inrange_assign).
    destruct (ptr_eqb_spec (nx s (Head k)) q) as [_|_]; [reflexivity|].
    unfold s2. rewrite pv_assign_prev by (unfold s1; now rewrite inrange_assign).
    destruct (ptr_eqb_spec b q) as [_|_]; [reflexivity|].
    unfold s1. now rewrite (deref_assign_proj prev) by reflexivity.
Qed.

Lemma rings_push s' :
  length (bcache_head s') = length (bcache_head s) ->
  length (bcache_buf s') = length (bcache_buf s) ->
  (forall q, nx s' q =
     if ptr_eqb (Head k) q then b else if ptr_eqb b q then nx s (Head k) else nx s q) ->
  (forall q, pv s' q =
     if ptr_eqb (nx s (Head k)) q then b else if ptr_eqb b q then Head k else pv s q) ->
  rings s' (L_push k i L).
Proof.
  intros Hh Hb Hn Hp.
  destruct push_first as (Hfin & _ & Hfb).
  constructor.
  - rewrite Hh. apply (r_heads _ _ HR).
  - intros k' Hk'. unfold L_push. destruct (Nat.eqb_spec k' k) as [->|Hne].
    + cbn [map]. apply (dll_push s s'); auto.
      * now apply (r_ring _ _ HR).
      * intros [[=]|Hin]. apply in_map_Buf in Hin. now apply (Hout k).
      * apply NoDup_ring, (r_nodup _ _ HR).
    + apply (dll_ext s); [| |now apply (r_ring _ _ HR)].
      * intros q Hq. rewrite Hn.
        destruct (ptr_eqb_spec (Head k) q) as [<-|_].
        { exfalso. destruct Hq as [[=]|Hq]; [congruence|].
          now apply Head_notin_map_Buf in Hq. }
        destruct (ptr_eqb_spec b q) as [<-|_]; [|reflexivity].
        exfalso. destruct Hq as [[=]|Hq]. apply in_map_Buf in Hq. now apply (Hout k').
      * intros q Hq. rewrite Hp.
        destruct (ptr_eqb_spec (nx s (Head k)) q) as [<-|_].
        { exfalso. apply in_app_or in Hq as [Hq|[Hq|[]]];
            apply in_app_or in Hfin as [Hf|[Hf|[]]];
            rewrite <- ?Hq, <- ?Hf in *; try congruence.
          - apply in_map_iff in Hf as (x & Ex & Hx). rewrite <- Ex in Hq.
            apply in_map_Buf in Hq. apply Hne. now apply (r_disjoint _ _ HR k' k x).
          - now apply Head_notin_map_Buf in Hq.
          - apply in_map_iff in Hf as (x & [=] & _). }
        destruct (ptr_eqb_spec b q) as [<-|_]; [|reflexivity].
        exfalso. apply in_app_or in Hq as [Hq|[[=]|[]]].
        apply in_map_Buf in Hq. now apply (Hout k').
  - intros k' x Hx. rewrite Hb. apply in_L_push in Hx as [[-> ->]|Hx]; auto.
    now apply (r_range _ _ HR).
  - intros k'. unfold L_push. destruct (Nat.eqb_spec k' k) as [->|_].
    + constructor; [apply Hout | apply (r_nodup _ _ HR)].
    + apply (r_nodup _ _ HR).
  - intros k1 k2 x H1 H2.
    apply in_L_push in H1 as [[-> ->]|H1]; apply in_L_push in H2 as [[-> E]|H2];
      subst; auto; try (exfalso; eapply Hout; eassumption).
    now apply (r_disjoint _ _ HR k1 k2 x).
Qed.

Lemma rings_pushed : rings (pushed k b s) (L_push k i L).
Proof.
  destruct (pushed_frame k b s) as (H1 & H2 & _).
  destruct pushed_obs as [Hn Hp].
  now apply rings_push.
Qed.

End Push.

Lemma L_remove_out i L k : ~ In i (L_remove i L k).
Proof. rewrite in_L_remove. tauto. Qed.

Ltac run := cbv beta iota delta [bind get set ret panic get_ticks holding_bucket release].

(** ** The list walks *)

Lemma bget_find_ring s h dv bn l : forall p fuel,
  dll s p (map Buf l) (Head h) -> (length l < fuel)%nat ->
  bget_find fuel (Head h) (nx s p) dv bn s =
  Done (option_map Buf (find (matches s dv bn) l)) s.
Proof.
  induction l as [|i l IH]; intros p fuel Hd Hf; (destruct fuel as [|fuel]; [simpl in Hf; lia|]).
  - cbn [map dll] in Hd. destruct Hd as [-> _]. cbn [bget_find]. now rewrite ptr_eqb_refl.
  - cbn [map dll] in Hd. destruct Hd as (-> & _ & Hd). cbn [bget_find ptr_eqb]. run.
    cbn [find]. unfold matches at 1.
    destruct ((dev (deref s (Buf i)) =? dv) && (blockno (deref s (Buf i)) =? bn)); [reflexivity|].
    apply IH; auto. simpl in Hf; lia.
Qed.

Lemma bget_scan_ring s h l : forall p fuel temp tt,
  dll s p (map Buf l) (Head h) -> (length l < fuel)%nat ->
  bget_scan fuel (Head h) (nx s p) temp tt s = Done (scan_list s l temp tt) s.
Proof.
  induction l as [|i l IH]; intros p fuel temp tt Hd Hf; (destruct fuel as [|fuel]; [simpl in Hf; lia|]).
  - cbn [map dll] in Hd. destruct Hd as [-> _]. cbn [bget_scan]. now rewrite ptr_eqb_refl.
  - cbn [map dll] in Hd. destruct Hd as (-> & _ & Hd). cbn [bget_scan ptr_eqb]. run.
    cbn [scan_list].
    destruct ((refcnt (deref s (Buf i)) =? 0) &&
              ((tt =? 0) || (used_tick (deref s (Buf i)) <? tt)));
      apply IH; auto; simpl in Hf; lia.
Qed.


Lemma scan_list_ext s s' l : forall temp tt,
  (forall i, deref s' (Buf i) = deref s (Buf i)) ->
  scan_list s' l temp tt = scan_list s l temp tt.
Proof.
  induction l as [|i l IH]; intros temp tt H; cbn [scan_list]; [reflexivity|].
  rewrite H, !IH by exact H. reflexivity.
Qed.

Lemma scan_list_none s l : forall temp tt,
  no_free s l -> scan_list s l temp tt = (temp, tt).
Proof.
  induction l as [|i l IH]; intros temp tt H; cbn [scan_list]; [reflexivity|].
  destruct (Z.eqb_spec (refcnt (deref s (Buf i))) 0) as [E|_].
  - exfalso. apply (H i); [now left|exact E].
  - cbn [andb]. apply IH. intros j Hj. apply H. now right.
Qed.

(** The walk keeps its candidate or picks a free buffer of the list. *)
Lemma scan_list_pick s l : forall temp tt,
  scan_list s l temp tt = (temp, tt) \/
  exists v, In v l /\ refcnt (deref s (Buf v)) = 0 /\
            scan_list s l temp tt = (Buf v, used_tick (deref s (Buf v))).
Proof.
  induction l as [|i l IH]; intros temp tt; cbn [scan_list]; [now left|].
  destruct (Z.eqb_spec (refcnt (deref s (Buf i))) 0) as [E|_]; cbn [andb].
  - destruct ((tt =? 0) || (used_tick (deref s (Buf i)) <? tt)).
    + right. destruct (IH (Buf i) (used_tick (deref s (Buf i)))) as [->|(v & Hv & Hr & ->)].
      * exists i. repeat split; auto. now left.
      * exists v. repeat split; auto. now right.
    + destruct (IH temp tt) as [->|(v & Hv & Hr & ->)]; [now left|].
      right. exists v. repeat split; auto. now right.
  - destruct (IH temp tt) as [->|(v & Hv & Hr & ->)]; [now left|].
    right. exists v. repeat split; auto. now right.
Qed.

(** Starting without a candidate, the walk ends without one exactly when
    no buffer of the list is free. *)
Lemma scan_list_null s l :
  fst (scan_list s l Null 0) = Null -> no_free s l.
Proof.
  destruct l as [|i l]; [intros _ j []|].
  cbn [scan_list Z.eqb orb]. rewrite andb_true_r.
  destruct (Z.eqb_spec (refcnt (deref s (Buf i))) 0) as [E|E].
  - destruct (scan_list_pick s l (Buf i) (used_tick (deref s (Buf i))))
      as [->|(v & _ & _ & ->)]; discriminate.
  - intros H j [<-|Hj]; [exact E|].
    revert H j Hj. induction l as [|x l IH]; [intros _ j []|].
    cbn [scan_list Z.eqb orb]. rewrite andb_true_r.
    destruct (Z.eqb_spec (refcnt (deref s (Buf x))) 0) as [Ex|Ex].
    + destruct (scan_list_pick s l (Buf x) (used_tick (deref s (Buf x))))
        as [->|(v & _ & _ & ->)]; discriminate.
    + intros H j [<-|Hj]; auto.
Qed.

Lemma rings_length s L k :
  rings s L -> (length (L k) <= length (bcache_buf s))%nat.
Proof.
  intros HR.
  assert (H : incl (L k) (seq 0 (length (bcache_buf s)))).
  { intros i Hi. apply in_seq. destruct (r_range _ _ HR k i Hi). lia. }
  apply NoDup_incl_length in H; [|apply (r_nodup _ _ HR)].
  now rewrite length_seq in H.
Qed.

Lemma rings_set_lock s L l v : rings s L -> rings (set_lock l v s) L.
Proof.
  intros HR. apply (rings_ext s); auto; intros; now autorewrite with st.
Qed.

Lemma assign_assign p f g s :
  assign p g (assign p f s) = assign p (fun b => g (f b)) s.
Proof.
  destruct p as [|k|i]; simpl; [reflexivity| |].
  - destruct (Nat.lt_ge_cases k (length (bcache_head s))).
    + rewrite nth_upd_eq by lia. now rewrite upd_upd.
    + now rewrite !upd_out by (rewrite ?length_upd; lia).
  - destruct (Nat.lt_ge_cases i (length (bcache_buf s))).
    + rewrite nth_upd_eq by lia. now rewrite upd_upd.
    + now rewrite !upd_out by (rewrite ?length_upd; lia).
Qed.

Lemma assign_ext p f g s :
  f (deref s p) = g (deref s p) -> assign p f s = assign p g s.
Proof. destruct p; simpl; intros H; rewrite ?H; reflexivity. Qed.

Lemma assign_set_lock p f l v s :
  assign p f (set_lock l v s) = set_lock l v (assign p f s).
Proof. destruct p, l; reflexivity. Qed.

Lemma stamp_free c b s :
  tickslock s = None -> stamp c b s = Done tt (assign b (with_used_tick (ticks s)) s).
Proof.
  intros H. unfold stamp. unfold bind at 1. rewrite acquire_free by exact H. run.
  rewrite assign_set_lock, ticks_set_lock.
  rewrite set_lock_restore by (rewrite lock_of_assign; exact H). reflexivity.
Qed.

Lemma stamp_held c b s o :
  tickslock s = Some o -> stamp c b s = Spin TicksLock s.
Proof.
  intros H. unfold stamp. unfold bind at 1. now rewrite (acquire_held c TicksLock s o).
Qed.

Lemma tickslock_unlinked_np b s : tickslock (unlinked_np b s) = tickslock s.
Proof. apply unlinked_np_frame. Qed.
Lemma tickslock_unlinked_pn b s : tickslock (unlinked_pn b s) = tickslock s.
Proof. apply unlinked_pn_frame. Qed.
Lemma tickslock_pushed k b s : tickslock (pushed k b s) = tickslock s.
Proof. apply pushed_frame. Qed.
Lemma ticks_unlinked_np b s : ticks (unlinked_np b s) = ticks s.
Proof. apply unlinked_np_frame. Qed.
Lemma ticks_unlinked_pn b s : ticks (unlinked_pn b s) = ticks s.
Proof. apply unlinked_pn_frame. Qed.
Lemma ticks_pushed k b s : ticks (pushed k b s) = ticks s.
Proof. apply pushed_frame. Qed.

#[export] Hint Rewrite tickslock_unlinked_np tickslock_unlinked_pn tickslock_pushed
  ticks_unlinked_np ticks_unlinked_pn ticks_pushed tickslock_set_bucket : st.

Lemma relinked_ticks cur bk temp s :
  ticks (relinked cur bk temp s) = ticks s /\
  tickslock (relinked cur bk temp s) = tickslock s.
Proof.
  unfold relinked. destruct (Nat.eqb bk cur); [auto|]. now autorewrite with st.
Qed.

(** [bget_reuse] up to the point where it takes the block lock. *)
Lemma bget_reuse_run c dv bn cur bk temp s :
  tickslock s = None ->
  bget_reuse c dv bn cur bk temp s =
  (acquiresleep c temp ;; ret temp) (reused dv bn cur bk temp s).
Proof.
  intros Ht. unfold bget_reuse, reused.
  destruct (relinked_ticks cur bk temp s) as [E1 E2].
  assert (Hrel : (if negb (Nat.eqb bk cur) then
     tp <- get prev temp ;; tn <- get next temp ;; set with_next tp tn ;;
     tn <- get next temp ;; tp <- get prev temp ;; set with_prev tn tp ;;
     release (BucketLock bk) ;;
     hn <- get next (Head cur) ;; set with_next temp hn ;;
     set with_prev temp (Head cur) ;;
     hn <- get next (Head cur) ;; set with_prev hn temp ;;
     set with_next (Head cur) temp
   else ret tt) s = Done tt (relinked cur bk temp s)).
  { unfold relinked. destruct (Nat.eqb bk cur); reflexivity. }
  unfold bind at 1. rewrite Hrel.
  do 4 (unfold bind at 1; unfold set at 1).
  unfold bind at 1. rewrite stamp_free by (autorewrite with st; congruence).
  unfold bind at 1. unfold release at 1. autorewrite with st.
  f_equal. f_equal. rewrite !assign_assign. apply assign_ext.
  rewrite E1. reflexivity.
Qed.

Lemma rot_lt cur j : (rot cur j < BUCKET_SIZE)%nat.
Proof. unfold rot. apply Nat.mod_upper_bound. discriminate. Qed.

Section Loop.
Variables (fuel : nat) (c : ctx) (dv bn : Z) (cur : nat).
Variables (s : state) (L : nat -> list nat).
Hypothesis HR : rings s L.
Hypothesis Hfuel : (length (bcache_buf s) < fuel)%nat.

Lemma recycle_skip n j temp tt :
  rot cur j <> cur ->
  holding (lock_of s (BucketLock (rot cur j))) (cpu c) = true ->
  bget_recycle fuel c dv bn cur (S n) j temp tt s =
  bget_recycle fuel c dv bn cur n (S j) temp tt s.
Proof.
  intros Hne Hh. cbn [bget_recycle]. fold (rot cur j).
  destruct (Nat.eqb_spec (rot cur j) cur) as [|_]; [contradiction|]. cbn [negb].
  run. rewrite Hh. reflexivity.
Qed.

Lemma recycle_spin n j temp tt o :
  rot cur j <> cur ->
  lock_of s (BucketLock (rot cur j)) = Some o -> o <> cpu c ->
  bget_recycle fuel c dv bn cur (S n) j temp tt s = Spin (BucketLock (rot cur j)) s.
Proof.
  intros Hne Hl Ho. cbn [bget_recycle]. fold (rot cur j).
  destruct (Nat.eqb_spec (rot cur j) cur) as [|_]; [contradiction|]. cbn [negb].
  unfold bind at 1. unfold bind at 1. unfold holding_bucket at 1. rewrite Hl.
  cbn [holding]. destruct (Nat.eqb_spec o (cpu c)) as [|_]; [contradiction|]. cbn [negb].
  unfold bind at 1. now rewrite (acquire_held _ _ _ o).
Qed.

(** An iteration that walks its bucket. *)
Lemma recycle_walk n j temp tt :
  rot cur j = cur \/ lock_of s (BucketLock (rot cur j)) = None ->
  bget_recycle fuel c dv bn cur (S n) j temp tt s =
  let found := scan_list s (L (rot cur j)) temp tt in
  if negb (ptr_eqb (fst found) Null)
  then bget_reuse c dv bn cur (rot cur j) (fst found)
         (if Nat.eqb (rot cur j) cur then s
          else set_lock (BucketLock (rot cur j)) (Some (cpu c)) s)
  else bget_recycle fuel c dv bn cur n (S j) (fst found) (snd found) s.
Proof.
  intros Hl. cbn [bget_recycle]. fold (rot cur j).
  pose proof (rot_lt cur j) as Hlt.
  pose proof (rings_length s L (rot cur j) HR) as Hlen.
  destruct (Nat.eqb_spec (rot cur j) cur) as [E|Hne]; cbn [negb].
  - unfold bind at 1. unfold ret at 1. cbv iota beta.
    unfold bind at 1. unfold get at 1.
    unfold bind at 1.
    rewrite (bget_scan_ring s (rot cur j) (L (rot cur j))); [| now apply (r_ring _ _ HR) | lia].
    cbv zeta. destruct (ptr_eqb (fst (scan_list s (L (rot cur j)) temp tt)) Null); cbn [negb].
    + unfold bind at 1. unfold ret at 1. reflexivity.
    + reflexivity.
  - destruct Hl as [|Hl]; [contradiction|].
    unfold bind at 1. unfold bind at 1. unfold holding_bucket at 1. rewrite Hl.
    cbn [holding negb]. unfold bind at 1. rewrite acquire_free by exact Hl.
    unfold ret at 1. cbv iota beta.
    set (s1 := set_lock (BucketLock (rot cur j)) (Some (cpu c)) s).
    assert (HR1 : rings s1 L) by now apply rings_set_lock.
    unfold bind at 1. unfold get at 1.
    unfold bind at 1.
    rewrite (bget_scan_ring s1 (rot cur j) (L (rot cur j)));
      [| now apply (r_ring _ _ HR1) | lia].
    rewrite (scan_list_ext s s1) by (intros; unfold s1; now autorewrite with st).
    cbv zeta. destruct (ptr_eqb (fst (scan_list s (L (rot cur j)) temp tt)) Null); cbn [negb].
    + unfold bind at 1. unfold release at 1. unfold s1.
      rewrite set_lock_restore by exact Hl. reflexivity.
    + reflexivity.
Qed.

(** Iterations that pass leave the state and the (absent) candidate as
    they were. *)
Lemma recycle_pass m : forall n j,
  (forall j', (j <= j' < j + m)%nat -> passes s c L cur j') ->
  bget_recycle fuel c dv bn cur (m + n) j Null 0 s =
  bget_recycle fuel c dv bn cur n (j + m) Null 0 s.
Proof.
  induction m as [|m IH]; intros n j Hp.
  - now rewrite Nat.add_0_r.
  - replace (j + S m)%nat with (S j + m)%nat by lia.
    rewrite <- IH by (intros j' Hj'; apply Hp; lia).
    change (S m + n)%nat with (S (m + n)).
    destruct (Hp j) as [[Hne Hh]|[Hl Hfree]]; [lia| |].
    + now apply recycle_skip.
    + rewrite recycle_walk by exact Hl. cbv zeta.
      rewrite scan_list_none by exact Hfree. reflexivity.
Qed.

End Loop.

Lemma unlinked_np_set_lock b l v s :
  unlinked_np b (set_lock l v s) = set_lock l v (unlinked_np b s).
Proof.
  unfold unlinked_np. cbv zeta.
  rewrite !deref_set_lock, assign_set_lock, !deref_set_lock, assign_set_lock.
  reflexivity.
Qed.

Lemma pushed_set_lock k b l v s :
  pushed k b (set_lock l v s) = set_lock l v (pushed k b s).
Proof.
  unfold pushed. cbv zeta.
  rewrite !deref_set_lock, assign_set_lock, assign_set_lock, !deref_set_lock,
    assign_set_lock, assign_set_lock.
  reflexivity.
Qed.

Lemma set_lock_same l s : set_lock l (lock_of s l) s = s.
Proof.
  destruct l; simpl.
  - rewrite upd_same. apply state_eta.
  - apply state_eta.
Qed.

Lemma set_lock_comm l l' v v' s :
  l <> l' -> set_lock l v (set_lock l' v' s) = set_lock l' v' (set_lock l v s).
Proof.
  destruct l as [k|], l' as [k'|]; simpl; intros H; try reflexivity; try congruence.
  f_equal. assert (Hk : k <> k') by congruence. clear H.
  revert k k' Hk. induction (bcache_lock s) as [|x t IH]; intros [|k] [|k'] Hk; simpl;
    try reflexivity; try congruence.
  f_equal. apply IH. congruence.
Qed.

Lemma bucket_of_lt bn : (bucket_of bn < BUCKET_SIZE)%nat.
Proof.
  unfold bucket_of, BUCKET_SIZE.
  pose proof (Z.mod_pos_bound bn (Z.of_nat 13) ltac:(lia)). lia.
Qed.

Lemma rot_0 cur : (cur < BUCKET_SIZE)%nat -> rot cur 0 = cur.
Proof. intros H. unfold rot. rewrite Nat.add_0_r. now apply Nat.mod_small. Qed.

Lemma rot_home cur j :
  (cur < BUCKET_SIZE)%nat -> (j < BUCKET_SIZE)%nat -> rot cur j = cur -> j = 0%nat.
Proof.
  unfold rot, BUCKET_SIZE. intros Hc Hj.
  destruct (Nat.lt_ge_cases (cur + j) 13) as [H|H].
  - rewrite Nat.mod_small by exact H. lia.
  - replace (cur + j)%nat with ((cur + j - 13) + 1 * 13)%nat by lia.
    rewrite Nat.Div0.mod_add. rewrite Nat.mod_small by lia. lia.
Qed.

Lemma lock_of_frame s s' l :
  bcache_lock s' = bcache_lock s -> tickslock s' = tickslock s ->
  lock_of s' l = lock_of s l.
Proof. destruct l; simpl; congruence. Qed.

Lemma lock_of_unlinked_np b s l : lock_of (unlinked_np b s) l = lock_of s l.
Proof. apply lock_of_frame; apply unlinked_np_frame. Qed.

Lemma lock_of_unlinked_pn b s l : lock_of (unlinked_pn b s) l = lock_of s l.
Proof. apply lock_of_frame; apply unlinked_pn_frame. Qed.

Lemma lock_of_pushed k b s l : lock_of (pushed k b s) l = lock_of s l.
Proof. apply lock_of_frame; apply pushed_frame. Qed.

#[export] Hint Rewrite lock_of_unlinked_np lock_of_unlinked_pn lock_of_pushed : st.

Lemma set_lock_none_id l s : lock_of s l = None -> set_lock l None s = s.
Proof. intros H. rewrite <- H. apply set_lock_same. Qed.

(** The locks are back as they were when [bget_reuse] gets to the block
    lock. *)
Lemma reused_recycled c dv bn cur bk temp s :
  lock_of s (BucketLock cur) = None ->
  bk = cur \/ lock_of s (BucketLock bk) = None ->
  reused dv bn cur bk temp
    (if Nat.eqb bk cur then set_lock (BucketLock cur) (Some (cpu c)) s
     else set_lock (BucketLock bk) (Some (cpu c))
            (set_lock (BucketLock cur) (Some (cpu c)) s)) =
  recycled dv bn cur bk temp s.
Proof.
  intros Hcur Hbk. unfold reused, recycled, relinked.
  destruct (Nat.eqb_spec bk cur) as [->|Hne].
  - rewrite ticks_set_lock, assign_set_lock.
    apply set_lock_restore. now rewrite lock_of_assign.
  - destruct Hbk as [|Hbk]; [contradiction|].
    rewrite !ticks_set_lock.
    rewrite !unlinked_np_set_lock, set_lock_set_lock.
    rewrite (set_lock_comm (BucketLock bk) (BucketLock cur)) by congruence.
    rewrite (set_lock_none_id (BucketLock bk)) by (now autorewrite with st).
    rewrite pushed_set_lock, assign_set_lock.
    apply set_lock_restore. now autorewrite with st.
Qed.

Lemma find_pointwise {A} (f g : A -> bool) l :
  (forall x, f x = g x) -> find f l = find g l.
Proof.
  intros H. induction l as [|x l IH]; simpl; [reflexivity|]. now rewrite H, IH.
Qed.

Section Get.
Variables (fuel : nat) (c : ctx) (dv bn : Z).
Variables (s : state) (L : nat -> list nat).
Hypothesis HR : rings s L.
Hypothesis Hfuel : (length (bcache_buf s) < fuel)%nat.

Local Abbreviation cur := (bucket_of bn).
Local Abbreviation s1 := (set_lock (BucketLock cur) (Some (cpu c)) s).


Hypothesis Hhome : lock_of s (BucketLock cur) = None.

Lemma bget_entry :
  bget fuel c dv bn s =
  match find (matches s dv bn) (L cur) with
  | Some v =>
      (rc <- get refcnt (Buf v) ;;
       set with_refcnt (Buf v) (wrap32 (rc + 1)) ;;
       stamp c (Buf v) ;;
       release (BucketLock cur) ;;
       acquiresleep c (Buf v) ;;
       ret (Buf v)) s1
  | None => bget_recycle fuel c dv bn cur BUCKET_SIZE 0 Null 0 s1
  end.
Proof.
  unfold bget. unfold bind at 1. rewrite acquire_free by exact Hhome.
  unfold bind at 1. unfold get at 1. unfold bind at 1.
  assert (HR1 : rings s1 L) by now apply rings_set_lock.
  pose proof (rings_length s L cur HR) as Hlen.
  rewrite (bget_find_ring s1 cur dv bn (L cur));
    [| apply (r_ring _ _ HR1), bucket_of_lt | lia].
  replace (find (matches s1 dv bn) (L cur)) with (find (matches s dv bn) (L cur)).
  - destruct (find (matches s dv bn) (L cur)); reflexivity.
  - apply find_pointwise. intros i. unfold matches. now rewrite deref_set_lock.
Qed.

(** A hit, up to the block lock. *)
Lemma bget_hit v :
  tickslock s = None ->
  find (matches s dv bn) (L cur) = Some v ->
  bget fuel c dv bn s =
  (acquiresleep c (Buf v) ;; ret (Buf v)) (assign (Buf v) (rehit (ticks s)) s).
Proof.
  intros Ht Hf. rewrite bget_entry, Hf.
  unfold bind at 1. unfold get at 1. unfold bind at 1. unfold set at 1.
  unfold bind at 1. rewrite stamp_free by (now autorewrite with st).
  unfold bind at 1. unfold release at 1.
  f_equal. autorewrite with st. rewrite assign_assign. rewrite !assign_set_lock.
  rewrite set_lock_restore by (now rewrite lock_of_assign). reflexivity.
Qed.

Lemma passes_s1 j : passes s c L cur j -> passes s1 c L cur j.
Proof.
  unfold passes. cbv zeta. intros [[Hne Hh]|[Hl Hfree]].
  - left. split; auto. rewrite lock_of_set_lock_ne by congruence. exact Hh.
  - right. split.
    + destruct Hl as [|Hl]; auto.
      destruct (Nat.eq_dec (rot cur j) cur) as [|Hne]; auto.
      right. rewrite lock_of_set_lock_ne by congruence. exact Hl.
    + intros i Hi. rewrite deref_set_lock. now apply Hfree.
Qed.

(** A miss that finds every bucket without a free buffer. *)
Lemma bget_miss_panic :
  find (matches s dv bn) (L cur) = None ->
  (forall j, (j < BUCKET_SIZE)%nat -> passes s c L cur j) ->
  bget fuel c dv bn s = Panic "bget: no buffers".
Proof.
  intros Hf Hp. rewrite bget_entry, Hf.
  replace BUCKET_SIZE with (BUCKET_SIZE + 0)%nat at 1 by lia.
  rewrite (recycle_pass fuel c dv bn cur s1 L).
  - reflexivity.
  - now apply rings_set_lock.
  - now rewrite bcache_buf_set_lock.
  - intros j Hj. apply passes_s1, Hp. lia.
Qed.

(** A miss that runs into a bucket locked by another CPU. *)
Lemma bget_miss_spin j o :
  find (matches s dv bn) (L cur) = None ->
  (j < BUCKET_SIZE)%nat ->
  (forall j', (j' < j)%nat -> passes s c L cur j') ->
  rot cur j <> cur ->
  lock_of s (BucketLock (rot cur j)) = Some o -> o <> cpu c ->
  bget fuel c dv bn s = Spin (BucketLock (rot cur j)) s1.
Proof.
  intros Hf Hj Hp Hne Hl Ho. rewrite bget_entry, Hf.
  replace BUCKET_SIZE with (j + S (BUCKET_SIZE - S j))%nat at 1 by lia.
  rewrite (recycle_pass fuel c dv bn cur s1 L).
  - cbn [Nat.add]. apply (recycle_spin _ _ _ _ _ _ _ _ _ _ o); auto.
    rewrite lock_of_set_lock_ne by congruence. exact Hl.
  - now apply rings_set_lock.
  - now rewrite bcache_buf_set_lock.
  - intros j' Hj'. apply passes_s1, Hp. lia.
Qed.

(** A miss that finds a free buffer, up to the block lock. *)
Lemma bget_miss_found j v t :
  tickslock s = None ->
  find (matches s dv bn) (L cur) = None ->
  (j < BUCKET_SIZE)%nat ->
  (forall j', (j' < j)%nat -> passes s c L cur j') ->
  rot cur j = cur \/ lock_of s (BucketLock (rot cur j)) = None ->
  scan_list s (L (rot cur j)) Null 0 = (Buf v, t) ->
  bget fuel c dv bn s =
  (acquiresleep c (Buf v) ;; ret (Buf v))
    (recycled dv bn cur (rot cur j) (Buf v) s).
Proof.
  intros Ht Hf Hj Hp Hl Hscan. rewrite bget_entry, Hf.
  assert (HR1 : rings s1 L) by now apply rings_set_lock.
  replace BUCKET_SIZE with (j + S (BUCKET_SIZE - S j))%nat at 1 by lia.
  rewrite (recycle_pass fuel c dv bn cur s1 L);
    [ | exact HR1 | now rewrite bcache_buf_set_lock
      | intros j' Hj'; apply passes_s1, Hp; lia ].
  cbn [Nat.add].
  rewrite (recycle_walk fuel c dv bn cur s1 L);
    [ | exact HR1 | now rewrite bcache_buf_set_lock | ].
  2:{ destruct Hl as [Hl|Hl]; auto.
      destruct (Nat.eq_dec (rot cur j) cur) as [|Hne]; auto.
      right. rewrite lock_of_set_lock_ne by congruence. exact Hl. }
  cbv zeta. rewrite (scan_list_ext s s1) by (intros; now rewrite deref_set_lock).
  rewrite Hscan. cbn [fst ptr_eqb negb].
  rewrite bget_reuse_run.
  2:{ destruct (Nat.eqb (rot cur j) cur); now autorewrite with st. }
  rewrite reused_recycled; auto.
Qed.

End Get.

Lemma unlinked_pn_set_lock b l v s :
  unlinked_pn b (set_lock l v s) = set_lock l v (unlinked_pn b s).
Proof.
  unfold unlinked_pn. cbv zeta.
  rewrite !deref_set_lock, assign_set_lock, !deref_set_lock, assign_set_lock.
  reflexivity.
Qed.

Lemma assign_id p f s : f (deref s p) = deref s p -> assign p f s = s.
Proof.
  destruct p; simpl; intros H; [reflexivity| |]; rewrite H, upd_same; apply state_eta.
Qed.

Lemma holdingsleep_run c b s :
  holdingsleep c b s =
  Done (match lock (deref s b) with Some p => Nat.eqb p (pid c) | None => false end) s.
Proof. reflexivity. Qed.

Lemma holdingsleep_true c b s :
  lock (deref s b) = Some (pid c) -> holdingsleep c b s = Done true s.
Proof. intros H. rewrite holdingsleep_run, H. now rewrite Nat.eqb_refl. Qed.

Lemma holdingsleep_false c b s :
  lock (deref s b) <> Some (pid c) -> holdingsleep c b s = Done false s.
Proof.
  intros H. rewrite holdingsleep_run. destruct (lock (deref s b)) as [p|]; auto.
  destruct (Nat.eqb_spec p (pid c)); congruence.
Qed.

(** ** bpin, bunpin *)

Lemma bpin_run c b s :
  lock_of s (BucketLock (bucket_of (blockno (deref s b)))) = None ->
  bpin c b s = Done tt (assign b (with_refcnt (wrap32 (refcnt (deref s b) + 1))) s).
Proof.
  intros H. unfold bpin. unfold bind at 1. unfold get at 1.
  unfold bind at 1. rewrite acquire_free by exact H. run.
  rewrite deref_set_lock, assign_set_lock.
  rewrite set_lock_restore by (now rewrite lock_of_assign). reflexivity.
Qed.

Lemma bunpin_run c b s :
  lock_of s (BucketLock (bucket_of (blockno (deref s b)))) = None ->
  bunpin c b s = Done tt (assign b (with_refcnt (wrap32 (refcnt (deref s b) - 1))) s).
Proof.
  intros H. unfold bunpin. unfold bind at 1. unfold get at 1.
  unfold bind at 1. rewrite acquire_free by exact H. run.
  rewrite deref_set_lock, assign_set_lock.
  rewrite set_lock_restore by (now rewrite lock_of_assign). reflexivity.
Qed.

Lemma wrap32_add_l a b : wrap32 (wrap32 a + b) = wrap32 (a + b).
Proof. unfold wrap32. apply Z.add_mod_idemp_l. lia. Qed.

Lemma wrap32_small a : 0 <= a < 2 ^ 32 -> wrap32 a = a.
Proof. intros H. unfold wrap32. now apply Z.mod_small. Qed.

Lemma wrap32_range a : 0 <= wrap32 a < 2 ^ 32.
Proof. unfold wrap32. apply Z.mod_pos_bound. lia. Qed.

(** A run of pins and unpins adds their difference to the count. *)
Lemma pin_calls_run c b l : forall s (d : Z),
  inrange s b ->
  lock_of s (BucketLock (bucket_of (blockno (deref s b)))) = None ->
  pin_calls c b l (assign b (with_refcnt (wrap32 (refcnt (deref s b) + d))) s) =
  Done tt (assign b (with_refcnt (wrap32 (refcnt (deref s b) + d + balance l))) s).
Proof.
  induction l as [|o l IH]; intros s d Hb Hl.
  - cbn [pin_calls balance]. unfold ret. now rewrite Z.add_0_r.
  - set (S := assign b (with_refcnt (wrap32 (refcnt (deref s b) + d))) s).
    assert (Hbn : blockno (deref S b) = blockno (deref s b)).
    { unfold S. now rewrite (deref_assign_proj blockno). }
    assert (HlS : lock_of S (BucketLock (bucket_of (blockno (deref S b)))) = None).
    { rewrite Hbn. unfold S. now rewrite lock_of_assign. }
    assert (Hrc : refcnt (deref S b) = wrap32 (refcnt (deref s b) + d)).
    { unfold S. now rewrite deref_assign_eq. }
    destruct o; cbn [pin_calls balance]; unfold bind at 1.
    + rewrite bpin_run by exact HlS. rewrite Hrc, wrap32_add_l.
      unfold S. rewrite assign_assign.
      rewrite (assign_ext b _ (with_refcnt (wrap32 (refcnt (deref s b) + (d + 1))))).
      * rewrite IH by assumption. do 4 f_equal. lia.
      * cbv beta. unfold with_refcnt. cbn. f_equal. f_equal. lia.
    + rewrite bunpin_run by exact HlS. rewrite Hrc, <- Z.add_opp_r, wrap32_add_l.
      unfold S. rewrite assign_assign.
      rewrite (assign_ext b _ (with_refcnt (wrap32 (refcnt (deref s b) + (d - 1))))).
      * rewrite IH by assumption. do 4 f_equal. lia.
      * cbv beta. unfold with_refcnt. cbn. f_equal. f_equal. lia.
Qed.

Lemma with_refcnt_same x : with_refcnt (refcnt x) x = x.
Proof. destruct x; reflexivity. Qed.

Lemma wrap32_succ_ne r : wrap32 (r + 1) <> r.
Proof.
  unfold wrap32. intros E.
  pose proof (Z.mod_pos_bound (r + 1) (2 ^ 32) ltac:(lia)) as Hb.
  destruct (Z_lt_dec (r + 1) (2 ^ 32)) as [Hlt|Hge].
  - rewrite Z.mod_small in E by lia. lia.
  - assert (r = 2 ^ 32 - 1) by lia. subst r. now vm_compute in E.
Qed.

Lemma wrap32_pred_ne r : wrap32 (r - 1) <> r.
Proof.
  unfold wrap32. intros E.
  pose proof (Z.mod_pos_bound (r - 1) (2 ^ 32) ltac:(lia)) as Hb.
  destruct (Z_le_dec 1 r) as [Hle|Hlt].
  - rewrite Z.mod_small in E by lia. lia.
  - assert (r = 0) by lia. subst r. now vm_compute in E.
Qed.

Lemma balance_app l1 l2 : balance (l1 ++ l2) = balance l1 + balance l2.
Proof.
  induction l1 as [|[|] l1 IH]; cbn [app balance]; [reflexivity| |]; rewrite IH; lia.
Qed.

Lemma balance_pins n : balance (repeat Pin n) = Z.of_nat n.
Proof. induction n as [|n IH]; cbn [repeat balance]; [reflexivity|]. rewrite IH. lia. Qed.

Lemma balance_unpins n : balance (repeat Unpin n) = - Z.of_nat n.
Proof. induction n as [|n IH]; cbn [repeat balance]; [reflexivity|]. rewrite IH. lia. Qed.

Lemma pin_calls_app c b l1 : forall l2 s,
  pin_calls c b (l1 ++ l2) s =
  match pin_calls c b l1 s with
  | Done _ s1 => pin_calls c b l2 s1
  | Panic msg => Panic msg
  | Spin l s1 => Spin l s1
  | Sleep p s1 => Sleep p s1
  | OutOfFuel => OutOfFuel
  end.
Proof.
  induction l1 as [|[|] l1 IH]; intros l2 s; cbn [app pin_calls].
  - reflexivity.
  - unfold bind. destruct (bpin c b s); auto.
  - unfold bind. destruct (bunpin c b s); auto.
Qed.

(** What a run of pins and unpins leaves, field by field. *)
Lemma pin_calls_fields c i l s :
  (i < length (bcache_buf s))%nat ->
  lock_of s (BucketLock (bucket_of (blockno (deref s (Buf i))))) = None ->
  0 <= refcnt (deref s (Buf i)) < 2 ^ 32 ->
  exists s',
    pin_calls c (Buf i) l s = Done tt s' /\
    refcnt (deref s' (Buf i)) = wrap32 (refcnt (deref s (Buf i)) + balance l) /\
    lock (deref s' (Buf i)) = lock (deref s (Buf i)) /\
    valid (deref s' (Buf i)) = valid (deref s (Buf i)) /\
    dev (deref s' (Buf i)) = dev (deref s (Buf i)) /\
    blockno (deref s' (Buf i)) = blockno (deref s (Buf i)) /\
    used_tick (deref s' (Buf i)) = used_tick (deref s (Buf i)) /\
    data (deref s' (Buf i)) = data (deref s (Buf i)) /\
    prev (deref s' (Buf i)) = prev (deref s (Buf i)) /\
    next (deref s' (Buf i)) = next (deref s (Buf i)) /\
    (forall q, q <> Buf i -> deref s' q = deref s q) /\
    (forall k, lock_of s' k = lock_of s k) /\
    ticks s' = ticks s /\ disk s' = disk s.
Proof.
  intros Hi Hl Hrc.
  assert (E : assign (Buf i) (with_refcnt (wrap32 (refcnt (deref s (Buf i)) + 0))) s = s).
  { apply assign_id. rewrite Z.add_0_r, wrap32_small by exact Hrc.
    apply with_refcnt_same. }
  exists (assign (Buf i)
            (with_refcnt (wrap32 (refcnt (deref s (Buf i)) + 0 + balance l))) s).
  split.
  { rewrite <- E at 1. now apply pin_calls_run. }
  rewrite deref_assign_eq by exact Hi. rewrite Z.add_0_r.
  do 9 (split; [reflexivity|]).
  split; [intros q Hq; apply deref_assign_ne; congruence|].
  split; [intros k; apply lock_of_assign|].
  split; [apply ticks_assign | apply disk_assign].
Qed.

(** C10.  [bpin] adds one to the reference count and [bunpin] takes one
    off, modulo [2^32], once the lock of the buffer's home bucket is theirs
    (they wait while it is held, and have changed nothing by then);
    nothing else in the cache changes, the block lock included.  A run of
    the two calls on one buffer adds the number of its pins less that of
    its unpins to the count: with as many pins as unpins, in any order,
    and so with [n] pins and then [n] unpins, it leaves the cache as it
    found it, while a single call always changes the count. *)
Theorem bpin_bunpin_balance c i s :
  (i < length (bcache_buf s))%nat ->
  let b := Buf i in
  let home := BucketLock (bucket_of (blockno (deref s b))) in
  (forall o, lock_of s home = Some o ->
     bpin c b s = Spin home s /\ bunpin c b s = Spin home s) /\
  (lock_of s home = None ->
     bpin c b s = Done tt (assign b (with_refcnt (wrap32 (refcnt (deref s b) + 1))) s) /\
     bunpin c b s = Done tt (assign b (with_refcnt (wrap32 (refcnt (deref s b) - 1))) s) /\
     forall l, balance l = 0 -> 0 <= refcnt (deref s b) < 2 ^ 32 ->
       pin_calls c b l s = Done tt s) /\
  (* the count after one call *)
  (lock_of s home = None ->
     exists sp su,
       bpin c b s = Done tt sp /\ bunpin c b s = Done tt su /\
       refcnt (deref sp b) = wrap32 (refcnt (deref s b) + 1) /\
       refcnt (deref su b) = wrap32 (refcnt (deref s b) - 1) /\
       refcnt (deref sp b) <> refcnt (deref s b) /\
       refcnt (deref su b) <> refcnt (deref s b) /\
       lock (deref sp b) = lock (deref s b) /\ lock (deref su b) = lock (deref s b)) /\
  (* the cache after a run of calls *)
  (lock_of s home = None -> 0 <= refcnt (deref s b) < 2 ^ 32 ->
     forall l, exists s',
       pin_calls c b l s = Done tt s' /\
       refcnt (deref s' b) = wrap32 (refcnt (deref s b) + balance l) /\
       lock (deref s' b) = lock (deref s b) /\
       valid (deref s' b) = valid (deref s b) /\
       dev (deref s' b) = dev (deref s b) /\
       blockno (deref s' b) = blockno (deref s b) /\
       used_tick (deref s' b) = used_tick (deref s b) /\
       data (deref s' b) = data (deref s b) /\
       prev (deref s' b) = prev (deref s b) /\
       next (deref s' b) = next (deref s b) /\
       (forall q, q <> b -> deref s' q = deref s q) /\
       (forall k, lock_of s' k = lock_of s k) /\
       ticks s' = ticks s /\ disk s' = disk s) /\
  (* [n] pins, then [n] unpins *)
  (lock_of s home = None -> 0 <= refcnt (deref s b) < 2 ^ 32 ->
     forall n, exists s',
       pin_calls c b (repeat Pin n) s = Done tt s' /\
       refcnt (deref s' b) = wrap32 (refcnt (deref s b) + Z.of_nat n) /\
       pin_calls c b (repeat Unpin n) s' = Done tt s /\
       pin_calls c b (repeat Pin n ++ repeat Unpin n) s = Done tt s).
Proof.
  intros Hi b home.
  assert (Hold : lock_of s home = None ->
     bpin c b s = Done tt (assign b (with_refcnt (wrap32 (refcnt (deref s b) + 1))) s) /\
     bunpin c b s = Done tt (assign b (with_refcnt (wrap32 (refcnt (deref s b) - 1))) s) /\
     forall l, balance l = 0 -> 0 <= refcnt (deref s b) < 2 ^ 32 ->
       pin_calls c b l s = Done tt s).
  { intros Hl. split; [now apply bpin_run|]. split; [now apply bunpin_run|].
    intros l Hbal Hrc.
    assert (E : assign b (with_refcnt (wrap32 (refcnt (deref s b) + 0))) s = s).
    { apply assign_id. rewrite Z.add_0_r, wrap32_small by exact Hrc.
      apply with_refcnt_same. }
    rewrite <- E at 1. rewrite pin_calls_run by (exact Hi || exact Hl).
    rewrite Hbal, Z.add_0_r. now rewrite E. }
  split; [|split; [exact Hold|split; [|split]]].
  - intros o Ho. subst b home.
    split; [unfold bpin|unfold bunpin]; unfold bind at 1; unfold get at 1;
      unfold bind at 1; now rewrite (acquire_held _ _ _ o).
  - intros Hl. destruct (Hold Hl) as (Ep & Eu & _).
    eexists _, _. split; [exact Ep|]. split; [exact Eu|].
    rewrite !deref_assign_eq by exact Hi.
    split; [reflexivity|]. split; [reflexivity|].
    split; [apply wrap32_succ_ne|]. split; [apply wrap32_pred_ne|].
    split; reflexivity.
  - intros Hl Hrc l. now apply pin_calls_fields.
  - intros Hl Hrc n.
    destruct (pin_calls_fields c i (repeat Pin n) s Hi Hl Hrc)
      as (s' & E & Hr' & _ & _ & _ & Hbn' & _ & _ & _ & _ & _ & Hlk' & _).
    exists s'. split; [exact E|]. rewrite balance_pins in Hr'. split; [exact Hr'|].
    assert (Eall : pin_calls c b (repeat Pin n ++ repeat Unpin n) s = Done tt s).
    { apply Hold; auto. rewrite balance_app, balance_pins, balance_unpins. lia. }
    split; [|exact Eall].
    rewrite pin_calls_app in Eall. fold b in E. now rewrite E in Eall.
Qed.

(** ** bwrite *)

(** C9.  [bwrite] panics unless the caller holds the block lock of the
    buffer; when it does, the data of the buffer go to its block on the
    disk, and the cache (the locks, every field of every buffer, the
    lists) and the tick counter are as before. *)
Theorem bwrite_spec c b s :
  (lock (deref s b) <> Some (pid c) -> bwrite c b s = Panic "bwrite") /\
  (lock (deref s b) = Some (pid c) ->
   exists s',
     bwrite c b s = Done tt s' /\
     bcache_lock s' = bcache_lock s /\
     bcache_buf s' = bcache_buf s /\
     bcache_head s' = bcache_head s /\
     ticks s' = ticks s /\ tickslock s' = tickslock s /\
     disk s' (dev (deref s b)) (blockno (deref s b)) = data (deref s b) /\
     forall d n, (d, n) <> (dev (deref s b), blockno (deref s b)) ->
       disk s' d n = disk s d n).
Proof.
  split; intros H; unfold bwrite; unfold bind at 1.
  - now rewrite holdingsleep_false.
  - rewrite holdingsleep_true by exact H. cbn [negb]. unfold virtio_disk_rw.
    eexists. split; [reflexivity|]. cbn [bcache_lock bcache_buf bcache_head ticks tickslock disk].
    do 5 (split; [reflexivity|]). split.
    + now rewrite !Z.eqb_refl.
    + intros d n Hne.
      destruct (Z.eqb_spec d (dev (deref s b))), (Z.eqb_spec n (blockno (deref s b)));
        cbn [andb]; congruence.
Qed.

(** [brelse] by the holder of the block lock, with the spinlocks free. *)
Lemma brelse_run c b s :
  inrange s b ->
  lock (deref s b) = Some (pid c) ->
  lock_of s (BucketLock (bucket_of (blockno (deref s b)))) = None ->
  tickslock s = None ->
  brelse c b s =
  Done tt
    (let s2 := assign b (released (ticks s)) s in
     if wrap32 (refcnt (deref s b) - 1) =? 0
     then pushed (bucket_of (blockno (deref s b))) b (unlinked_pn b s2)
     else s2).
Proof.
  intros Hb Hlk Hhome Ht. unfold brelse.
  unfold bind at 1. rewrite holdingsleep_true by exact Hlk. cbn [negb].
  unfold bind at 1. unfold releasesleep, set at 1.
  unfold bind at 1. unfold get at 1.
  rewrite (deref_assign_proj blockno) by reflexivity.
  set (k := bucket_of (blockno (deref s b))) in *.
  unfold bind at 1. rewrite acquire_free by (now rewrite lock_of_assign).
  unfold bind at 1. unfold get at 1. rewrite deref_set_lock.
  rewrite (deref_assign_proj refcnt) by reflexivity.
  unfold bind at 1. unfold set at 1.
  unfold bind at 1. rewrite stamp_free by (now autorewrite with st).
  autorewrite with st.
  rewrite !assign_set_lock, !assign_assign.
  rewrite (assign_ext b _ (released (ticks s))) by reflexivity.
  set (s2 := assign b (released (ticks s)) s).
  unfold bind at 1. unfold get at 1. rewrite deref_set_lock.
  assert (Hrc : refcnt (deref s2 b) = wrap32 (refcnt (deref s b) - 1)).
  { unfold s2. now rewrite deref_assign_eq. }
  rewrite Hrc. cbv zeta.
  assert (Hl2 : lock_of s2 (BucketLock k) = None).
  { unfold s2. now rewrite lock_of_assign. }
  destruct (wrap32 (refcnt (deref s b) - 1) =? 0).
  - unfold bind at 1.
    change ((bnx <- get next b ;; bpv <- get prev b ;; set with_prev bnx bpv ;;
             bpv <- get prev b ;; bnx <- get next b ;; set with_next bpv bnx ;;
             hn <- get next (Head k) ;; set with_next b hn ;;
             set with_prev b (Head k) ;;
             hn <- get next (Head k) ;; set with_prev hn b ;;
             set with_next (Head k) b)
            (set_lock (BucketLock k) (Some (cpu c)) s2))
      with (Done tt (pushed k b (unlinked_pn b (set_lock (BucketLock k) (Some (cpu c)) s2)))).
    cbv iota beta. unfold release.
    rewrite unlinked_pn_set_lock, pushed_set_lock.
    rewrite set_lock_restore by (now autorewrite with st). reflexivity.
  - unfold bind at 1. unfold ret. cbv iota beta. unfold release.
    now rewrite set_lock_restore.
Qed.

Lemma link_blind_intro {A : Type} (g : buf -> A) :
  (forall v b, g (with_next v b) = g b) -> (forall v b, g (with_prev v b) = g b) ->
  link_blind g.
Proof. now split. Qed.

Lemma link_blind_meta : link_blind meta.
Proof. now split. Qed.

Lemma rings_assign s L p f :
  rings s L -> (forall x, next (f x) = next x) -> (forall x, prev (f x) = prev x) ->
  rings (assign p f s) L.
Proof.
  intros HR Hn Hp. apply (rings_ext s); auto; autorewrite with st; auto.
  - intros q. now apply (deref_assign_proj next).
  - intros q. now apply (deref_assign_proj prev).
Qed.

Lemma locked_inrange s i p :
  lock (deref s (Buf i)) = Some p -> (i < length (bcache_buf s))%nat.
Proof.
  intros H. destruct (Nat.lt_ge_cases i (length (bcache_buf s))) as [Hi|Hi]; [exact Hi|].
  cbn [deref] in H. rewrite nth_overflow in H by exact Hi. discriminate H.
Qed.

(** [brelse] while the lock of the home bucket is held: it waits for it,
    with the block lock let go already. *)
Lemma brelse_home_held c b s o :
  lock (deref s b) = Some (pid c) ->
  lock_of s (BucketLock (bucket_of (blockno (deref s b)))) = Some o ->
  brelse c b s =
  Spin (BucketLock (bucket_of (blockno (deref s b)))) (assign b (with_lock None) s).
Proof.
  intros Hlk Hhome. unfold brelse.
  unfold bind at 1. rewrite holdingsleep_true by exact Hlk. cbn [negb].
  unfold bind at 1. unfold releasesleep, set at 1.
  unfold bind at 1. unfold get at 1.
  rewrite (deref_assign_proj blockno) by reflexivity.
  unfold bind at 1. now rewrite (acquire_held _ _ _ o) by (now rewrite lock_of_assign).
Qed.

(** [brelse] while the lock of the tick counter is held: it waits for it
    with the lock of the home bucket in hand and the count taken down. *)
Lemma brelse_ticks_held c b s o :
  lock (deref s b) = Some (pid c) ->
  lock_of s (BucketLock (bucket_of (blockno (deref s b)))) = None ->
  tickslock s = Some o ->
  brelse c b s =
  Spin TicksLock
    (assign b (with_refcnt (wrap32 (refcnt (deref s b) - 1)))
       (set_lock (BucketLock (bucket_of (blockno (deref s b)))) (Some (cpu c))
          (assign b (with_lock None) s))).
Proof.
  intros Hlk Hhome Ht. unfold brelse.
  unfold bind at 1. rewrite holdingsleep_true by exact Hlk. cbn [negb].
  unfold bind at 1. unfold releasesleep, set at 1.
  unfold bind at 1. unfold get at 1.
  rewrite (deref_assign_proj blockno) by reflexivity.
  set (k := bucket_of (blockno (deref s b))) in *.
  unfold bind at 1. rewrite acquire_free by (now rewrite lock_of_assign).
  unfold bind at 1. unfold get at 1. rewrite deref_set_lock.
  rewrite (deref_assign_proj refcnt) by reflexivity.
  unfold bind at 1. unfold set at 1.
  unfold bind at 1. now rewrite (stamp_held _ _ _ o) by (now autorewrite with st).
Qed.

(** C8.  [brelse] panics unless the caller holds the block lock of the
    buffer.  Otherwise it lets go of the block lock, takes one off the
    reference count (modulo [2^32]) and stamps the buffer with the current
    tick, under the lock of the bucket of the buffer's block; and exactly
    when the count has come to zero the buffer is moved to the front of
    the list of that bucket.  Nothing else changes.

    The order shows where the call has to wait.  While the lock of the
    home bucket is held, [brelse] waits for it: by then the block lock is
    free, and neither the count nor the tick of the buffer has changed.
    While the lock of the tick counter is held, [brelse] waits for that:
    by then it holds the lock of the home bucket and has taken the count
    down, and has neither stamped nor moved the buffer. *)
Theorem brelse_spec c i s L :
  let b := Buf i in
  let home := bucket_of (blockno (deref s b)) in
  (lock (deref s b) <> Some (pid c) -> brelse c b s = Panic "brelse") /\
  (lock (deref s b) = Some (pid c) ->
   rings s L -> (exists j, In i (L j)) ->
   lock_of s (BucketLock home) = None -> tickslock s = None ->
   exists s',
     brelse c b s = Done tt s' /\
     (* the buffer *)
     lock (deref s' b) = None /\
     refcnt (deref s' b) = wrap32 (refcnt (deref s b) - 1) /\
     used_tick (deref s' b) = ticks s /\
     valid (deref s' b) = valid (deref s b) /\
     dev (deref s' b) = dev (deref s b) /\
     blockno (deref s' b) = blockno (deref s b) /\
     data (deref s' b) = data (deref s b) /\
     (* the rest of the cache *)
     (forall q, q <> b -> meta (deref s' q) = meta (deref s q)) /\
     (forall l, lock_of s' l = lock_of s l) /\
     ticks s' = ticks s /\ disk s' = disk s /\
     (* the lists *)
     (refcnt (deref s' b) = 0 ->
        rings s' (L_push home i (L_remove i L))) /\
     (refcnt (deref s' b) <> 0 ->
        rings s' L /\ forall q, nx s' q = nx s q /\ pv s' q = pv s q)) /\
  (* waiting for the lock of the home bucket *)
  (lock (deref s b) = Some (pid c) ->
   forall o, lock_of s (BucketLock home) = Some o ->
   exists s',
     brelse c b s = Spin (BucketLock home) s' /\
     lock (deref s' b) = None /\
     refcnt (deref s' b) = refcnt (deref s b) /\
     used_tick (deref s' b) = used_tick (deref s b) /\
     (forall q, q <> b -> deref s' q = deref s q) /\
     (forall q, nx s' q = nx s q /\ pv s' q = pv s q) /\
     (forall l, lock_of s' l = lock_of s l)) /\
  (* waiting for the lock of the tick counter *)
  (lock (deref s b) = Some (pid c) ->
   length (bcache_lock s) = BUCKET_SIZE ->
   lock_of s (BucketLock home) = None ->
   forall o, tickslock s = Some o ->
   exists s',
     brelse c b s = Spin TicksLock s' /\
     lock_of s' (BucketLock home) = Some (cpu c) /\
     (forall l, l <> BucketLock home -> lock_of s' l = lock_of s l) /\
     lock (deref s' b) = None /\
     refcnt (deref s' b) = wrap32 (refcnt (deref s b) - 1) /\
     used_tick (deref s' b) = used_tick (deref s b) /\
     (forall q, q <> b -> deref s' q = deref s q) /\
     (forall q, nx s' q = nx s q /\ pv s' q = pv s q)).
Proof.
  intros b home. split; [|split; [|split]].
  - intros H. unfold brelse. unfold bind at 1. now rewrite holdingsleep_false.
  - intros Hlk HR [j Hj] Hhome Ht.
    assert (Hb : inrange s b) by (now apply (rings_buf_inrange s L j)).
    rewrite brelse_run by assumption. fold home. cbv zeta.
    set (s2 := assign b (released (ticks s)) s).
    assert (HR2 : rings s2 L) by (apply rings_assign; auto).
    assert (E2 : deref s2 b = released (ticks s) (deref s b)).
    { unfold s2. now rewrite deref_assign_eq. }
    assert (N2 : forall q, q <> b -> deref s2 q = deref s q).
    { intros q Hq. unfold s2. rewrite deref_assign_ne; auto. }
    assert (Hfields : forall s',
      (forall (A : Type) (g : buf -> A) q, link_blind g -> g (deref s' q) = g (deref s2 q)) ->
      lock (deref s' b) = None /\
      refcnt (deref s' b) = wrap32 (refcnt (deref s b) - 1) /\
      used_tick (deref s' b) = ticks s /\
      valid (deref s' b) = valid (deref s b) /\
      dev (deref s' b) = dev (deref s b) /\
      blockno (deref s' b) = blockno (deref s b) /\
      data (deref s' b) = data (deref s b) /\
      (forall q, q <> b -> meta (deref s' q) = meta (deref s q))).
    { intros s' H.
      repeat split; try (rewrite H by (now split); rewrite E2; reflexivity).
      intros q Hq. rewrite H by apply link_blind_meta. now rewrite N2. }
    destruct (Z.eqb_spec (wrap32 (refcnt (deref s b) - 1)) 0) as [E0|E0].
    + eexists. split; [reflexivity|].
      destruct (Hfields (pushed home b (unlinked_pn b s2)))
        as (F1 & F2 & F3 & F4 & F5 & F6 & F7 & F8).
      { intros A g q Hg. now rewrite pushed_proj, unlinked_pn_proj. }
      do 8 (split; [assumption|]).
      split; [intros l; unfold s2; now autorewrite with st|].
      split; [unfold s2; now autorewrite with st|].
      split; [destruct (pushed_frame home b (unlinked_pn b s2)) as (_ & _ & _ & _ & _ & ->);
              destruct (unlinked_pn_frame b s2) as (_ & _ & _ & _ & _ & ->);
              unfold s2; now autorewrite with st|].
      split; [|intros H; congruence].
      intros _. apply rings_pushed.
      * now apply (rings_unlinked_pn s2 L j).
      * apply bucket_of_lt.
      * destruct (unlinked_pn_frame b s2) as (_ & -> & _).
        now apply (r_range _ _ HR2 j).
      * intros k'. apply L_remove_out.
    + eexists. split; [reflexivity|].
      destruct (Hfields s2) as (F1 & F2 & F3 & F4 & F5 & F6 & F7 & F8).
      { intros A g q Hg. reflexivity. }
      do 8 (split; [assumption|]).
      split; [intros l; unfold s2; now autorewrite with st|].
      split; [unfold s2; now autorewrite with st|].
      split; [unfold s2; now autorewrite with st|].
      split; [intros H; congruence|].
      intros _. split; [exact HR2|].
      intros q. unfold s2.
      now rewrite (deref_assign_proj next), (deref_assign_proj prev).
  - subst b home. intros Hlk o Hhome.
    pose proof (locked_inrange s i (pid c) Hlk) as Hi.
    eexists. split; [now apply (brelse_home_held c (Buf i) s o)|].
    rewrite deref_assign_eq by exact Hi.
    do 3 (split; [reflexivity|]).
    split; [intros q Hq; apply deref_assign_ne; congruence|].
    split; [intros q; now rewrite (deref_assign_proj next), (deref_assign_proj prev)|].
    intros l. apply lock_of_assign.
  - subst b home. intros Hlk Hlen Hhome o Ht.
    pose proof (locked_inrange s i (pid c) Hlk) as Hi.
    eexists. split; [now apply (brelse_ticks_held c (Buf i) s o)|].
    split.
    { rewrite lock_of_assign. apply lock_of_set_lock_eq.
      rewrite bcache_lock_assign, Hlen. apply bucket_of_lt. }
    split.
    { intros l Hl. rewrite lock_of_assign, lock_of_set_lock_ne by congruence.
      apply lock_of_assign. }
    rewrite deref_assign_eq
      by (cbn [inrange]; rewrite bcache_buf_set_lock, bcache_buf_assign_length; exact Hi).
    rewrite deref_set_lock, deref_assign_eq by exact Hi.
    do 3 (split; [reflexivity|]).
    split.
    { intros q Hq. rewrite deref_assign_ne by congruence.
      rewrite deref_set_lock. apply deref_assign_ne. congruence. }
    intros q. split.
    + rewrite (deref_assign_proj next) by reflexivity.
      rewrite deref_set_lock. now rewrite (deref_assign_proj next).
    + rewrite (deref_assign_proj prev) by reflexivity.
      rewrite deref_set_lock. now rewrite (deref_assign_proj prev).
Qed.

(** ** Changes that leave the lists and the identities alone *)

Lemma inv_meta_only N s s' L :
  inv N s L ->
  length (bcache_head s') = length (bcache_head s) ->
  length (bcache_buf s') = length (bcache_buf s) ->
  (forall q, nx s' q = nx s q) -> (forall q, pv s' q = pv s q) ->
  (forall l, lock_of s' l = None) ->
  (forall q, dev (deref s' q) = dev (deref s q)) ->
  (forall q, blockno (deref s' q) = blockno (deref s q)) ->
  (forall i, (i < length (bcache_buf s))%nat -> 0 <= refcnt (deref s' (Buf i)) < 2 ^ 32) ->
  inv N s' L.
Proof.
  intros [HR HC HL HH HU HRc HN] Hh Hb Hn Hp Hl Hd Hbn Hrc.
  constructor; auto.
  - now apply (rings_ext s).
  - intros i Hi. apply HC. congruence.
  - intros i Hi. rewrite Hd, Hbn. apply HH. congruence.
  - intros i j Hi Hj. rewrite !Hd, !Hbn. apply HU; congruence.
  - intros i Hi. apply Hrc. congruence.
  - congruence.
Qed.

(** A store to one buffer that keeps its links and its identity. *)
Lemma inv_assign N s L p f :
  inv N s L ->
  (forall x, next (f x) = next x) -> (forall x, prev (f x) = prev x) ->
  (forall x, dev (f x) = dev x) -> (forall x, blockno (f x) = blockno x) ->
  (forall x, 0 <= refcnt x < 2 ^ 32 -> 0 <= refcnt (f x) < 2 ^ 32) ->
  inv N (assign p f s) L.
Proof.
  intros HI Hn Hp Hd Hb Hr. apply (inv_meta_only N s); auto; autorewrite with st; auto.
  - intros q. now apply (deref_assign_proj next).
  - intros q. now apply (deref_assign_proj prev).
  - intros l. autorewrite with st. apply (inv_locks _ _ _ HI).
  - intros q. now apply (deref_assign_proj dev).
  - intros q. now apply (deref_assign_proj blockno).
  - intros i Hi. pose proof (inv_refcnt _ _ _ HI i Hi) as H0.
    destruct (deref_assign_cases p (Buf i) f s) as [->|[_ ->]]; auto.
Qed.

Lemma acquiresleep_cases c b s :
  acquiresleep c b s = Done tt (assign b (with_lock (Some (pid c))) s) \/
  acquiresleep c b s = Sleep b s.
Proof. unfold acquiresleep. destruct (lock (deref s b)); auto. Qed.

Lemma inv_acquiresleep N c b s L s' :
  inv N s L -> settle ((acquiresleep c b ;; ret b) s) = Some s' -> inv N s' L.
Proof.
  intros HI. unfold bind.
  destruct (acquiresleep_cases c b s) as [-> | ->]; cbn; intros [= <-]; auto.
  apply inv_assign; auto.
Qed.

Lemma clockintr_run c s :
  tickslock s = None ->
  clockintr c s =
  Done tt (mkstate (bcache_lock s) (bcache_buf s) (bcache_head s)
             (wrap32 (ticks s + 1)) (tickslock s) (disk s)).
Proof.
  intros H. unfold clockintr. unfold bind at 1. rewrite acquire_free by exact H.
  run. cbn. now rewrite H.
Qed.

Lemma bread_rest_run c b s :
  tickslock s = None ->
  bread_rest c b s =
  Done b (assign b (with_used_tick (ticks s))
            (if valid (deref s b) =? 0
             then assign b (with_valid 1)
                    (assign b (with_data (disk s (dev (deref s b)) (blockno (deref s b)))) s)
             else s)).
Proof.
  intros H. unfold bread_rest. unfold bind at 1. unfold get at 1.
  destruct (valid (deref s b) =? 0).
  - unfold bind at 1. unfold bind at 1. unfold virtio_disk_rw, set at 1.
    unfold bind at 1. rewrite stamp_free by (now autorewrite with st).
    unfold ret. now autorewrite with st.
  - unfold bind at 1. unfold ret at 1. unfold bind at 1.
    rewrite stamp_free by exact H. reflexivity.
Qed.

Lemma inv_bread_rest N c b s L r :
  inv N s L -> bread_rest c b s = r -> exists s', settle r = Some s' /\ inv N s' L.
Proof.
  intros HI <-. rewrite bread_rest_run by apply (inv_locks _ _ _ HI TicksLock).
  eexists. split; [reflexivity|].
  apply inv_assign; auto.
  destruct (valid (deref s b) =? 0); auto.
  repeat apply inv_assign; auto.
Qed.

(** ** Moving a buffer to the front of a list *)

Lemma covers_move s s' L k i :
  covers s L -> length (bcache_buf s') = length (bcache_buf s) ->
  covers s' (L_push k i (L_remove i L)).
Proof.
  intros HC Hb x Hx. rewrite Hb in Hx. destruct (HC x Hx) as [k' Hk'].
  destruct (Nat.eq_dec x i) as [->|Hne].
  - exists k. apply in_L_push. now left.
  - exists k'. apply in_L_push. right. now apply in_L_remove.
Qed.

Lemma in_moved L k i k' x :
  In x (L_push k i (L_remove i L) k') <-> (k' = k /\ x = i) \/ (x <> i /\ In x (L k')).
Proof. rewrite in_L_push, in_L_remove. tauto. Qed.

Lemma rings_moved_pn s L j k i :
  rings s L -> In i (L j) -> (k < BUCKET_SIZE)%nat ->
  rings (pushed k (Buf i) (unlinked_pn (Buf i) s)) (L_push k i (L_remove i L)).
Proof.
  intros HR Hj Hk. apply rings_pushed; auto.
  - now apply (rings_unlinked_pn s L j).
  - destruct (unlinked_pn_frame (Buf i) s) as (_ & -> & _).
    now apply (r_range _ _ HR j).
  - intros k'. apply L_remove_out.
Qed.

Lemma rings_moved_np s L j k i :
  rings s L -> In i (L j) -> (k < BUCKET_SIZE)%nat ->
  rings (pushed k (Buf i) (unlinked_np (Buf i) s)) (L_push k i (L_remove i L)).
Proof.
  intros HR Hj Hk. apply rings_pushed; auto.
  - now apply (rings_unlinked_np s L j).
  - destruct (unlinked_np_frame (Buf i) s) as (_ & -> & _).
    now apply (r_range _ _ HR j).
  - intros k'. apply L_remove_out.
Qed.

(** [brelse] moving a buffer to the front of the list of its block. *)
Lemma inv_moved_pn N s L i :
  inv N s L -> (i < length (bcache_buf s))%nat ->
  inv N (pushed (bucket_of (blockno (deref s (Buf i)))) (Buf i) (unlinked_pn (Buf i) s))
      (L_push (bucket_of (blockno (deref s (Buf i)))) i (L_remove i L)).
Proof.
  intros [HR HC HL HH HU HRc HN] Hi.
  set (k := bucket_of (blockno (deref s (Buf i)))).
  set (s' := pushed k (Buf i) (unlinked_pn (Buf i) s)).
  destruct (HC i Hi) as [j Hj].
  assert (Hg : forall (A : Type) (g : buf -> A) q, link_blind g -> g (deref s' q) = g (deref s q)).
  { intros A g q Hg. unfold s'. now rewrite pushed_proj, unlinked_pn_proj. }
  assert (Hlen : length (bcache_buf s') = length (bcache_buf s)).
  { unfold s'. destruct (pushed_frame k (Buf i) (unlinked_pn (Buf i) s)) as (_ & -> & _).
    apply unlinked_pn_frame. }
  constructor.
  - apply (rings_moved_pn s L j); auto. apply bucket_of_lt.
  - now apply (covers_move s).
  - intros l. unfold s'. autorewrite with st. apply HL.
  - intros x Hx. rewrite !Hg by (now split). intros Hid. rewrite Hlen in Hx.
    apply in_moved. destruct (Nat.eq_dec x i) as [->|Hne]; [now left|].
    right. split; auto.
  - intros x y Hx Hy. rewrite !Hg by (now split). rewrite Hlen in Hx, Hy. now apply HU.
  - intros x Hx. rewrite Hg by (now split). rewrite Hlen in Hx. now apply HRc.
  - congruence.
Qed.

Lemma holder_dec (o : option nat) (p : nat) : {o = Some p} + {o <> Some p}.
Proof. decide equality. apply Nat.eq_dec. Qed.

Lemma miss_find s L dv bn :
  miss s L dv bn <-> find (matches s dv bn) (L (bucket_of bn)) = None.
Proof.
  unfold miss. split.
  - intros H. destruct (find _ _) as [v|] eqn:E; [|reflexivity].
    apply find_some in E as [Hin Hm]. rewrite (H v Hin) in Hm. discriminate.
  - intros H i Hi. destruct (matches s dv bn i) eqn:E; [|reflexivity].
    rewrite (find_none _ _ H i Hi) in E. discriminate.
Qed.

Lemma recycled_proj {A : Type} (g : buf -> A) dv bn cur bk v s q :
  link_blind g -> q <> Buf v ->
  g (deref (recycled dv bn cur bk (Buf v) s) q) = g (deref s q).
Proof.
  intros Hg Hq. unfold recycled. rewrite deref_assign_ne by congruence.
  destruct (Nat.eqb bk cur); [reflexivity|].
  now rewrite pushed_proj, unlinked_np_proj.
Qed.

Lemma recycled_length dv bn cur bk b s :
  length (bcache_buf (recycled dv bn cur bk b s)) = length (bcache_buf s) /\
  forall l, lock_of (recycled dv bn cur bk b s) l = lock_of s l.
Proof.
  unfold recycled. destruct (Nat.eqb bk cur); autorewrite with st.
  - split; [reflexivity|]. intros l. now autorewrite with st.
  - destruct (pushed_frame cur b (unlinked_np b s)) as (_ & -> & _).
    destruct (unlinked_np_frame b s) as (_ & -> & _).
    split; [reflexivity|]. intros l. now autorewrite with st.
Qed.

Lemma rings_recycled s L dv bn cur bk v :
  rings s L -> In v (L bk) -> (cur < BUCKET_SIZE)%nat ->
  rings (recycled dv bn cur bk (Buf v) s) (L_recycled cur bk v L).
Proof.
  intros HR Hv Hcur. unfold recycled, L_recycled.
  destruct (Nat.eqb bk cur).
  - apply rings_assign; auto.
  - apply rings_assign; auto. now apply (rings_moved_np s L bk).
Qed.

Lemma recycled_self dv bn cur bk v s L :
  rings s L -> In v (L bk) -> (cur < BUCKET_SIZE)%nat ->
  let x := deref (recycled dv bn cur bk (Buf v) s) (Buf v) in
  dev x = dv /\ blockno x = bn /\ refcnt x = 1 /\ valid x = 0 /\
  used_tick x = ticks s /\ lock x = lock (deref s (Buf v)) /\
  data x = data (deref s (Buf v)).
Proof.
  intros HR Hv Hcur. cbv zeta. unfold recycled.
  assert (Hi : (v < length (bcache_buf s))%nat) by now apply (r_range _ _ HR bk).
  rewrite deref_assign_eq.
  - cbn [retag dev blockno refcnt valid used_tick lock data].
    destruct (Nat.eqb bk cur); [now repeat split|].
    rewrite !pushed_proj, !unlinked_np_proj by (now split). now repeat split.
  - destruct (Nat.eqb bk cur); [exact Hi|].
    cbn [inrange]. destruct (pushed_frame cur (Buf v) (unlinked_np (Buf v) s)) as (_ & -> & _).
    destruct (unlinked_np_frame (Buf v) s) as (_ & -> & _). exact Hi.
Qed.

(** Recycling a buffer for a block that missed keeps the invariant. *)
Lemma inv_recycled N s L dv bn bk v :
  inv N s L -> miss s L dv bn -> In v (L bk) ->
  inv N (recycled dv bn (bucket_of bn) bk (Buf v) s) (L_recycled (bucket_of bn) bk v L).
Proof.
  intros HI Hmiss Hv.
  pose proof HI as [HR HC HL HH HU HRc HN].
  set (cur := bucket_of bn).
  set (s' := recycled dv bn cur bk (Buf v) s).
  pose proof (bucket_of_lt bn) as Hcur. fold cur in Hcur.
  destruct (recycled_length dv bn cur bk (Buf v) s) as [Hlen Hlk].
  destruct (recycled_self dv bn cur bk v s L HR Hv Hcur) as (Sd & Sb & Sr & _).
  fold s' in Hlen, Hlk, Sd, Sb, Sr.
  assert (Ho : forall (A : Type) (g : buf -> A) x, link_blind g -> x <> v ->
            g (deref s' (Buf x)) = g (deref s (Buf x))).
  { intros A g x Hg Hx. apply recycled_proj; auto. congruence. }
  assert (HinL : forall x k, x <> v -> In x (L k) -> In x (L_recycled cur bk v L k)).
  { intros x k Hx Hin. unfold L_recycled. destruct (Nat.eqb bk cur); auto.
    apply in_moved. right. split; assumption. }
  assert (Hclash : forall j, (j < length (bcache_buf s))%nat -> j <> v ->
            dev (deref s (Buf j)) = dv -> blockno (deref s (Buf j)) = bn ->
            dv = 0 /\ bn = 0).
  { intros j Hj Hjv Hd Hb.
    destruct (Z.eq_dec dv 0) as [Ed|Ed]; destruct (Z.eq_dec bn 0) as [Eb|Eb]; auto;
      exfalso;
      (assert (Hin : In j (L (bucket_of (blockno (deref s (Buf j))))))
         by (apply HH; auto; rewrite Hd, Hb; auto));
      rewrite Hb in Hin; apply Hmiss in Hin; unfold matches in Hin;
      rewrite Hd, Hb, !Z.eqb_refl in Hin; discriminate. }
  constructor.
  - now apply rings_recycled.
  - intros x Hx. rewrite Hlen in Hx.
    destruct (Nat.eq_dec x v) as [->|Hne].
    + unfold L_recycled. destruct (Nat.eqb_spec bk cur) as [E|E].
      * now exists bk.
      * exists cur. apply in_moved. now left.
    + destruct (HC x Hx) as [k Hk]. exists k. now apply HinL.
  - intros l. rewrite Hlk. apply HL.
  - intros x Hx. rewrite Hlen in Hx.
    destruct (Nat.eq_dec x v) as [->|Hne].
    + rewrite Sb. intros _. fold cur. unfold L_recycled.
      destruct (Nat.eqb_spec bk cur) as [E|E]; [now rewrite <- E|].
      apply in_moved. now left.
    + rewrite !Ho by (auto; now split). intros Hid. apply HinL; auto.
  - intros x y Hx Hy Hxy. rewrite Hlen in Hx, Hy.
    destruct (Nat.eq_dec x v) as [->|Hxv]; destruct (Nat.eq_dec y v) as [->|Hyv];
      try congruence.
    + rewrite Sd, Sb, !Ho by (auto; now split). intros Ed Eb.
      apply (Hclash y); auto.
    + rewrite Sd, Sb, !Ho by (auto; now split). intros Ed Eb.
      destruct (Hclash x) as [-> ->]; auto.
    + rewrite !Ho by (auto; now split). now apply HU.
  - intros x Hx. rewrite Hlen in Hx.
    destruct (Nat.eq_dec x v) as [->|Hne].
    + rewrite Sr. lia.
    + rewrite Ho by (auto; now split). now apply HRc.
  - congruence.
Qed.

(** With every lock free, the scan stops at the first bucket with a free
    buffer, if there is one. *)
Lemma first_free s L cur m :
  (forall j, (j < m)%nat -> no_free s (L (rot cur j))) \/
  exists j v t, (j < m)%nat /\
    (forall j', (j' < j)%nat -> no_free s (L (rot cur j'))) /\
    scan_list s (L (rot cur j)) Null 0 = (Buf v, t) /\
    In v (L (rot cur j)) /\ refcnt (deref s (Buf v)) = 0.
Proof.
  induction m as [|m IH].
  - left. intros j Hj. lia.
  - destruct IH as [Hno|(j & v & t & Hj & H)].
    + destruct (scan_list_pick s (L (rot cur m)) Null 0) as [E|(v & Hv & Hr & E)].
      * left. intros j Hj. destruct (Nat.eq_dec j m) as [->|Hne].
        -- apply scan_list_null. now rewrite E.
        -- apply Hno. lia.
      * right. exists m, v, (used_tick (deref s (Buf v))). repeat split; auto.
    + right. exists j, v, t. split; [lia|exact H].
Qed.

Lemma passes_free s c L cur j :
  (forall l, lock_of s l = None) ->
  no_free s (L (rot cur j)) -> passes s c L cur j.
Proof. intros Hl H. right. split; auto. Qed.



Lemma same_ids_assign p f s :
  (forall x, dev (f x) = dev x) -> (forall x, blockno (f x) = blockno x) ->
  same_ids s (assign p f s).
Proof. intros Hd Hb q. now rewrite (deref_assign_proj dev), (deref_assign_proj blockno). Qed.

Lemma same_ids_pinned s s' : same_ids s s' -> keeps_pinned s s'.
Proof. intros H i _. apply H. Qed.


(** [bget] in a state that satisfies the invariant: up to the block lock,
    it hands out a buffer that stood for the block already or one that
    nobody referred to, and no other buffer changes its identity. *)
Lemma inv_bget N s L c dv bn :
  inv N s L ->
  bget (walk_fuel s) c dv bn s = Panic "bget: no buffers" \/
  exists b S L',
    bget (walk_fuel s) c dv bn s = (acquiresleep c b ;; ret b) S /\ inv N S L' /\
    keeps_pinned s S /\
    ((dev (deref s b) = dv /\ blockno (deref s b) = bn) \/ refcnt (deref s b) = 0).
Proof.
  intros HI. pose proof HI as [HR HC HL HH HU HRc HN].
  pose proof (HL TicksLock) as Ht. cbn [lock_of] in Ht.
  assert (Hfuel : (length (bcache_buf s) < walk_fuel s)%nat) by (unfold walk_fuel; lia).
  destruct (find (matches s dv bn) (L (bucket_of bn))) as [v|] eqn:Hf.
  - right. exists (Buf v), (assign (Buf v) (rehit (ticks s)) s), L. split; [|split; [|split]].
    + apply (bget_hit _ _ _ _ _ L); auto.
    + apply inv_assign; auto. intros x _. cbn. apply wrap32_range.
    + apply same_ids_pinned, same_ids_assign; auto.
    + left. apply find_some in Hf as [_ Hm]. unfold matches in Hm.
      apply andb_true_iff in Hm as [H1 H2].
      apply Z.eqb_eq in H1, H2. auto.
  - destruct (first_free s L (bucket_of bn) BUCKET_SIZE)
      as [Hno|(j & v & t & Hj & Hbefore & Hscan & Hv & Hr)].
    + left. apply (bget_miss_panic _ _ _ _ _ L); auto.
      intros j Hj. apply passes_free; auto.
    + right. exists (Buf v), (recycled dv bn (bucket_of bn) (rot (bucket_of bn) j) (Buf v) s),
        (L_recycled (bucket_of bn) (rot (bucket_of bn) j) v L). split; [|split; [|split]].
      * apply bget_miss_found with (L := L) (j := j) (t := t); auto.
        intros j' Hj'. apply passes_free; auto.
      * apply inv_recycled; auto. now apply miss_find.
      * intros i Hi. assert (i <> v) by congruence.
        rewrite !recycled_proj by (try (now split); congruence). auto.
      * now right.
Qed.

Lemma some_inj {A : Type} (x y : A) : Some x = Some y -> x = y.
Proof. now intros [= ->]. Qed.

Lemma inv_with_lock N s L b v : inv N s L -> inv N (assign b (with_lock v) s) L.
Proof. intros H. apply inv_assign; auto. Qed.

Lemma inv_exec N o s s' L :
  inv N s L -> exec o s = Some s' -> exists L', inv N s' L'.
Proof.
  intros HI. pose proof HI as [HR HC HL HH HU HRc HN].
  destruct o as [c dv bn|c dv bn|c i|c i|c i|c i|c i|c i|c]; cbn [exec].
  - (* bget *)
    destruct (is_uint dv && is_uint bn); [|discriminate].
    destruct (inv_bget N s L c dv bn HI) as [->|(b & S & L' & -> & HS & _)]; [discriminate|].
    intros H. exists L'. now apply (inv_acquiresleep N c b S).
  - (* bread *)
    destruct (is_uint dv && is_uint bn); [|discriminate].
    unfold bread. unfold bind at 1.
    destruct (inv_bget N s L c dv bn HI) as [->|(b & S & L' & -> & HS & _)]; [discriminate|].
    unfold bind at 1.
    destruct (acquiresleep_cases c b S) as [-> | ->].
    + unfold ret at 1. cbv iota beta. intros H. exists L'.
      destruct (inv_bread_rest N c b _ L' _ (inv_with_lock N S L' b (Some (pid c)) HS) eq_refl)
        as (s'' & E & HI'').
      congruence.
    + cbn. intros E; apply some_inj in E; subst s'. now exists L'.
  - (* a sleeper in bget wakes *)
    destruct (i <? length (bcache_buf s))%nat; [|discriminate].
    intros H. exists L. apply (inv_acquiresleep N c (Buf i) s); auto.
    unfold bind. destruct (acquiresleep c (Buf i) s); auto.
  - (* a sleeper in bread wakes *)
    destruct (i <? length (bcache_buf s))%nat; [|discriminate].
    unfold bind at 1. destruct (acquiresleep_cases c (Buf i) s) as [-> | ->].
    + cbv iota beta. intros H. exists L.
      destruct (inv_bread_rest N c (Buf i) _ L _ (inv_with_lock N s L (Buf i) (Some (pid c)) HI) eq_refl)
        as (s'' & E & HI'').
      congruence.
    + cbn. intros E; apply some_inj in E; subst s'. now exists L.
  - (* bwrite *)
    destruct (i <? length (bcache_buf s))%nat; [|discriminate].
    unfold bwrite. unfold bind at 1. rewrite holdingsleep_run.
    destruct (match lock (deref s (Buf i)) with Some p => (p =? pid c)%nat | None => false end);
      cbn [negb]; [|discriminate].
    unfold virtio_disk_rw. cbn [settle]. intros E; apply some_inj in E; subst s'. exists L.
    apply (inv_meta_only N s); auto;
      try (intros [k|]; [apply (HL (BucketLock k)) | apply (HL TicksLock)]).
  - (* brelse *)
    destruct (Nat.ltb_spec i (length (bcache_buf s))) as [Hi|]; [|discriminate].
    destruct (holder_dec (lock (deref s (Buf i))) (pid c)) as [Hlk|Hlk].
    + rewrite brelse_run; [| exact Hi | exact Hlk | apply HL | exact (HL TicksLock)].
      cbv zeta. unfold settle.
      set (s2 := assign (Buf i) (released (ticks s)) s).
      assert (HI2 : inv N s2 L).
      { apply inv_assign; auto. intros x _. cbn. apply wrap32_range. }
      assert (Hbn : blockno (deref s2 (Buf i)) = blockno (deref s (Buf i))).
      { unfold s2. now rewrite (deref_assign_proj blockno). }
      destruct (wrap32 (refcnt (deref s (Buf i)) - 1) =? 0); intros E; apply some_inj in E; subst s'.
      * eexists. change (nth i (bcache_buf s) zero_buf) with (deref s (Buf i)).
        rewrite <- Hbn.
        apply inv_moved_pn; [exact HI2 | unfold s2; autorewrite with st; exact Hi].
      * now exists L.
    + unfold brelse. unfold bind at 1. rewrite holdingsleep_false by exact Hlk. discriminate.
  - (* bpin *)
    destruct (i <? length (bcache_buf s))%nat; [|discriminate].
    rewrite bpin_run by auto. unfold settle. intros E; apply some_inj in E; subst s'. exists L.
    apply inv_assign; auto. intros x _. cbn. apply wrap32_range.
  - (* bunpin *)
    destruct (i <? length (bcache_buf s))%nat; [|discriminate].
    rewrite bunpin_run by auto. unfold settle. intros E; apply some_inj in E; subst s'. exists L.
    apply inv_assign; auto. intros x _. cbn. apply wrap32_range.
  - (* tick *)
    rewrite clockintr_run by apply (HL TicksLock). unfold settle. intros E; apply some_inj in E; subst s'. exists L.
    apply (inv_meta_only N s); auto;
      try (intros [k|]; [apply (HL (BucketLock k)) | apply (HL TicksLock)]).
Qed.

Lemma inv_run_ops N ops : forall s s' L,
  inv N s L -> run_ops ops s = Some s' -> exists L', inv N s' L'.
Proof.
  induction ops as [|o ops IH]; intros s s' L HI; cbn [run_ops].
  - intros E; apply some_inj in E; subst s'. now exists L.
  - destruct (exec o s) as [s1|] eqn:E; [|discriminate].
    destruct (inv_exec N o s s1 L HI E) as [L1 HI1]. now apply (IH s1 s' L1).
Qed.

(** ** binit *)

Lemma release_free l s :
  lock_of s l = None -> release l s = Done tt s.
Proof. intros H. unfold release. now rewrite set_lock_none_id. Qed.

Lemma binit_heads_ok n : forall i s,
  (forall l, lock_of s l = None) ->
  exists s',
    binit_heads n i s = Done tt s' /\
    (forall l, lock_of s' l = None) /\
    bcache_buf s' = bcache_buf s /\
    length (bcache_head s') = length (bcache_head s) /\
    (forall k, (i <= k < i + n)%nat -> (k < length (bcache_head s))%nat ->
       nx s' (Head k) = Head k /\ pv s' (Head k) = Head k) /\
    (forall k, (k < i)%nat -> deref s' (Head k) = deref s (Head k)).
Proof.
  induction n as [|n IH]; intros i s Hl.
  - exists s. cbn [binit_heads]. unfold ret.
    do 4 (split; [reflexivity || assumption|]). split; [intros; lia|reflexivity].
  - cbn [binit_heads]. unfold bind at 1. rewrite release_free by apply Hl.
    unfold bind at 1. unfold set at 1. unfold bind at 1. unfold set at 1.
    set (s1 := assign (Head i) (with_next (Head i))
                 (assign (Head i) (with_prev (Head i)) s)).
    destruct (IH (S i) s1) as (s' & E & Hl' & Hb & Hh & Hin & Hout).
    { intros l. unfold s1. autorewrite with st. apply Hl. }
    exists s'. split; [exact E|]. split; [exact Hl'|].
    split; [rewrite Hb; reflexivity|].
    split; [rewrite Hh; unfold s1; now autorewrite with st|].
    split.
    + intros k Hk Hr. destruct (Nat.eq_dec k i) as [->|Hne].
      * rewrite Hout by lia. unfold s1.
        rewrite deref_assign_eq by (now apply inrange_assign).
        cbn [with_next next prev].
        rewrite deref_assign_eq by exact Hr. split; reflexivity.
      * apply Hin; [lia|]. unfold s1. now autorewrite with st.
    + intros k Hk. rewrite Hout by lia. unfold s1.
      rewrite !deref_assign_ne by (intros [= ->]; lia). reflexivity.
Qed.

Lemma binit_bufs_ok n : forall i s L,
  booting s L i -> (i + n = length (bcache_buf s))%nat ->
  exists s' L',
    binit_bufs n i s = Done tt s' /\ booting s' L' (i + n) /\
    length (bcache_buf s') = length (bcache_buf s).
Proof.
  induction n as [|n IH]; intros i s L HB Hn.
  - exists s, L. rewrite Nat.add_0_r.
    split; [reflexivity|]. split; [exact HB|reflexivity].
  - destruct HB as [HR Hl Hlist Hz].
    cbn [binit_bufs]. set (k := (i mod BUCKET_SIZE)%nat).
    unfold bind at 1. unfold set at 1.
    set (s0 := assign (Buf i) (with_lock None) s).
    change ((hn <- get next (Head k) ;; set with_next (Buf i) hn ;;
             set with_prev (Buf i) (Head k) ;;
             hn <- get next (Head k) ;; set with_prev hn (Buf i) ;;
             set with_next (Head k) (Buf i) ;; binit_bufs n (S i)) s0)
      with (binit_bufs n (S i) (pushed k (Buf i) s0)).
    assert (HR0 : rings s0 L) by (apply rings_assign; auto).
    assert (Hk : (k < BUCKET_SIZE)%nat) by (apply Nat.mod_upper_bound; discriminate).
    assert (Hlen0 : length (bcache_buf (pushed k (Buf i) s0)) = length (bcache_buf s)).
    { destruct (pushed_frame k (Buf i) s0) as (_ & -> & _).
      unfold s0. now autorewrite with st. }
    destruct (IH (S i) (pushed k (Buf i) s0) (L_push k i L)) as (s' & L' & E & HB' & Hlen').
    { constructor.
      - apply rings_pushed; auto.
        + unfold s0. autorewrite with st. lia.
        + intros k' Hin. assert (i < i)%nat by (apply Hlist; now exists k'). lia.
      - intros l. unfold s0. autorewrite with st. apply Hl.
      - intros x. split.
        + intros [k' Hin]. apply in_L_push in Hin as [[_ ->]|Hin]; [lia|].
          assert (x < i)%nat by (apply Hlist; now exists k'). lia.
        + intros Hx. destruct (Nat.eq_dec x i) as [->|Hne].
          * exists k. apply in_L_push. now left.
          * destruct (proj2 (Hlist x)) as [k' Hin]; [lia|].
            exists k'. apply in_L_push. now right.
      - intros j. rewrite !pushed_proj by (now split).
        unfold s0. rewrite !deref_assign_proj by reflexivity. apply Hz. }
    { rewrite Hlen0. lia. }
    exists s', L'. split; [exact E|].
    replace (i + S n)%nat with (S i + n)%nat by lia.
    split; [exact HB'|]. now rewrite Hlen', Hlen0.
Qed.

Lemma lock_of_boot_state NBUF d l : lock_of (boot_state NBUF d) l = None.
Proof.
  destruct l as [k|]; cbn; [|reflexivity].
  do 13 (destruct k as [|k]; [reflexivity|]). now destruct k.
Qed.

Lemma deref_boot_state NBUF d i : deref (boot_state NBUF d) (Buf i) = zero_buf.
Proof. cbn. apply nth_repeat. Qed.

(** [binit] returns, and leaves a cache that satisfies the invariant. *)
Lemma binit_inv NBUF d :
  exists s L, binit NBUF (boot_state NBUF d) = Done tt s /\ inv NBUF s L /\
              length (bcache_buf s) = NBUF /\
              forall j, dev (deref s (Buf j)) = 0 /\ blockno (deref s (Buf j)) = 0.
Proof.
  unfold binit.
  destruct (binit_heads_ok BUCKET_SIZE 0 (boot_state NBUF d))
    as (s1 & E1 & Hl1 & Hb1 & Hh1 & Hin1 & _).
  { apply lock_of_boot_state. }
  assert (Hlh : length (bcache_head s1) = BUCKET_SIZE) by (rewrite Hh1; reflexivity).
  assert (Hlb : length (bcache_buf s1) = NBUF).
  { rewrite Hb1. cbn. apply repeat_length. }
  destruct (binit_bufs_ok NBUF 0 s1 (fun _ => [])) as (s & L & E & [HR Hl Hlist Hz] & Hlen).
  { constructor.
    - constructor; auto.
      + intros k Hk. cbn. apply Hin1; [lia|]. cbn. exact Hk.
      + intros k i [].
      + intros k. constructor.
      + intros k k' i [].
    - exact Hl1.
    - intros x. split; [intros [k []]|lia].
    - intros j. unfold deref. rewrite Hb1. fold (deref (boot_state NBUF d) (Buf j)).
      rewrite deref_boot_state. now repeat split. }
  { now rewrite Hlb. }
  exists s, L. unfold bind. rewrite E1. split; [exact E|].
  assert (HN : length (bcache_buf s) = NBUF) by congruence.
  split; [|split; [exact HN|intros j; destruct (Hz j) as (? & ? & ?); auto]].
  constructor; auto.
  - intros i Hi. apply Hlist. cbn. lia.
  - intros i Hi [H|H]; exfalso; apply H; apply Hz.
  - intros i j _ _ _ _ _. destruct (Hz i) as (? & ? & ?). auto.
  - intros i Hi. destruct (Hz i) as (_ & _ & ->). lia.
Qed.

Lemma booted_inv NBUF d :
  exists L, inv NBUF (booted NBUF d) L /\ length (bcache_buf (booted NBUF d)) = NBUF /\
            forall j, dev (deref (booted NBUF d) (Buf j)) = 0 /\
                      blockno (deref (booted NBUF d) (Buf j)) = 0.
Proof.
  destruct (binit_inv NBUF d) as (s & L & E & HI & HN & Hz).
  exists L. unfold booted. rewrite E. auto.
Qed.

(** Every state the cache can get to satisfies the invariant. *)
Lemma reachable_inv NBUF d s :
  reachable NBUF d s -> exists L, inv NBUF s L.
Proof.
  intros [ops Hops]. destruct (booted_inv NBUF d) as (L0 & HI0 & _).
  now apply (inv_run_ops NBUF ops (booted NBUF d) s L0).
Qed.

(** ** The checker of bucket lists *)

Lemma dllb_sound s l : forall p r, dllb s p l r = true -> dll s p l r.
Proof.
  induction l as [|q l IH]; intros p r; cbn [dllb dll].
  - rewrite andb_true_iff. intros [H1 H2].
    destruct (ptr_eqb_spec (nx s p) r), (ptr_eqb_spec (pv s r) p); try discriminate. auto.
  - rewrite !andb_true_iff. intros [[H1 H2] H3].
    destruct (ptr_eqb_spec (nx s p) q), (ptr_eqb_spec (pv s q) p); try discriminate. auto.
Qed.

Lemma nodupb_sound l : nodupb l = true -> NoDup l.
Proof.
  induction l as [|x l IH]; cbn [nodupb]; [constructor|].
  rewrite andb_true_iff, negb_true_iff. intros [H1 H2]. constructor; auto.
  intros Hin. assert (E : existsb (Nat.eqb x) l = true).
  { apply existsb_exists. exists x. split; auto. apply Nat.eqb_refl. }
  congruence.
Qed.

Lemma NoDup_app_disjoint {A} (l1 l2 : list A) x :
  NoDup (l1 ++ l2) -> In x l1 -> In x l2 -> False.
Proof.
  induction l1 as [|a l1 IH]; cbn; [tauto|].
  intros H [->|H1] H2; apply NoDup_cons_iff in H as [Ha H].
  - apply Ha. apply in_or_app. now right.
  - now apply IH.
Qed.

Lemma NoDup_flat_map_one {A B} (f : A -> list B) l k :
  NoDup (flat_map f l) -> In k l -> NoDup (f k).
Proof.
  induction l as [|a l IH]; cbn; [tauto|].
  intros H [->|Hk].
  - now apply NoDup_app_remove_r in H.
  - apply IH; auto. now apply NoDup_app_remove_l in H.
Qed.

Lemma NoDup_flat_map_disjoint {A B} (f : A -> list B) l k k' x :
  NoDup l -> NoDup (flat_map f l) -> In k l -> In k' l ->
  In x (f k) -> In x (f k') -> k = k'.
Proof.
  induction l as [|a l IH]; cbn; [tauto|].
  intros Hl H Hk Hk' Hx Hx'. apply NoDup_cons_iff in Hl as [Ha Hl].
  destruct Hk as [->|Hk], Hk' as [->|Hk']; auto.
  - exfalso. apply (NoDup_app_disjoint _ _ x H Hx). apply in_flat_map. eauto.
  - exfalso. apply (NoDup_app_disjoint _ _ x H Hx'). apply in_flat_map. eauto.
  - apply IH; auto. now apply NoDup_app_remove_l in H.
Qed.

Lemma lists_of_bucket s k i : In i (lists_of s k) -> (k < BUCKET_SIZE)%nat.
Proof.
  unfold lists_of. destruct (Nat.ltb_spec k BUCKET_SIZE); [auto|intros []].
Qed.

(** A state that passes the check has the lists read off it as its
    bucket lists. *)
Lemma ringsb_sound s : ringsb s = true -> rings s (lists_of s).
Proof.
  unfold ringsb. cbv zeta. rewrite !andb_true_iff.
  intros [[[H1 H2] H3] H4].
  apply Nat.eqb_eq in H1. apply nodupb_sound in H3.
  rewrite forallb_forall in H2, H4.
  assert (Hseq : forall k, (k < BUCKET_SIZE)%nat -> In k (seq 0 BUCKET_SIZE)).
  { intros k Hk. apply in_seq. lia. }
  constructor.
  - exact H1.
  - intros k Hk. apply dllb_sound, H2, Hseq, Hk.
  - intros k i Hi. pose proof (lists_of_bucket s k i Hi) as Hk. split; [exact Hk|].
    apply Nat.ltb_lt, H4. apply in_flat_map. exists k. auto.
  - intros k. destruct (Nat.ltb_spec k BUCKET_SIZE) as [Hk|Hk].
    + apply (NoDup_flat_map_one _ _ k H3). auto.
    + unfold lists_of. destruct (Nat.ltb_spec k BUCKET_SIZE); [lia|constructor].
  - intros k k' i Hi Hi'.
    apply (NoDup_flat_map_disjoint (lists_of s) (seq 0 BUCKET_SIZE) k k' i); auto.
    + apply seq_NoDup.
    + apply Hseq. now apply (lists_of_bucket s k i).
    + apply Hseq. now apply (lists_of_bucket s k' i).
Qed.

(** ** The victim of a scan *)

Lemma scan_list_app s l1 l2 : forall temp tt,
  scan_list s (l1 ++ l2) temp tt =
  scan_list s l2 (fst (scan_list s l1 temp tt)) (snd (scan_list s l1 temp tt)).
Proof.
  induction l1 as [|i l1 IH]; intros temp tt; cbn [scan_list app]; [reflexivity|].
  destruct (_ && _); apply IH.
Qed.

(** A candidate is kept over buffers that are in use or not older. *)
Lemma scan_list_keep s l : forall temp tt,
  tt <> 0 ->
  (forall i, In i l -> refcnt (deref s (Buf i)) = 0 -> tt <= used_tick (deref s (Buf i))) ->
  scan_list s l temp tt = (temp, tt).
Proof.
  induction l as [|i l IH]; intros temp tt Hnz H; cbn [scan_list]; [reflexivity|].
  destruct (Z.eqb_spec (refcnt (deref s (Buf i))) 0) as [E|E]; cbn [andb].
  - destruct (Z.eqb_spec tt 0) as [|_]; [contradiction|]. cbn [orb].
    destruct (Z.ltb_spec (used_tick (deref s (Buf i))) tt) as [Hlt|_].
    + specialize (H i (or_introl eq_refl) E). lia.
    + apply IH; auto. intros j Hj. apply H. now right.
  - apply IH; auto. intros j Hj. apply H. now right.
Qed.

(** The scan of one bucket picks the free buffer with the oldest tick,
    the first on the list among equals, provided that the free buffers
    of the bucket have ticks other than [0]. *)
Lemma scan_list_lru s l1 v l2 :
  refcnt (deref s (Buf v)) = 0 ->
  (forall i, In i (l1 ++ v :: l2) -> refcnt (deref s (Buf i)) = 0 ->
     used_tick (deref s (Buf i)) <> 0) ->
  (forall i, In i l1 -> refcnt (deref s (Buf i)) = 0 ->
     used_tick (deref s (Buf v)) < used_tick (deref s (Buf i))) ->
  (forall i, In i l2 -> refcnt (deref s (Buf i)) = 0 ->
     used_tick (deref s (Buf v)) <= used_tick (deref s (Buf i))) ->
  scan_list s (l1 ++ v :: l2) Null 0 = (Buf v, used_tick (deref s (Buf v))).
Proof.
  intros Hv Hnz H1 H2. rewrite scan_list_app.
  assert (Hvnz : used_tick (deref s (Buf v)) <> 0).
  { apply Hnz; auto. apply in_or_app. right. now left. }
  assert (E : scan_list s l1 Null 0 = (Null, 0) \/
              exists i, In i l1 /\ refcnt (deref s (Buf i)) = 0 /\
                scan_list s l1 Null 0 = (Buf i, used_tick (deref s (Buf i)))).
  { apply scan_list_pick. }
  cbn [scan_list]. rewrite Hv. cbn [Z.eqb andb].
  destruct E as [-> | (i & Hi & Hr & ->)]; cbn [fst snd Z.eqb orb].
  - apply scan_list_keep; auto.
  - destruct (Z.eqb_spec (used_tick (deref s (Buf i))) 0) as [E0|_].
    { exfalso. revert E0. apply Hnz; auto. apply in_or_app. now left. }
    cbn [orb]. specialize (H1 i Hi Hr).
    destruct (Z.ltb_spec (used_tick (deref s (Buf v))) (used_tick (deref s (Buf i)))); [|lia].
    apply scan_list_keep; auto.
Qed.

(** C1 (amended).  On a miss [bget] recycles a buffer of the first bucket,
    in the order home, home + 1, ... (mod 13), that is not skipped and has
    a free buffer: that bucket's free buffer with the oldest tick, the
    first on the list among equals.  (Ticks [0] apart: the scan uses
    [temp_tick == 0] for "no candidate yet".) *)
Theorem bget_recycles_bucket_lru fuel c dv bn s L j l1 v l2 :
  let cur := bucket_of bn in
  rings s L -> (length (bcache_buf s) < fuel)%nat ->
  lock_of s (BucketLock cur) = None -> tickslock s = None ->
  miss s L dv bn ->
  (j < BUCKET_SIZE)%nat ->
  (forall j', (j' < j)%nat -> passes s c L cur j') ->
  rot cur j = cur \/ lock_of s (BucketLock (rot cur j)) = None ->
  L (rot cur j) = l1 ++ v :: l2 ->
  refcnt (deref s (Buf v)) = 0 ->
  (forall i, In i (L (rot cur j)) -> refcnt (deref s (Buf i)) = 0 ->
     used_tick (deref s (Buf i)) <> 0) ->
  (forall i, In i l1 -> refcnt (deref s (Buf i)) = 0 ->
     used_tick (deref s (Buf v)) < used_tick (deref s (Buf i))) ->
  (forall i, In i l2 -> refcnt (deref s (Buf i)) = 0 ->
     used_tick (deref s (Buf v)) <= used_tick (deref s (Buf i))) ->
  exists s',
    (bget fuel c dv bn s = Done (Buf v) s' \/ bget fuel c dv bn s = Sleep (Buf v) s') /\
    dev (deref s' (Buf v)) = dv /\ blockno (deref s' (Buf v)) = bn /\
    refcnt (deref s' (Buf v)) = 1 /\ valid (deref s' (Buf v)) = 0.
Proof.
  intros cur HR Hfuel Hhome Ht Hmiss Hj Hpass Hlk HL Hv Hnz H1 H2. subst cur.
  assert (Hin : In v (L (rot (bucket_of bn) j))).
  { rewrite HL. apply in_or_app. right. now left. }
  rewrite (bget_miss_found fuel c dv bn s L HR Hfuel Hhome j v
             (used_tick (deref s (Buf v)))); auto.
  all: try (now apply miss_find).
  2:{ rewrite HL. apply scan_list_lru; auto. now rewrite <- HL. }
  destruct (recycled_self dv bn (bucket_of bn) (rot (bucket_of bn) j) v s L HR Hin
              (bucket_of_lt bn)) as (Sd & Sb & Sr & Sv & _).
  unfold bind.
  destruct (acquiresleep_cases c (Buf v)
              (recycled dv bn (bucket_of bn) (rot (bucket_of bn) j) (Buf v) s))
    as [-> | ->].
  - eexists. split; [left; reflexivity|].
    rewrite !(deref_assign_proj _ (Buf v) (Buf v) (with_lock (Some (pid c)))) by reflexivity.
    auto.
  - eexists. split; [right; reflexivity|]. auto.
Qed.




(** C2 (amended).  In the scan of a miss, a bucket other than the home
    bucket is skipped only when the calling CPU itself holds its lock
    (which [passes] allows for the buckets before [j]); a lock that another
    CPU holds is waited for, with the home lock still held. *)
Theorem bget_spins_on_foreign_lock fuel c dv bn s L j o :
  let cur := bucket_of bn in
  rings s L -> (length (bcache_buf s) < fuel)%nat ->
  lock_of s (BucketLock cur) = None ->
  miss s L dv bn ->
  (j < BUCKET_SIZE)%nat ->
  (forall j', (j' < j)%nat -> passes s c L cur j') ->
  rot cur j <> cur ->
  lock_of s (BucketLock (rot cur j)) = Some o -> o <> cpu c ->
  bget fuel c dv bn s =
  Spin (BucketLock (rot cur j)) (set_lock (BucketLock cur) (Some (cpu c)) s).
Proof.
  intros cur HR Hfuel Hhome Hmiss Hj Hpass Hne Hl Ho. subst cur.
  apply (bget_miss_spin fuel c dv bn s L HR Hfuel Hhome j o); auto.
  now apply miss_find.
Qed.








(** C7 (amended).  In every state the cache can get to, two buffers of the
    pool have the same device and block number only if these are the
    [(0, 0)] that [binit] leaves in every buffer. *)
Theorem cached_blocks_are_unique NBUF d s :
  reachable NBUF d s ->
  forall i j, (i < NBUF)%nat -> (j < NBUF)%nat -> i <> j ->
    dev (deref s (Buf i)) = dev (deref s (Buf j)) ->
    blockno (deref s (Buf i)) = blockno (deref s (Buf j)) ->
    dev (deref s (Buf i)) = 0 /\ blockno (deref s (Buf i)) = 0.
Proof.
  intros Hreach. destruct (reachable_inv NBUF d s Hreach) as [L HI].
  intros i j Hi Hj. rewrite <- (inv_size _ _ _ HI) in Hi, Hj.
  now apply (inv_uniq _ _ _ HI).
Qed.

(** ** The theorems at work on the example runs *)

Lemma reachable_after ops :
  run_ops ops (booted 30 no_disk) <> None -> reachable 30 no_disk (after ops).
Proof.
  intros H. exists ops. unfold after.
  destruct (run_ops ops (booted 30 no_disk)); congruence.
Qed.

Lemma miss_check s dv bn :
  find (matches s dv bn) (lists_of s (bucket_of bn)) = None ->
  miss s (lists_of s) dv bn.
Proof. apply miss_find. Qed.

Lemma bget_recycles_bucket_lru_witness :
  exists s',
    (bget 31 thread0 1 31 lru_state = Done (Buf 5) s' \/
     bget 31 thread0 1 31 lru_state = Sleep (Buf 5) s') /\
    dev (deref s' (Buf 5)) = 1 /\ blockno (deref s' (Buf 5)) = 31 /\
    refcnt (deref s' (Buf 5)) = 1 /\ valid (deref s' (Buf 5)) = 0.
Proof.
  apply (bget_recycles_bucket_lru 31 thread0 1 31 lru_state (lists_of lru_state)
           0 [18%nat] 5 []).
  - apply ringsb_sound. vm_compute. reflexivity.
  - vm_compute. lia.
  - vm_compute. reflexivity.
  - vm_compute. reflexivity.
  - apply miss_check. vm_compute. reflexivity.
  - vm_compute. lia.
  - intros j' Hj'. lia.
  - left. vm_compute. reflexivity.
  - vm_compute. reflexivity.
  - vm_compute. reflexivity.
  - intros i Hi _.
    assert (E : i = 18%nat \/ i = 5%nat).
    { vm_compute in Hi. intuition. }
    destruct E as [-> | ->]; vm_compute; discriminate.
  - intros i [<-|[]] _. vm_compute. reflexivity.
  - intros i [].
Defined.

(** C1, as stated, fails.  Blocks 1 to 30 are read and then released in
    that order; a read of block 31 then misses, and recycles buffer 5,
    though buffer 1, which nobody refers to either, has an older tick. *)
Lemma bget_victim_not_global_lru :
  reachable 30 no_disk lru_state /\
  miss lru_state (lists_of lru_state) 1 31 /\
  (exists s', bget (walk_fuel lru_state) thread0 1 31 lru_state = Done (Buf 5) s') /\
  ~ global_lru lru_state 5.
Proof.
  split; [|split; [|split]].
  - apply reachable_after. vm_compute. discriminate.
  - apply miss_check. vm_compute. reflexivity.
  - eexists. vm_compute. reflexivity.
  - intros [_ H].
    assert (Hle : used_tick (deref lru_state (Buf 5))
                  <= used_tick (deref lru_state (Buf 1))).
    { apply H; vm_compute; [lia | reflexivity]. }
    vm_compute in Hle. apply Hle. reflexivity.
Qed.

Lemma bget_spins_on_foreign_lock_witness :
  bget 31 thread0 1 52 bucket0_busy =
  Spin (BucketLock (rot (bucket_of 52) 1))
       (set_lock (BucketLock (bucket_of 52)) (Some (cpu thread0)) bucket0_busy).
Proof.
  apply (bget_spins_on_foreign_lock 31 thread0 1 52 bucket0_busy (lists_of bucket0_busy)
           1 (cpu thread1)).
  - apply ringsb_sound. vm_compute. reflexivity.
  - vm_compute. lia.
  - vm_compute. reflexivity.
  - apply miss_check. vm_compute. reflexivity.
  - vm_compute. lia.
  - intros j' Hj'. assert (j' = 0%nat) as -> by lia.
    right. split; [left; vm_compute; reflexivity|].
    intros i Hi.
    assert (E : i = 26%nat \/ i = 13%nat \/ i = 0%nat).
    { vm_compute in Hi. intuition. }
    destruct E as [-> | [-> | ->]]; vm_compute; discriminate.
  - vm_compute. discriminate.
  - vm_compute. reflexivity.
  - vm_compute. discriminate.
Defined.

(** C2, as stated, fails.  With the buffers of bucket 0 in use and the
    lock of bucket 1 held by CPU 1, a miss of CPU 0 in bucket 0 does not
    go on to bucket 2, where buffer 2 is free: it waits for the lock of
    bucket 1.  And with every buffer in use, CPU 0 scanning from bucket 0
    and CPU 1 scanning from bucket 1 end up waiting for each other's home
    lock. *)
Lemma bget_waits_for_foreign_lock :
  (exists s', bget 31 thread0 1 52 bucket0_busy = Spin (BucketLock 1) s' /\
              lock_of s' (BucketLock 0) = Some (cpu thread0)) /\
  In 2%nat (lists_of bucket0_busy 2) /\ refcnt (deref bucket0_busy (Buf 2)) = 0 /\
  lock_of bucket0_busy (BucketLock 2) = None /\
  bget_recycle 31 thread0 1 39 0 BUCKET_SIZE 0 Null 0 both_scanning
    = Spin (BucketLock 1) both_scanning /\
  bget_recycle 31 thread1 1 40 1 BUCKET_SIZE 0 Null 0 both_scanning
    = Spin (BucketLock 0) both_scanning /\
  lock_of both_scanning (BucketLock 0) = Some (cpu thread0) /\
  lock_of both_scanning (BucketLock 1) = Some (cpu thread1).
Proof.
  split; [|split; [|split; [|split; [|split; [|split; [|split]]]]]].
  - eexists. split; vm_compute; reflexivity.
  - vm_compute. auto.
  - vm_compute. reflexivity.
  - vm_compute. reflexivity.
  - vm_compute. reflexivity.
  - vm_compute. reflexivity.
  - vm_compute. reflexivity.
  - vm_compute. reflexivity.
Qed.





Lemma cached_blocks_are_unique_witness :
  dev (deref held_state (Buf 0)) = 0 /\ blockno (deref held_state (Buf 0)) = 0.
Proof.
  apply (cached_blocks_are_unique 30 no_disk held_state) with (j := 2%nat).
  - apply reachable_after. vm_compute. discriminate.
  - lia.
  - lia.
  - lia.
  - vm_compute. reflexivity.
  - vm_compute. reflexivity.
Defined.

(** C7, as stated, fails.  Right after [binit] every buffer has device 0
    and block number 0: buffers 0 and 1, for two. *)
Lemma binit_leaves_duplicates :
  reachable 30 no_disk (booted 30 no_disk) /\
  dev (deref (booted 30 no_disk) (Buf 0)) = dev (deref (booted 30 no_disk) (Buf 1)) /\
  blockno (deref (booted 30 no_disk) (Buf 0)) = blockno (deref (booted 30 no_disk) (Buf 1)).
Proof.
  split; [|split; vm_compute; reflexivity].
  exists []. reflexivity.
Qed.

Lemma brelse_spec_witness :
  (exists s',
    brelse thread0 (Buf 1) held_state = Done tt s' /\
    lock (deref s' (Buf 1)) = None /\
    refcnt (deref s' (Buf 1)) = wrap32 (refcnt (deref held_state (Buf 1)) - 1) /\
    used_tick (deref s' (Buf 1)) = ticks held_state /\
    valid (deref s' (Buf 1)) = valid (deref held_state (Buf 1)) /\
    dev (deref s' (Buf 1)) = dev (deref held_state (Buf 1)) /\
    blockno (deref s' (Buf 1)) = blockno (deref held_state (Buf 1)) /\
    data (deref s' (Buf 1)) = data (deref held_state (Buf 1)) /\
    (forall q, q <> Buf 1 -> meta (deref s' q) = meta (deref held_state q)) /\
    (forall l, lock_of s' l = lock_of held_state l) /\
    ticks s' = ticks held_state /\ disk s' = disk held_state /\
    (refcnt (deref s' (Buf 1)) = 0 ->
       rings s' (L_push (bucket_of (blockno (deref held_state (Buf 1)))) 1
                   (L_remove 1 (lists_of held_state)))) /\
    (refcnt (deref s' (Buf 1)) <> 0 ->
       rings s' (lists_of held_state) /\
       forall q, nx s' q = nx held_state q /\ pv s' q = pv held_state q)) /\
  (exists s',
    brelse thread0 (Buf 1) (set_lock (BucketLock 1) (Some (cpu thread1)) held_state)
      = Spin (BucketLock 1) s' /\
    lock (deref s' (Buf 1)) = None /\ refcnt (deref s' (Buf 1)) = 1 /\
    lock_of s' (BucketLock 1) = Some (cpu thread1)) /\
  (exists s',
    brelse thread0 (Buf 1) (set_lock TicksLock (Some (cpu thread1)) held_state)
      = Spin TicksLock s' /\
    lock (deref s' (Buf 1)) = None /\ refcnt (deref s' (Buf 1)) = 0 /\
    used_tick (deref s' (Buf 1)) = 1 /\
    lock_of s' (BucketLock 1) = Some (cpu thread0)).
Proof.
  split; [|split].
  - apply (brelse_spec thread0 1 held_state (lists_of held_state)).
    + vm_compute. reflexivity.
    + apply ringsb_sound. vm_compute. reflexivity.
    + exists 1%nat. vm_compute. auto.
    + vm_compute. reflexivity.
    + vm_compute. reflexivity.
  - pose proof (brelse_spec thread0 1
                  (set_lock (BucketLock 1) (Some (cpu thread1)) held_state)
                  (lists_of held_state)) as H.
    cbv zeta in H. destruct H as (_ & _ & H & _).
    assert (Hk : bucket_of (blockno (deref (set_lock (BucketLock 1) (Some (cpu thread1))
                                              held_state) (Buf 1))) = 1%nat)
      by (vm_compute; reflexivity).
    rewrite Hk in H.
    destruct (H ltac:(vm_compute; reflexivity) (cpu thread1) ltac:(vm_compute; reflexivity))
      as (s' & E & Hl & Hr & _ & _ & _ & Hlocks).
    exists s'. split; [exact E|]. split; [exact Hl|]. split.
    + rewrite Hr. vm_compute. reflexivity.
    + rewrite Hlocks. vm_compute. reflexivity.
  - pose proof (brelse_spec thread0 1
                  (set_lock TicksLock (Some (cpu thread1)) held_state)
                  (lists_of held_state)) as H.
    cbv zeta in H. destruct H as (_ & _ & _ & H).
    assert (Hk : bucket_of (blockno (deref (set_lock TicksLock (Some (cpu thread1))
                                              held_state) (Buf 1))) = 1%nat)
      by (vm_compute; reflexivity).
    rewrite Hk in H.
    destruct (H ltac:(vm_compute; reflexivity) ltac:(vm_compute; reflexivity)
                ltac:(vm_compute; reflexivity) (cpu thread1) ltac:(vm_compute; reflexivity))
      as (s' & E & Hhome & _ & Hl & Hr & Ht & _).
    exists s'. split; [exact E|]. split; [exact Hl|]. split; [|split].
    + rewrite Hr. vm_compute. reflexivity.
    + rewrite Ht. vm_compute. reflexivity.
    + exact Hhome.
Defined.

Lemma bwrite_spec_witness :
  exists s',
    bwrite thread0 (Buf 1) held_state = Done tt s' /\
    bcache_lock s' = bcache_lock held_state /\
    bcache_buf s' = bcache_buf held_state /\
    bcache_head s' = bcache_head held_state /\
    ticks s' = ticks held_state /\ tickslock s' = tickslock held_state /\
    disk s' (dev (deref held_state (Buf 1))) (blockno (deref held_state (Buf 1)))
      = data (deref held_state (Buf 1)) /\
    forall d n,
      (d, n) <> (dev (deref held_state (Buf 1)), blockno (deref held_state (Buf 1))) ->
      disk s' d n = disk held_state d n.
Proof.
  apply (bwrite_spec thread0 (Buf 1) held_state).
  vm_compute. reflexivity.
Defined.

Lemma bpin_bunpin_balance_witness :
  refcnt (deref held_state (Buf 1)) = 1 /\
  lock (deref held_state (Buf 1)) = Some (pid thread0) /\
  (exists sp su,
     bpin thread0 (Buf 1) held_state = Done tt sp /\
     bunpin thread0 (Buf 1) held_state = Done tt su /\
     refcnt (deref sp (Buf 1)) = 2 /\ refcnt (deref su (Buf 1)) = 0 /\
     lock (deref sp (Buf 1)) = Some (pid thread0) /\
     lock (deref su (Buf 1)) = Some (pid thread0)) /\
  (exists s',
     pin_calls thread0 (Buf 1) [Pin; Pin; Unpin; Pin] held_state = Done tt s' /\
     refcnt (deref s' (Buf 1)) = 3 /\
     lock (deref s' (Buf 1)) = Some (pid thread0)) /\
  pin_calls thread0 (Buf 1) (repeat Pin 3 ++ repeat Unpin 3) held_state
    = Done tt held_state /\
  pin_calls thread0 (Buf 1) [Pin; Unpin; Unpin; Pin] held_state = Done tt held_state.
Proof.
  assert (Hr1 : refcnt (deref held_state (Buf 1)) = 1) by (vm_compute; reflexivity).
  assert (Hl1 : lock (deref held_state (Buf 1)) = Some (pid thread0))
    by (vm_compute; reflexivity).
  assert (Hi : (1 < length (bcache_buf held_state))%nat) by (vm_compute; lia).
  pose proof (bpin_bunpin_balance thread0 1 held_state Hi) as H.
  cbv zeta in H. destruct H as (_ & H2 & H3 & H4 & H5).
  assert (Hhome : lock_of held_state
                    (BucketLock (bucket_of (blockno (deref held_state (Buf 1))))) = None)
    by (vm_compute; reflexivity).
  assert (Hrange : 0 <= refcnt (deref held_state (Buf 1)) < 2 ^ 32)
    by (rewrite Hr1; split; [discriminate|reflexivity]).
  split; [exact Hr1|]. split; [exact Hl1|]. split; [|split; [|split]].
  - destruct (H3 Hhome) as (sp & su & Ep & Eu & Hp & Hu & _ & _ & Hlp & Hlu).
    exists sp, su. split; [exact Ep|]. split; [exact Eu|].
    rewrite Hp, Hu, Hlp, Hlu, Hr1.
    split; [reflexivity|]. split; [reflexivity|]. split; [exact Hl1|exact Hl1].
  - destruct (H4 Hhome Hrange [Pin; Pin; Unpin; Pin]) as (s' & E & Hr & Hl & _).
    exists s'. split; [exact E|]. rewrite Hr, Hl, Hr1.
    split; [reflexivity|exact Hl1].
  - destruct (H5 Hhome Hrange 3%nat) as (s' & _ & _ & _ & E). exact E.
  - destruct (H2 Hhome) as (_ & _ & Hbal). apply Hbal; [reflexivity|exact Hrange].
Defined.

(** ** The lists binit builds *)

Lemma in_init_lists n : forall k x,
  In x (init_lists n k) <-> (x < n)%nat /\ k = (x mod BUCKET_SIZE)%nat.
Proof.
  induction n as [|n IH]; intros k x; cbn [init_lists].
  - split; [intros [] | lia].
  - rewrite in_L_push, IH. split.
    + intros [[-> ->]|[Hx ->]]; split; auto; lia.
    + intros [Hx ->]. destruct (Nat.eq_dec x n) as [->|Hne]; [now left|right].
      split; [lia|reflexivity].
Qed.

Lemma init_lists_closed n : forall k,
  init_lists n k = rev (filter (fun i => (i mod BUCKET_SIZE =? k)%nat) (seq 0 n)).
Proof.
  induction n as [|n IH]; intros k; [reflexivity|].
  rewrite seq_S, filter_app, rev_app_distr. cbn [init_lists Nat.add filter].
  unfold L_push. rewrite IH. rewrite (Nat.eqb_sym k).
  now destruct (n mod BUCKET_SIZE =? k)%nat.
Qed.

Lemma with_lock_same x : lock x = None -> with_lock None x = x.
Proof. destruct x; cbn. now intros ->. Qed.

Lemma meta_lock x : meta x = meta zero_buf -> lock x = None.
Proof. unfold meta. now intros [= _ _ _ -> _ _ _]. Qed.

(** The second loop of [binit] puts the buffers on the lists one by one,
    and writes nothing but links. *)
Lemma binit_bufs_lists n : forall i s,
  rings s (init_lists i) -> (forall l, lock_of s l = None) ->
  (forall j, meta (deref s (Buf j)) = meta zero_buf) ->
  (i + n = length (bcache_buf s))%nat ->
  exists s',
    binit_bufs n i s = Done tt s' /\ rings s' (init_lists (i + n)) /\
    (forall l, lock_of s' l = None) /\
    (forall j, meta (deref s' (Buf j)) = meta zero_buf) /\
    length (bcache_buf s') = length (bcache_buf s) /\
    ticks s' = ticks s /\ disk s' = disk s.
Proof.
  induction n as [|n IH]; intros i s HR Hl Hz Hn.
  - exists s. rewrite Nat.add_0_r. cbn [binit_bufs]. unfold ret. auto 10.
  - cbn [binit_bufs]. set (k := (i mod BUCKET_SIZE)%nat).
    unfold bind at 1. unfold set at 1.
    rewrite (assign_id (Buf i)) by (apply with_lock_same, meta_lock, Hz).
    change ((hn <- get next (Head k) ;; set with_next (Buf i) hn ;;
             set with_prev (Buf i) (Head k) ;;
             hn <- get next (Head k) ;; set with_prev hn (Buf i) ;;
             set with_next (Head k) (Buf i) ;; binit_bufs n (S i)) s)
      with (binit_bufs n (S i) (pushed k (Buf i) s)).
    assert (Hk : (k < BUCKET_SIZE)%nat) by (apply Nat.mod_upper_bound; discriminate).
    destruct (pushed_frame k (Buf i) s) as (_ & Hlen & _ & Htk & _ & Hdk).
    destruct (IH (S i) (pushed k (Buf i) s)) as (s' & E & HR' & Hl' & Hz' & Hlen' & Htk' & Hdk').
    + cbn [init_lists]. apply rings_pushed; auto.
      * lia.
      * intros k' Hin. apply in_init_lists in Hin. lia.
    + intros l. rewrite lock_of_pushed. apply Hl.
    + intros j. rewrite pushed_proj by apply link_blind_meta. apply Hz.
    + rewrite Hlen. lia.
    + exists s'. split; [exact E|].
      replace (i + S n)%nat with (S i + n)%nat by lia.
      split; [exact HR'|]. split; [exact Hl'|]. split; [exact Hz'|].
      split; [congruence|]. split; congruence.
Qed.

Lemma binit_heads_frame n : forall i s s',
  binit_heads n i s = Done tt s' -> ticks s' = ticks s /\ disk s' = disk s.
Proof.
  induction n as [|n IH]; intros i s s'; cbn [binit_heads].
  - unfold ret. intros [= <-]. auto.
  - unfold bind at 1, release. unfold bind at 1. unfold set at 1.
    unfold bind at 1. unfold set at 1. intros E. apply IH in E as [-> ->].
    rewrite !ticks_assign, !disk_assign, ticks_set_lock, disk_set_lock. auto.
Qed.

(** X8.  [binit] returns, whatever the size of the pool.  It leaves
    buffer [i] on the list of bucket [i % 13] and nowhere else, every
    list a well-formed ring with the buffers of higher number in front,
    every lock free, and every buffer as the zeroed boot image has it:
    no buffer is valid, referred to or locked, and all of them stand for
    block 0 of device 0. *)
Theorem binit_builds_buckets NBUF d :
  binit NBUF (boot_state NBUF d) = Done tt (booted NBUF d) /\
  rings (booted NBUF d) (init_lists NBUF) /\
  (forall k, init_lists NBUF k =
     rev (filter (fun i => (i mod BUCKET_SIZE =? k)%nat) (seq 0 NBUF))) /\
  (forall l, lock_of (booted NBUF d) l = None) /\
  (forall i, meta (deref (booted NBUF d) (Buf i)) = meta zero_buf) /\
  length (bcache_buf (booted NBUF d)) = NBUF /\
  ticks (booted NBUF d) = 0 /\ disk (booted NBUF d) = d.
Proof.
  destruct (binit_heads_ok BUCKET_SIZE 0 (boot_state NBUF d))
    as (s1 & E1 & Hl1 & Hb1 & Hh1 & Hin1 & _).
  { apply lock_of_boot_state. }
  destruct (binit_heads_frame _ _ _ _ E1) as [Htk1 Hdk1].
  assert (Hlb : length (bcache_buf s1) = NBUF).
  { rewrite Hb1. cbn. apply repeat_length. }
  destruct (binit_bufs_lists NBUF 0 s1) as (s & E & HR & Hl & Hz & Hlen & Htk & Hdk).
  - constructor.
    + rewrite Hh1. reflexivity.
    + intros k Hk. cbn. apply Hin1; [lia|]. cbn. exact Hk.
    + intros k i [].
    + intros k. constructor.
    + intros k k' i [].
  - exact Hl1.
  - intros j. unfold deref. rewrite Hb1. fold (deref (boot_state NBUF d) (Buf j)).
    now rewrite deref_boot_state.
  - now rewrite Hlb.
  - assert (Eb : binit NBUF (boot_state NBUF d) = Done tt s).
    { unfold binit, bind. now rewrite E1. }
    unfold booted. rewrite Eb.
    split; [reflexivity|]. split; [exact HR|]. split; [apply init_lists_closed|].
    split; [exact Hl|]. split; [exact Hz|]. split; [congruence|].
    split; [now rewrite Htk, Htk1 | now rewrite Hdk, Hdk1].
Qed.

(** ** bread *)

Lemma walk_fuel_enough s : (length (bcache_buf s) < walk_fuel s)%nat.
Proof. unfold walk_fuel. lia. Qed.

Lemma matches_iff s dv bn i :
  matches s dv bn i = true <->
  dev (deref s (Buf i)) = dv /\ blockno (deref s (Buf i)) = bn.
Proof. unfold matches. rewrite andb_true_iff, !Z.eqb_eq. tauto. Qed.

(** A lookup finds the buffer that holds the block. *)
Lemma find_cached N s L i :
  inv N s L -> (i < N)%nat ->
  dev (deref s (Buf i)) <> 0 \/ blockno (deref s (Buf i)) <> 0 ->
  find (matches s (dev (deref s (Buf i))) (blockno (deref s (Buf i))))
       (L (bucket_of (blockno (deref s (Buf i))))) = Some i.
Proof.
  intros HI Hi Hid. pose proof HI as [HR HC HL HH HU HRc HN].
  assert (Hin : In i (L (bucket_of (blockno (deref s (Buf i)))))).
  { apply HH; auto. lia. }
  destruct (find _ _) as [j|] eqn:Hf.
  - apply find_some in Hf as [Hj Hm]. apply matches_iff in Hm as [Hd Hb].
    destruct (Nat.eq_dec j i) as [->|Hne]; [reflexivity|]. exfalso.
    destruct (r_range _ _ HR _ _ Hj) as [_ HjN].
    assert (Hz : dev (deref s (Buf j)) = 0 /\ blockno (deref s (Buf j)) = 0).
    { apply (HU j i); auto; lia. }
    destruct Hz, Hid; congruence.
  - exfalso. apply (find_none _ _ Hf) in Hin.
    assert (matches s (dev (deref s (Buf i))) (blockno (deref s (Buf i))) i = true)
      by (now apply matches_iff).
    congruence.
Qed.

Lemma fetched_valid d x : valid x <> 0 -> fetched d x = x.
Proof. unfold fetched. intros H. now destruct (Z.eqb_spec (valid x) 0). Qed.

Lemma served_fields c t d x :
  dev (served c t d x) = dev x /\ blockno (served c t d x) = blockno x /\
  lock (served c t d x) = Some (pid c) /\
  refcnt (served c t d x) = wrap32 (refcnt x + 1) /\
  used_tick (served c t d x) = t /\
  valid (served c t d x) = (if valid x =? 0 then 1 else valid x) /\
  data (served c t d x) = (if valid x =? 0 then d (dev x) (blockno x) else data x) /\
  next (served c t d x) = next x /\ prev (served c t d x) = prev x.
Proof.
  unfold served, fetched. destruct x as [va de bl lo rc ut pr ne da]. cbn.
  destruct (va =? 0); cbn; auto 10.
Qed.

Lemma bread_rest_fetched c b s :
  tickslock s = None ->
  bread_rest c b s =
  Done b (assign b (fun x => with_used_tick (ticks s) (fetched (disk s) x)) s).
Proof.
  intros Ht. rewrite bread_rest_run by exact Ht. f_equal.
  unfold fetched.
  destruct b as [|k|i]; [now destruct (valid _ =? 0)| |].
  - destruct (Z.eqb_spec (valid (deref s (Head k))) 0) as [E|E].
    + rewrite !assign_assign. apply assign_ext. now rewrite E.
    + apply assign_ext. destruct (Z.eqb_spec (valid (deref s (Head k))) 0); [contradiction|].
      reflexivity.
  - destruct (Z.eqb_spec (valid (deref s (Buf i))) 0) as [E|E].
    + rewrite !assign_assign. apply assign_ext. now rewrite E.
    + apply assign_ext. destruct (Z.eqb_spec (valid (deref s (Buf i))) 0); [contradiction|].
      reflexivity.
Qed.

(** [bread] of a block that a buffer holds, when nobody has the buffer
    locked ... *)
Lemma bread_hit_run fuel c dv bn s L v :
  rings s L -> (length (bcache_buf s) < fuel)%nat ->
  (forall l, lock_of s l = None) ->
  find (matches s dv bn) (L (bucket_of bn)) = Some v ->
  lock (deref s (Buf v)) = None ->
  bread fuel c dv bn s =
  Done (Buf v) (assign (Buf v) (served c (ticks s) (disk s)) s).
Proof.
  intros HR Hfuel HL Hf Hlk.
  pose proof (HL TicksLock) as Ht. cbn [lock_of] in Ht.
  assert (Hv : inrange s (Buf v)).
  { apply find_some in Hf as [Hin _]. apply (rings_buf_inrange s L _ _ HR Hin). }
  unfold bread. unfold bind at 1.
  rewrite (bget_hit fuel c dv bn s L HR Hfuel (HL _) v Ht Hf).
  unfold bind at 1. unfold acquiresleep.
  rewrite deref_assign_eq by exact Hv.
  replace (lock (rehit (ticks s) (deref s (Buf v)))) with (@None nat) by (now rewrite <- Hlk).
  unfold ret at 1. cbv beta iota.
  rewrite bread_rest_fetched by (now rewrite !tickslock_assign).
  rewrite !ticks_assign, !disk_assign, !assign_assign. reflexivity.
Qed.

(** ... and when somebody has. *)
Lemma bread_hit_sleep fuel c dv bn s L v p :
  rings s L -> (length (bcache_buf s) < fuel)%nat ->
  (forall l, lock_of s l = None) ->
  find (matches s dv bn) (L (bucket_of bn)) = Some v ->
  lock (deref s (Buf v)) = Some p ->
  bread fuel c dv bn s = Sleep (Buf v) (assign (Buf v) (rehit (ticks s)) s).
Proof.
  intros HR Hfuel HL Hf Hlk.
  pose proof (HL TicksLock) as Ht. cbn [lock_of] in Ht.
  assert (Hv : inrange s (Buf v)).
  { apply find_some in Hf as [Hin _]. apply (rings_buf_inrange s L _ _ HR Hin). }
  unfold bread. unfold bind at 1.
  rewrite (bget_hit fuel c dv bn s L HR Hfuel (HL _) v Ht Hf).
  unfold bind at 1. unfold acquiresleep.
  rewrite deref_assign_eq by exact Hv.
  replace (lock (rehit (ticks s) (deref s (Buf v)))) with (Some p) by (now rewrite <- Hlk).
  reflexivity.
Qed.

Lemma inv_inrange N s L i : inv N s L -> (i < N)%nat -> inrange s (Buf i).
Proof. intros HI Hi. cbn. rewrite (inv_size _ _ _ HI). exact Hi. Qed.

Lemma assign_frame p f s :
  ticks (assign p f s) = ticks s /\ disk (assign p f s) = disk s /\
  (forall l, lock_of (assign p f s) l = lock_of s l) /\
  length (bcache_buf (assign p f s)) = length (bcache_buf s).
Proof.
  split; [apply ticks_assign|]. split; [apply disk_assign|].
  split; [intros l; apply lock_of_assign|apply bcache_buf_assign_length].
Qed.

(** X10.  [bread] of a block that is cached and valid returns the buffer
    that holds it, locked for the caller, with one more reference and the
    tick of the call; the data are those of the buffer, whatever the disk
    holds, for the disk is not read.  The lists and all other buffers are
    as before. *)
Theorem bread_hit_serves_cache N c i s L :
  let b := deref s (Buf i) in
  inv N s L -> (i < N)%nat ->
  dev b <> 0 \/ blockno b <> 0 -> valid b <> 0 -> lock b = None ->
  exists s',
    bread (walk_fuel s) c (dev b) (blockno b) s = Done (Buf i) s' /\
    data (deref s' (Buf i)) = data b /\
    valid (deref s' (Buf i)) = valid b /\
    dev (deref s' (Buf i)) = dev b /\ blockno (deref s' (Buf i)) = blockno b /\
    refcnt (deref s' (Buf i)) = wrap32 (refcnt b + 1) /\
    lock (deref s' (Buf i)) = Some (pid c) /\
    used_tick (deref s' (Buf i)) = ticks s /\
    (forall q, q <> Buf i -> deref s' q = deref s q) /\
    (forall q, nx s' q = nx s q /\ pv s' q = pv s q) /\
    (forall l, lock_of s' l = None) /\
    ticks s' = ticks s /\ disk s' = disk s.
Proof.
  intros b HI Hi Hid Hval Hlk. pose proof HI as [HR HC HL HH HU HRc HN].
  pose proof (inv_inrange N s L i HI Hi) as Hr.
  exists (assign (Buf i) (served c (ticks s) (disk s)) s). split.
  { apply (bread_hit_run _ _ _ _ _ L); auto using walk_fuel_enough.
    now apply (find_cached N). }
  assert (E : deref (assign (Buf i) (served c (ticks s) (disk s)) s) (Buf i)
              = with_used_tick (ticks s)
                  (with_lock (Some (pid c)) (rehit (ticks s) b))).
  { rewrite deref_assign_eq by exact Hr. unfold served. now rewrite fetched_valid. }
  rewrite E.
  do 7 (split; [reflexivity|]).
  split; [intros q Hq; apply deref_assign_ne; congruence|].
  split.
  { intros q. split; apply (deref_assign_proj _ (Buf i)); intros x;
      unfold served, fetched; destruct (valid _ =? 0); reflexivity. }
  split; [intros l; rewrite lock_of_assign; apply HL|].
  split; [apply ticks_assign | apply disk_assign].
Qed.

(** X11.  Only one thread at a time has a buffer: [bread] of a cached
    block whose buffer is locked, by whatever thread, does not return but
    sleeps on the buffer's lock.  By then it has counted its reference
    and stamped the buffer; nothing else has changed. *)
Theorem bread_sleeps_on_locked_buffer N c i s L p :
  let b := deref s (Buf i) in
  inv N s L -> (i < N)%nat ->
  dev b <> 0 \/ blockno b <> 0 -> lock b = Some p ->
  exists s',
    bread (walk_fuel s) c (dev b) (blockno b) s = Sleep (Buf i) s' /\
    refcnt (deref s' (Buf i)) = wrap32 (refcnt b + 1) /\
    lock (deref s' (Buf i)) = Some p /\
    used_tick (deref s' (Buf i)) = ticks s /\
    valid (deref s' (Buf i)) = valid b /\ data (deref s' (Buf i)) = data b /\
    dev (deref s' (Buf i)) = dev b /\ blockno (deref s' (Buf i)) = blockno b /\
    (forall q, q <> Buf i -> deref s' q = deref s q) /\
    (forall q, nx s' q = nx s q /\ pv s' q = pv s q) /\
    (forall l, lock_of s' l = None) /\
    ticks s' = ticks s /\ disk s' = disk s.
Proof.
  intros b HI Hi Hid Hlk. pose proof HI as [HR HC HL HH HU HRc HN].
  pose proof (inv_inrange N s L i HI Hi) as Hr.
  exists (assign (Buf i) (rehit (ticks s)) s). split.
  { apply (bread_hit_sleep _ _ _ _ _ L _ p); auto using walk_fuel_enough.
    now apply (find_cached N). }
  rewrite deref_assign_eq by exact Hr. fold b.
  split; [reflexivity|]. split; [exact Hlk|]. do 5 (split; [reflexivity|]).
  split; [intros q Hq; apply deref_assign_ne; congruence|].
  split; [intros q; split; now apply (deref_assign_proj _ (Buf i))|].
  split; [intros l; rewrite lock_of_assign; apply HL|].
  split; [apply ticks_assign | apply disk_assign].
Qed.

(** ** A miss in a cache at rest *)

Lemma rot_onto cur k :
  (cur < BUCKET_SIZE)%nat -> (k < BUCKET_SIZE)%nat ->
  exists j, (j < BUCKET_SIZE)%nat /\ rot cur j = k.
Proof.
  unfold rot, BUCKET_SIZE. intros Hc Hk.
  destruct (le_lt_dec cur k) as [H|H].
  - exists (k - cur)%nat. split; [lia|].
    replace (cur + (k - cur))%nat with k by lia. now apply Nat.mod_small.
  - exists (k + 13 - cur)%nat. split; [lia|].
    replace (cur + (k + 13 - cur))%nat with (k + 1 * 13)%nat by lia.
    rewrite Nat.Div0.mod_add. now apply Nat.mod_small.
Qed.

(** Either all buffers are referred to, or the recycling loop comes to a
    bucket with one that is not. *)
Lemma all_pinned_or_free N s L cur :
  inv N s L -> (cur < BUCKET_SIZE)%nat ->
  (forall i, (i < N)%nat -> refcnt (deref s (Buf i)) <> 0) \/
  exists j v t, (j < BUCKET_SIZE)%nat /\
    (forall j', (j' < j)%nat -> no_free s (L (rot cur j'))) /\
    scan_list s (L (rot cur j)) Null 0 = (Buf v, t) /\
    In v (L (rot cur j)) /\ refcnt (deref s (Buf v)) = 0.
Proof.
  intros HI Hcur. pose proof HI as [HR HC HL HH HU HRc HN].
  destruct (first_free s L cur BUCKET_SIZE) as [Hno|Hyes]; [left|now right].
  intros i Hi. destruct (HC i) as [k Hk]; [lia|].
  destruct (r_range _ _ HR _ _ Hk) as [HkB _].
  destruct (rot_onto cur k Hcur HkB) as (j & Hj & <-).
  now apply (Hno j Hj).
Qed.

Lemma recycled_frame dv bn cur bk b s :
  ticks (recycled dv bn cur bk b s) = ticks s /\
  disk (recycled dv bn cur bk b s) = disk s.
Proof.
  unfold recycled. rewrite ticks_assign, disk_assign.
  destruct (Nat.eqb bk cur); [auto|].
  destruct (pushed_frame cur b (unlinked_np b s)) as (_ & _ & _ & -> & _ & ->).
  destruct (unlinked_np_frame b s) as (_ & _ & _ & -> & _ & ->). auto.
Qed.

Lemma bget_miss_quiet N c dv bn s L j v t :
  inv N s L -> miss s L dv bn -> (j < BUCKET_SIZE)%nat ->
  (forall j', (j' < j)%nat -> no_free s (L (rot (bucket_of bn) j'))) ->
  scan_list s (L (rot (bucket_of bn) j)) Null 0 = (Buf v, t) ->
  bget (walk_fuel s) c dv bn s =
  (acquiresleep c (Buf v) ;; ret (Buf v))
    (recycled dv bn (bucket_of bn) (rot (bucket_of bn) j) (Buf v) s).
Proof.
  intros HI Hmiss Hj Hbefore Hscan. pose proof HI as [HR HC HL HH HU HRc HN].
  apply bget_miss_found with (L := L) (j := j) (t := t); auto using walk_fuel_enough.
  - apply (HL TicksLock).
  - now apply miss_find.
  - intros j' Hj'. apply passes_free; auto.
Qed.

(** X9.  [bread] of a block that is not cached, in a cache at rest with a
    buffer that nobody refers to: it returns such a buffer, locked for the
    caller and valid, holding the data of the block as the disk has them,
    with a reference count of 1.  The other buffers keep all their fields
    but the links, and the disk is not written. *)
Theorem bread_miss_reads_disk N c dv bn s L :
  inv N s L -> miss s L dv bn ->
  (exists i, (i < N)%nat /\ refcnt (deref s (Buf i)) = 0) ->
  (forall i, refcnt (deref s (Buf i)) = 0 -> lock (deref s (Buf i)) = None) ->
  exists v s',
    bread (walk_fuel s) c dv bn s = Done (Buf v) s' /\
    (v < N)%nat /\ refcnt (deref s (Buf v)) = 0 /\
    data (deref s' (Buf v)) = disk s dv bn /\
    valid (deref s' (Buf v)) = 1 /\
    dev (deref s' (Buf v)) = dv /\ blockno (deref s' (Buf v)) = bn /\
    refcnt (deref s' (Buf v)) = 1 /\
    lock (deref s' (Buf v)) = Some (pid c) /\
    used_tick (deref s' (Buf v)) = ticks s /\
    (forall q, q <> Buf v -> meta (deref s' q) = meta (deref s q)) /\
    (forall l, lock_of s' l = None) /\
    ticks s' = ticks s /\ disk s' = disk s.
Proof.
  intros HI Hmiss (i & Hi & Hfree) Hunl. pose proof HI as [HR HC HL HH HU HRc HN].
  pose proof (bucket_of_lt bn) as Hcur.
  destruct (all_pinned_or_free N s L (bucket_of bn) HI Hcur)
    as [Hall|(j & v & t & Hj & Hbefore & Hscan & Hv & Hr)].
  { exfalso. now apply (Hall i). }
  set (bk := rot (bucket_of bn) j) in *.
  set (S := recycled dv bn (bucket_of bn) bk (Buf v) s).
  destruct (r_range _ _ HR _ _ Hv) as [_ HvN].
  destruct (recycled_length dv bn (bucket_of bn) bk (Buf v) s) as [HlenS HlockS].
  destruct (recycled_frame dv bn (bucket_of bn) bk (Buf v) s) as [HtS HdS].
  fold S in HlenS, HlockS, HtS, HdS.
  assert (HvS : inrange S (Buf v)) by (cbn [inrange]; lia).
  pose proof (recycled_self dv bn (bucket_of bn) bk v s L HR Hv Hcur) as Hself.
  cbv zeta in Hself. fold S in Hself.
  destruct Hself as (Hdev & Hbn & Hrc & Hval & Htick & Hlock & Hdata).
  rewrite (Hunl v Hr) in Hlock.
  set (S1 := assign (Buf v) (with_lock (Some (pid c))) S).
  set (s' := assign (Buf v)
               (fun x => with_used_tick (ticks S1) (fetched (disk S1) x)) S1).
  assert (Eb : bread (walk_fuel s) c dv bn s = Done (Buf v) s').
  { unfold bread. unfold bind at 1.
    rewrite (bget_miss_quiet N c dv bn s L j v t) by auto. fold bk. fold S.
    unfold bind at 1. unfold acquiresleep. rewrite Hlock. unfold ret at 1. cbv beta iota.
    fold S1. apply bread_rest_fetched.
    unfold S1. rewrite tickslock_assign.
    change (lock_of S TicksLock = None). rewrite HlockS. apply HL. }
  assert (E : deref s' (Buf v) =
              with_used_tick (ticks s)
                (fetched (disk s) (with_lock (Some (pid c)) (deref S (Buf v))))).
  { unfold s'. rewrite deref_assign_eq by (unfold S1; now apply inrange_assign).
    unfold S1 at 3. rewrite deref_assign_eq by exact HvS.
    unfold S1. now rewrite ticks_assign, disk_assign, HtS, HdS. }
  exists v, s'. split; [exact Eb|]. split; [lia|]. split; [exact Hr|].
  rewrite E. unfold fetched.
  destruct (deref S (Buf v)) as [va de bl lo rc ut pr ne da].
  cbn [valid dev blockno lock refcnt used_tick data] in Hdev, Hbn, Hrc, Hval, Htick, Hlock.
  subst va de bl lo rc ut.
  cbn [with_used_tick with_lock with_valid with_data
       valid dev blockno lock refcnt used_tick data Z.eqb].
  do 7 (split; [reflexivity|]).
  split.
  { intros q Hq. unfold s', S1. rewrite !deref_assign_ne by congruence.
    apply recycled_proj; [apply link_blind_meta|exact Hq]. }
  split.
  { intros l. unfold s', S1. rewrite !lock_of_assign, HlockS. apply HL. }
  unfold s', S1. rewrite !ticks_assign, !disk_assign. auto.
Qed.

(** X16.  In a cache at rest [bget] panics exactly when the block is not
    cached and every buffer of the pool is referred to; otherwise it
    returns a buffer or sleeps on the lock of one: it never waits for a
    spinlock and never walks a list without end. *)
Theorem bget_panics_only_when_exhausted N c dv bn s L :
  inv N s L ->
  let exhausted :=
    miss s L dv bn /\ forall i, (i < N)%nat -> refcnt (deref s (Buf i)) <> 0 in
  (bget (walk_fuel s) c dv bn s = Panic "bget: no buffers" <-> exhausted) /\
  (~ exhausted ->
   exists b s', bget (walk_fuel s) c dv bn s = Done b s' \/
                bget (walk_fuel s) c dv bn s = Sleep b s').
Proof.
  intros HI exhausted. pose proof HI as [HR HC HL HH HU HRc HN].
  pose proof (bucket_of_lt bn) as Hcur.
  assert (Hsettle : forall b S,
            exists s', (acquiresleep c b ;; ret b) S = Done b s' \/
                       (acquiresleep c b ;; ret b) S = Sleep b s').
  { intros b S. unfold bind. destruct (acquiresleep_cases c b S) as [-> | ->].
    - eexists. left. reflexivity.
    - eexists. right. reflexivity. }
  destruct (find (matches s dv bn) (L (bucket_of bn))) as [v|] eqn:Hf.
  - (* a hit *)
    assert (Hnot : ~ exhausted).
    { intros [Hmiss _]. apply miss_find in Hmiss. congruence. }
    rewrite (bget_hit _ c dv bn s L HR (walk_fuel_enough s) (HL _) v (HL TicksLock) Hf).
    destruct (Hsettle (Buf v) (assign (Buf v) (rehit (ticks s)) s)) as [s' Hs'].
    split.
    + split; [|intros H; contradiction].
      intros E. destruct Hs' as [Hs'|Hs']; rewrite Hs' in E; discriminate E.
    + intros _. now exists (Buf v), s'.
  - (* a miss *)
    assert (Hmiss : miss s L dv bn) by (now apply miss_find).
    destruct (all_pinned_or_free N s L (bucket_of bn) HI Hcur)
      as [Hall|(j & v & t & Hj & Hbefore & Hscan & Hv & Hr)].
    + assert (Hex : exhausted) by (split; assumption).
      assert (Ep : bget (walk_fuel s) c dv bn s = Panic "bget: no buffers").
      { apply (bget_miss_panic _ _ _ _ _ L); auto using walk_fuel_enough.
        intros j Hj. apply passes_free; auto.
        intros i Hin. destruct (r_range _ _ HR _ _ Hin) as [_ HiN]. apply Hall. lia. }
      split; [split; auto|]. intros Hnot. contradiction.
    + assert (Hnot : ~ exhausted).
      { intros [_ Hall]. destruct (r_range _ _ HR _ _ Hv) as [_ HvN].
        apply (Hall v); [lia|exact Hr]. }
      rewrite (bget_miss_quiet N c dv bn s L j v t) by auto.
      destruct (Hsettle (Buf v)
                  (recycled dv bn (bucket_of bn) (rot (bucket_of bn) j) (Buf v) s))
        as [s' Hs'].
      split.
      * split; [|intros H; contradiction].
        intros E. destruct Hs' as [Hs'|Hs']; rewrite Hs' in E; discriminate E.
      * intros _. now exists (Buf v), s'.
Qed.

(** ** Calls one after the other, in a cache at rest *)

Lemma meta_fields x y :
  meta x = meta y ->
  valid x = valid y /\ dev x = dev y /\ blockno x = blockno y /\ lock x = lock y /\
  refcnt x = refcnt y /\ used_tick x = used_tick y /\ data x = data y.
Proof. unfold meta. intros [= -> -> -> -> -> -> ->]. auto 10. Qed.

(** [brelse] in a cache at rest. *)
Lemma brelse_quiet N c i s L :
  let b := deref s (Buf i) in
  let home := bucket_of (blockno b) in
  inv N s L -> (i < N)%nat -> lock b = Some (pid c) ->
  exists s',
    brelse c (Buf i) s = Done tt s' /\
    inv N s' (if wrap32 (refcnt b - 1) =? 0
              then L_push home i (L_remove i L) else L) /\
    meta (deref s' (Buf i)) = meta (released (ticks s) b) /\
    (forall q, q <> Buf i -> meta (deref s' q) = meta (deref s q)) /\
    length (bcache_buf s') = length (bcache_buf s) /\
    ticks s' = ticks s /\ disk s' = disk s.
Proof.
  intros b home HI Hi Hlk. pose proof HI as [HR HC HL HH HU HRc HN].
  pose proof (inv_inrange N s L i HI Hi) as Hr.
  set (s2 := assign (Buf i) (released (ticks s)) s).
  assert (HI2 : inv N s2 L).
  { apply inv_assign; auto. intros x _. cbn. apply wrap32_range. }
  assert (E2 : deref s2 (Buf i) = released (ticks s) b) by (now apply deref_assign_eq).
  assert (Hother : forall q, q <> Buf i -> deref s2 q = deref s q).
  { intros q Hq. apply deref_assign_ne. congruence. }
  eexists. split.
  { apply brelse_run; auto. apply (HL TicksLock). }
  cbv zeta. fold b. fold home. fold s2.
  destruct (Z.eqb_spec (wrap32 (refcnt b - 1)) 0) as [E0|NZ].
  - split.
    { replace home with (bucket_of (blockno (deref s2 (Buf i)))) by (now rewrite E2).
      apply inv_moved_pn; auto. unfold s2. rewrite bcache_buf_assign_length. lia. }
    split.
    { rewrite pushed_proj, unlinked_pn_proj by apply link_blind_meta. now rewrite E2. }
    split.
    { intros q Hq. rewrite pushed_proj, unlinked_pn_proj by apply link_blind_meta.
      now rewrite Hother. }
    destruct (pushed_frame home (Buf i) (unlinked_pn (Buf i) s2)) as (_ & -> & _ & -> & _ & ->).
    destruct (unlinked_pn_frame (Buf i) s2) as (_ & -> & _ & -> & _ & ->).
    unfold s2. now rewrite bcache_buf_assign_length, ticks_assign, disk_assign.
  - split; [exact HI2|]. split; [now rewrite E2|].
    split; [intros q Hq; now rewrite Hother|].
    unfold s2. now rewrite bcache_buf_assign_length, ticks_assign, disk_assign.
Qed.

Lemma wrap32_back r : 0 <= r < 2 ^ 32 -> wrap32 (wrap32 (r + 1) - 1) = r.
Proof.
  intros Hr. replace (wrap32 (r + 1) - 1) with (wrap32 (r + 1) + -1) by lia.
  rewrite wrap32_add_l. replace (r + 1 + -1) with r by lia. now apply wrap32_small.
Qed.

Lemma wrap32_forth r : 0 <= r < 2 ^ 32 -> wrap32 (wrap32 (r - 1) + 1) = r.
Proof.
  intros Hr. rewrite wrap32_add_l. replace (r - 1 + 1) with r by lia. now apply wrap32_small.
Qed.

Lemma inv_served N s L i c t d :
  inv N s L -> inv N (assign (Buf i) (served c t d) s) L.
Proof.
  intros HI. apply inv_assign; auto; intros x; unfold served, fetched;
    destruct (valid _ =? 0); try reflexivity; intros _; cbn; apply wrap32_range.
Qed.

(** X13.  [bread] and then [brelse] of a cached block leave the buffer
    with the reference count it had, unlocked and stamped, and valid:
    with the data of the disk when it was not valid before, with its own
    otherwise.  The other buffers keep all their fields but the links,
    and the buffer has come to the front of the list of its bucket when
    nobody else refers to it. *)
Theorem bread_then_brelse N c i s L :
  let b := deref s (Buf i) in
  let home := bucket_of (blockno b) in
  inv N s L -> (i < N)%nat ->
  dev b <> 0 \/ blockno b <> 0 -> lock b = None ->
  exists s',
    (x <- bread (walk_fuel s) c (dev b) (blockno b) ;; brelse c x) s = Done tt s' /\
    refcnt (deref s' (Buf i)) = refcnt b /\
    lock (deref s' (Buf i)) = None /\
    dev (deref s' (Buf i)) = dev b /\ blockno (deref s' (Buf i)) = blockno b /\
    used_tick (deref s' (Buf i)) = ticks s /\
    (valid b <> 0 ->
       valid (deref s' (Buf i)) = valid b /\ data (deref s' (Buf i)) = data b) /\
    (valid b = 0 ->
       valid (deref s' (Buf i)) = 1 /\
       data (deref s' (Buf i)) = disk s (dev b) (blockno b)) /\
    (forall q, q <> Buf i -> meta (deref s' q) = meta (deref s q)) /\
    inv N s' (if refcnt b =? 0 then L_push home i (L_remove i L) else L) /\
    ticks s' = ticks s /\ disk s' = disk s.
Proof.
  intros b home HI Hi Hid Hlk. pose proof HI as [HR HC HL HH HU HRc HN].
  pose proof (inv_inrange N s L i HI Hi) as Hr.
  assert (Hrc : 0 <= refcnt b < 2 ^ 32) by (apply HRc; lia).
  set (s1 := assign (Buf i) (served c (ticks s) (disk s)) s).
  assert (E1 : deref s1 (Buf i) = served c (ticks s) (disk s) b)
    by (now apply deref_assign_eq).
  assert (Hb1 : bread (walk_fuel s) c (dev b) (blockno b) s = Done (Buf i) s1).
  { apply (bread_hit_run _ _ _ _ _ L); auto using walk_fuel_enough.
    now apply (find_cached N). }
  assert (HI1 : inv N s1 L) by (now apply inv_served).
  assert (F1 : blockno (deref s1 (Buf i)) = blockno b /\
               refcnt (deref s1 (Buf i)) = wrap32 (refcnt b + 1) /\
               lock (deref s1 (Buf i)) = Some (pid c)).
  { rewrite E1. unfold served, fetched. now destruct (valid _ =? 0). }
  destruct F1 as (Fbn & Frc & Flk).
  destruct (brelse_quiet N c i s1 L HI1 Hi Flk)
    as (s' & Er & HI' & Hme & Hothers & _ & Htk & Hdk).
  exists s'. split; [unfold bind; now rewrite Hb1|].
  apply meta_fields in Hme. rewrite E1 in Hme.
  destruct Hme as (Mv & Md & Mb & Ml & Mr & Mu & Mda).
  rewrite Mv, Md, Mb, Ml, Mr, Mu, Mda.
  unfold s1 in Htk, Hdk. rewrite ticks_assign in Htk. rewrite disk_assign in Hdk.
  split.
  { unfold served, fetched.
    destruct (valid _ =? 0); cbn; apply wrap32_back; exact Hrc. }
  split; [reflexivity|].
  split; [unfold served, fetched; now destruct (valid _ =? 0)|].
  split; [unfold served, fetched; now destruct (valid _ =? 0)|].
  split.
  { unfold released. cbn [used_tick with_used_tick]. unfold s1. apply ticks_assign. }
  split.
  { intros Hv. unfold served. rewrite fetched_valid by exact Hv. now cbn. }
  split.
  { intros Hv. unfold served, fetched. cbn [valid with_lock rehit with_used_tick with_refcnt].
    rewrite Hv. now cbn. }
  split.
  { intros q Hq. rewrite Hothers by exact Hq. unfold s1.
    now rewrite deref_assign_ne by congruence. }
  split; [|split; assumption].
  rewrite Fbn, Frc, wrap32_back in HI' by exact Hrc. exact HI'.
Qed.

(** The state [bwrite] leaves. *)
Lemma bwrite_run c b s :
  lock (deref s b) = Some (pid c) ->
  exists s',
    bwrite c b s = Done tt s' /\
    (forall q, deref s' q = deref s q) /\
    length (bcache_buf s') = length (bcache_buf s) /\
    length (bcache_head s') = length (bcache_head s) /\
    (forall l, lock_of s' l = lock_of s l) /\ ticks s' = ticks s /\
    disk s' (dev (deref s b)) (blockno (deref s b)) = data (deref s b).
Proof.
  intros Hlk. eexists. split.
  { unfold bwrite, bind. rewrite holdingsleep_true by exact Hlk. reflexivity. }
  cbn [bcache_buf bcache_head ticks disk].
  split; [intros [|k|j]; reflexivity|]. do 2 (split; [reflexivity|]).
  split; [intros [k|]; reflexivity|]. split; [reflexivity|].
  now rewrite !Z.eqb_refl.
Qed.

(** X12.  What is written is read back.  When the holder of a buffer
    calls [bwrite] and [brelse], a [bread] of the block by any thread
    returns that buffer, locked for the reader, with the data that were
    written, which the disk holds as well; the reference count is back
    to what it was. *)
Theorem bwrite_brelse_bread N c c' i s L :
  let b := deref s (Buf i) in
  inv N s L -> (i < N)%nat ->
  dev b <> 0 \/ blockno b <> 0 -> lock b = Some (pid c) ->
  exists s',
    (bwrite c (Buf i) ;; brelse c (Buf i) ;;
     bread (walk_fuel s) c' (dev b) (blockno b)) s = Done (Buf i) s' /\
    data (deref s' (Buf i)) = data b /\
    disk s' (dev b) (blockno b) = data b /\
    valid (deref s' (Buf i)) <> 0 /\
    dev (deref s' (Buf i)) = dev b /\ blockno (deref s' (Buf i)) = blockno b /\
    lock (deref s' (Buf i)) = Some (pid c') /\
    refcnt (deref s' (Buf i)) = refcnt b.
Proof.
  intros b HI Hi Hid Hlk. pose proof HI as [HR HC HL HH HU HRc HN].
  pose proof (inv_inrange N s L i HI Hi) as Hr.
  assert (Hrc : 0 <= refcnt b < 2 ^ 32) by (apply HRc; lia).
  destruct (bwrite_run c (Buf i) s Hlk) as (s1 & Ew & Hsame & Hlb & Hlh & Hlk1 & Htk1 & Hdk1).
  fold b in Hdk1.
  assert (HI1 : inv N s1 L).
  { apply (inv_meta_only N s); auto; try (intros q; now rewrite Hsame).
    - intros l. rewrite Hlk1. apply HL.
    - intros j Hj. rewrite Hsame. now apply HRc. }
  assert (Hlk1' : lock (deref s1 (Buf i)) = Some (pid c)) by (now rewrite Hsame).
  destruct (brelse_quiet N c i s1 L HI1 Hi Hlk1')
    as (s2 & Er & HI2 & Hme & _ & Hlen2 & Htk2 & Hdk2).
  rewrite Hsame in Hme, HI2. fold b in Hme, HI2.
  apply meta_fields in Hme. unfold released in Hme.
  cbn [valid dev blockno lock refcnt used_tick data with_used_tick with_refcnt with_lock] in Hme.
  destruct Hme as (Mv & Md & Mb & Ml & Mr & Mu & Mda).
  set (L2 := if wrap32 (refcnt b - 1) =? 0
             then L_push (bucket_of (blockno b)) i (L_remove i L) else L) in *.
  pose proof HI2 as [HR2 _ HL2 _ _ _ _].
  assert (Hfind : find (matches s2 (dev b) (blockno b)) (L2 (bucket_of (blockno b))) = Some i).
  { rewrite <- Md, <- Mb. apply (find_cached N); auto. rewrite Md, Mb. exact Hid. }
  set (s3 := assign (Buf i) (served c' (ticks s2) (disk s2)) s2).
  assert (Hb : bread (walk_fuel s) c' (dev b) (blockno b) s2 = Done (Buf i) s3).
  { apply (bread_hit_run _ _ _ _ _ L2); auto.
    unfold walk_fuel. rewrite Hlen2, Hlb. lia. }
  assert (Hr2 : inrange s2 (Buf i)) by (apply (inv_inrange N s2 L2); auto).
  assert (E3 : deref s3 (Buf i) = served c' (ticks s2) (disk s2) (deref s2 (Buf i)))
    by (now apply deref_assign_eq).
  exists s3. split.
  { unfold bind at 1. rewrite Ew. unfold bind at 1. rewrite Er. exact Hb. }
  rewrite E3.
  assert (Hdisk : disk s2 (dev b) (blockno b) = data b) by (rewrite Hdk2; exact Hdk1).
  destruct (served_fields c' (ticks s2) (disk s2) (deref s2 (Buf i)))
    as (Sd & Sb & Sl & Sr & _ & Sv & Sda & _).
  rewrite Sd, Sb, Sl, Sr, Sv, Sda, Md, Mb, Mr, Mda.
  split; [destruct (valid (deref s2 (Buf i)) =? 0); [exact Hdisk|reflexivity]|].
  split; [unfold s3; now rewrite disk_assign|].
  split; [destruct (Z.eqb_spec (valid (deref s2 (Buf i))) 0); [lia|assumption]|].
  do 3 (split; [reflexivity|]).
  now apply wrap32_forth.
Qed.

Lemma rehit_fields t x :
  dev (rehit t x) = dev x /\ blockno (rehit t x) = blockno x /\
  lock (rehit t x) = lock x /\ refcnt (rehit t x) = wrap32 (refcnt x + 1) /\
  valid (rehit t x) = valid x /\ data (rehit t x) = data x.
Proof. destruct x. cbn. auto 10. Qed.

Lemma woken_fields c t d x :
  let y := with_used_tick t (fetched d (with_lock (Some (pid c)) x)) in
  dev y = dev x /\ blockno y = blockno x /\ lock y = Some (pid c) /\
  refcnt y = refcnt x /\
  valid y = (if valid x =? 0 then 1 else valid x) /\
  data y = (if valid x =? 0 then d (dev x) (blockno x) else data x).
Proof.
  unfold fetched. destruct x as [va de bl lo rc ut pr ne da]. cbn.
  destruct (va =? 0); cbn; auto 10.
Qed.

(** X19.  A reader that went to sleep gets the block.  [bread] of a block
    whose buffer another thread holds sleeps; when the holder calls
    [brelse] and the sleeper carries on, [bread] returns that same buffer,
    still standing for the block, locked for the reader and valid, with
    the reference count it had while the holder had it. *)
Theorem bread_waits_for_brelse N c0 c1 i s L :
  let b := deref s (Buf i) in
  inv N s L -> (i < N)%nat ->
  dev b <> 0 \/ blockno b <> 0 -> lock b = Some (pid c0) ->
  exists s1 s2 s3,
    bread (walk_fuel s) c1 (dev b) (blockno b) s = Sleep (Buf i) s1 /\
    brelse c0 (Buf i) s1 = Done tt s2 /\
    (acquiresleep c1 (Buf i) ;; bread_rest c1 (Buf i)) s2 = Done (Buf i) s3 /\
    lock (deref s3 (Buf i)) = Some (pid c1) /\
    refcnt (deref s3 (Buf i)) = refcnt b /\
    dev (deref s3 (Buf i)) = dev b /\ blockno (deref s3 (Buf i)) = blockno b /\
    valid (deref s3 (Buf i)) <> 0 /\
    data (deref s3 (Buf i)) =
      (if valid b =? 0 then disk s (dev b) (blockno b) else data b).
Proof.
  intros b HI Hi Hid Hlk. pose proof HI as [HR HC HL HH HU HRc HN].
  pose proof (inv_inrange N s L i HI Hi) as Hr.
  assert (Hrc : 0 <= refcnt b < 2 ^ 32) by (apply HRc; lia).
  set (s1 := assign (Buf i) (rehit (ticks s)) s).
  assert (E1 : deref s1 (Buf i) = rehit (ticks s) b) by (now apply deref_assign_eq).
  assert (Hb : bread (walk_fuel s) c1 (dev b) (blockno b) s = Sleep (Buf i) s1).
  { apply (bread_hit_sleep _ _ _ _ _ L _ (pid c0)); auto using walk_fuel_enough.
    now apply (find_cached N). }
  assert (HI1 : inv N s1 L).
  { apply inv_assign; auto. intros x _. cbn. apply wrap32_range. }
  destruct (rehit_fields (ticks s) b) as (Rd & Rb & Rl & Rr & Rv & Rda).
  assert (Hlk1 : lock (deref s1 (Buf i)) = Some (pid c0)) by (now rewrite E1, Rl).
  destruct (brelse_quiet N c0 i s1 L HI1 Hi Hlk1)
    as (s2 & Er & HI2 & Hme & _ & _ & Htk2 & Hdk2).
  rewrite E1 in Hme. apply meta_fields in Hme. unfold released in Hme.
  cbn [valid dev blockno lock refcnt used_tick data with_used_tick with_refcnt with_lock] in Hme.
  destruct Hme as (Mv & Md & Mb & Ml & Mr & _ & Mda).
  rewrite Rv in Mv. rewrite Rd in Md. rewrite Rb in Mb. rewrite Rr in Mr. rewrite Rda in Mda.
  rewrite wrap32_back in Mr by exact Hrc.
  pose proof (inv_locks _ _ _ HI2 TicksLock) as Ht2. cbn [lock_of] in Ht2.
  assert (Hr2 : inrange s2 (Buf i)).
  { cbn [inrange]. rewrite (inv_size _ _ _ HI2). exact Hi. }
  set (S := assign (Buf i) (with_lock (Some (pid c1))) s2).
  set (s3 := assign (Buf i) (fun x => with_used_tick (ticks S) (fetched (disk S) x)) S).
  exists s1, s2, s3. split; [exact Hb|]. split; [exact Er|]. split.
  { unfold bind, acquiresleep. rewrite Ml. fold S. apply bread_rest_fetched.
    unfold S. now rewrite tickslock_assign. }
  assert (E3 : deref s3 (Buf i) =
               with_used_tick (ticks s2)
                 (fetched (disk s) (with_lock (Some (pid c1)) (deref s2 (Buf i))))).
  { unfold s3. rewrite deref_assign_eq by (unfold S; now apply inrange_assign).
    unfold S at 3. rewrite deref_assign_eq by exact Hr2.
    unfold S. rewrite ticks_assign, disk_assign, Hdk2. unfold s1. now rewrite disk_assign. }
  rewrite E3.
  destruct (woken_fields c1 (ticks s2) (disk s) (deref s2 (Buf i)))
    as (Wd & Wb & Wl & Wr & Wv & Wda).
  rewrite Wd, Wb, Wl, Wr, Wv, Wda, Md, Mb, Mr, Mv, Mda.
  do 4 (split; [reflexivity|]).
  split; [destruct (Z.eqb_spec (valid b) 0); [lia|assumption]|reflexivity].
Qed.

(** ** What touches the disk *)

Lemma keeps_disk_ret {A} (a : A) : keeps_disk (ret a).
Proof. intros s. reflexivity. Qed.

Lemma keeps_disk_panic {A} msg : keeps_disk (@panic A msg).
Proof. intros s. exact I. Qed.

Lemma keeps_disk_bind {A B} (m : M A) (k : A -> M B) :
  keeps_disk m -> (forall a, keeps_disk (k a)) -> keeps_disk (bind m k).
Proof.
  intros Hm Hk s. unfold bind. specialize (Hm s).
  destruct (m s) as [a s1|msg|l s1|b s1|]; auto.
  specialize (Hk a s1). destruct (k a s1); congruence.
Qed.

Lemma keeps_disk_get {A} (f : buf -> A) p : keeps_disk (get f p).
Proof. intros s. reflexivity. Qed.

Lemma keeps_disk_set {A} (w : A -> buf -> buf) p v : keeps_disk (set w p v).
Proof. intros s. apply disk_assign. Qed.

Lemma keeps_disk_acquire c l : keeps_disk (acquire c l).
Proof. intros s. unfold acquire. destruct (lock_of s l); [reflexivity|apply disk_set_lock]. Qed.

Lemma keeps_disk_release l : keeps_disk (release l).
Proof. intros s. apply disk_set_lock. Qed.

Lemma keeps_disk_acquiresleep c b : keeps_disk (acquiresleep c b).
Proof.
  intros s. unfold acquiresleep. destruct (lock (deref s b)); [reflexivity|apply disk_assign].
Qed.

Lemma keeps_disk_stamp c b : keeps_disk (stamp c b).
Proof.
  unfold stamp. apply keeps_disk_bind; [apply keeps_disk_acquire|intros _].
  apply keeps_disk_bind; [intros s; reflexivity|intros t].
  apply keeps_disk_bind; [apply keeps_disk_set|intros _]. apply keeps_disk_release.
Qed.

Lemma keeps_disk_get_ticks : keeps_disk get_ticks.
Proof. intros s. reflexivity. Qed.

Lemma keeps_disk_holding c k : keeps_disk (holding_bucket c k).
Proof. intros s. reflexivity. Qed.

Lemma keeps_disk_read b : keeps_disk (virtio_disk_rw b false).
Proof. intros s. apply disk_assign. Qed.

Create HintDb disk.
#[local] Hint Resolve keeps_disk_ret keeps_disk_panic keeps_disk_get keeps_disk_set
  keeps_disk_acquire keeps_disk_release keeps_disk_acquiresleep keeps_disk_stamp
  keeps_disk_read keeps_disk_get_ticks keeps_disk_holding : disk.

Ltac keeps :=
  repeat (first
    [ progress cbv zeta
    | apply keeps_disk_bind; [|intros ?]
    | match goal with |- keeps_disk (if ?b then _ else _) => destruct b end
    | match goal with |- keeps_disk (match ?o with Some _ => _ | None => _ end) =>
        destruct o end
    | solve [auto with disk] ]).

Lemma keeps_disk_find fuel h dv bn : forall b, keeps_disk (bget_find fuel h b dv bn).
Proof.
  induction fuel as [|fuel IH]; intros b; cbn [bget_find]; [intros s; exact I|].
  keeps.
Qed.

Lemma keeps_disk_scan fuel h : forall b temp tt, keeps_disk (bget_scan fuel h b temp tt).
Proof.
  induction fuel as [|fuel IH]; intros b temp tt; cbn [bget_scan]; [intros s; exact I|].
  keeps.
Qed.

Lemma keeps_disk_reuse c dv bn cur bk temp : keeps_disk (bget_reuse c dv bn cur bk temp).
Proof. unfold bget_reuse. keeps. Qed.

Lemma keeps_disk_recycle fuel c dv bn cur n : forall i temp tt,
  keeps_disk (bget_recycle fuel c dv bn cur n i temp tt).
Proof.
  induction n as [|n IH]; intros i temp tt; cbn [bget_recycle]; [intros s; exact I|].
  apply keeps_disk_bind.
  - keeps.
  - intros skip. destruct skip; [apply IH|].
    apply keeps_disk_bind; [auto with disk|intros first].
    apply keeps_disk_bind; [apply keeps_disk_scan|intros found].
    destruct (negb _); [apply keeps_disk_reuse|].
    apply keeps_disk_bind; [keeps|intros _; apply IH].
Qed.

Lemma keeps_disk_bget fuel c dv bn : keeps_disk (bget fuel c dv bn).
Proof.
  unfold bget.
  apply keeps_disk_bind; [auto with disk|intros _].
  apply keeps_disk_bind; [auto with disk|intros first].
  apply keeps_disk_bind; [apply keeps_disk_find|intros hit].
  destruct hit; [keeps|apply keeps_disk_recycle].
Qed.

Lemma keeps_disk_bread_rest c b : keeps_disk (bread_rest c b).
Proof. unfold bread_rest. keeps. Qed.

Lemma keeps_disk_holdingsleep c b : keeps_disk (holdingsleep c b).
Proof. intros s. reflexivity. Qed.

(** X14.  Of the calls of the buffer cache only [bwrite] writes to the
    disk: [bget], [bread], [brelse], [bpin] and [bunpin] leave every
    block of the disk as it is, whether they return, sleep or wait for a
    lock.  In particular [brelse] writes nothing back. *)
Theorem only_bwrite_writes_the_disk fuel c dv bn b :
  keeps_disk (bget fuel c dv bn) /\ keeps_disk (bread fuel c dv bn) /\
  keeps_disk (brelse c b) /\ keeps_disk (bpin c b) /\ keeps_disk (bunpin c b).
Proof.
  split; [apply keeps_disk_bget|].
  split.
  { unfold bread. apply keeps_disk_bind; [apply keeps_disk_bget|intros x].
    apply keeps_disk_bread_rest. }
  split.
  { unfold brelse, releasesleep.
    apply keeps_disk_bind; [apply keeps_disk_holdingsleep|intros h]. keeps. }
  split; [unfold bpin|unfold bunpin]; keeps.
Qed.

(** ** The scan before the first tick *)

(** While the candidate has tick 0 the scan takes any free buffer it
    comes to in its place. *)
Lemma scan_list_zero s l : forall temp,
  (forall i, In i l -> refcnt (deref s (Buf i)) = 0 -> used_tick (deref s (Buf i)) = 0) ->
  scan_list s l temp 0 = (last (map Buf (filter (free_buf s) l)) temp, 0).
Proof.
  induction l as [|i l IH]; intros temp Hz; [reflexivity|].
  cbn [scan_list filter]. unfold free_buf at 1.
  destruct (Z.eqb_spec (refcnt (deref s (Buf i))) 0) as [E|E]; cbn [andb orb Z.eqb].
  - rewrite (Hz i) by (auto; now left).
    rewrite IH by (intros j Hj; apply Hz; now right).
    cbn [map]. now rewrite last_cons_default.
  - apply IH. intros j Hj. apply Hz. now right.
Qed.

Lemma last_map_Buf l : forall d d',
  l <> [] -> last (map Buf l) d = Buf (last l d').
Proof.
  induction l as [|x l IH]; intros d d' Hne; [contradiction|].
  cbn [map]. rewrite !last_cons_default.
  destruct l as [|y l]; [reflexivity|]. apply IH. discriminate.
Qed.

(** X15.  Tick 0 stands for "no candidate yet" in the recycling scan.
    When the buffers nobody refers to in the first bucket that has any
    all carry tick 0, as they do from [binit] to the first clock tick,
    [bget] recycles the one that comes last on the list of that bucket. *)
Theorem bget_at_tick_zero_takes_last fuel c dv bn s L j :
  let cur := bucket_of bn in
  let free := filter (free_buf s) (L (rot cur j)) in
  let v := last free 0%nat in
  rings s L -> (length (bcache_buf s) < fuel)%nat ->
  lock_of s (BucketLock cur) = None -> tickslock s = None ->
  miss s L dv bn ->
  (j < BUCKET_SIZE)%nat ->
  (forall j', (j' < j)%nat -> passes s c L cur j') ->
  rot cur j = cur \/ lock_of s (BucketLock (rot cur j)) = None ->
  free <> [] ->
  (forall i, In i free -> used_tick (deref s (Buf i)) = 0) ->
  exists s',
    (bget fuel c dv bn s = Done (Buf v) s' \/ bget fuel c dv bn s = Sleep (Buf v) s') /\
    In v (L (rot cur j)) /\ refcnt (deref s (Buf v)) = 0 /\
    dev (deref s' (Buf v)) = dv /\ blockno (deref s' (Buf v)) = bn /\
    refcnt (deref s' (Buf v)) = 1 /\ valid (deref s' (Buf v)) = 0.
Proof.
  intros cur free v HR Hfuel Hhome Ht Hmiss Hj Hpass Hlk Hne Hz.
  assert (Hvf : In v free) by (now apply last_in).
  pose proof Hvf as Hv. unfold free in Hv. apply filter_In in Hv as [Hin Hfree].
  unfold free_buf in Hfree. apply Z.eqb_eq in Hfree.
  assert (Hscan : scan_list s (L (rot cur j)) Null 0 = (Buf v, 0)).
  { rewrite scan_list_zero.
    - fold free. now rewrite (last_map_Buf free Null 0%nat Hne).
    - intros i Hi Hr. apply Hz. apply filter_In. split; [exact Hi|].
      unfold free_buf. now apply Z.eqb_eq. }
  rewrite (bget_miss_found fuel c dv bn s L HR Hfuel Hhome j v 0); auto.
  2:{ now apply miss_find. }
  destruct (recycled_self dv bn (bucket_of bn) (rot (bucket_of bn) j) v s L HR Hin
              (bucket_of_lt bn)) as (Sd & Sb & Sr & Sv & _).
  unfold bind.
  destruct (acquiresleep_cases c (Buf v)
              (recycled dv bn (bucket_of bn) (rot (bucket_of bn) j) (Buf v) s))
    as [-> | ->].
  - eexists. split; [left; reflexivity|].
    rewrite !(deref_assign_proj _ (Buf v) (Buf v) (with_lock (Some (pid c)))) by reflexivity.
    auto 10.
  - eexists. split; [right; reflexivity|]. auto 10.
Qed.

(** ** The shape of the cache *)

(** X17.  Whatever calls have been made since [binit], once they have
    returned or gone to sleep the cache has its [NBUF] buffers, every
    spinlock is free, the lists of the buckets are well-formed rings
    which between them hold every buffer exactly once, and a buffer that
    stands for a block is on the list of the bucket of that block. *)
Theorem cache_shape_is_kept NBUF d s :
  reachable NBUF d s ->
  length (bcache_buf s) = NBUF /\
  (forall l, lock_of s l = None) /\
  exists L,
    rings s L /\
    (forall i, (i < NBUF)%nat -> exists k, In i (L k)) /\
    (forall i, (i < NBUF)%nat ->
       dev (deref s (Buf i)) <> 0 \/ blockno (deref s (Buf i)) <> 0 ->
       In i (L (bucket_of (blockno (deref s (Buf i)))))).
Proof.
  intros Hs. destruct (reachable_inv NBUF d s Hs) as [L [HR HC HL HH HU HRc HN]].
  split; [exact HN|]. split; [exact HL|].
  exists L. split; [exact HR|]. split.
  - intros i Hi. apply HC. lia.
  - intros i Hi. apply HH. lia.
Qed.

(** ** More of the example runs *)

Lemma deref_outside s i :
  (length (bcache_buf s) <= i)%nat -> deref s (Buf i) = zero_buf.
Proof. intros H. cbn [deref]. now apply nth_overflow. Qed.

(** A property of all the buffers of a pool, checked one by one. *)
Lemma pool_check s (p : nat -> bool) i :
  forallb p (seq 0 (length (bcache_buf s))) = true ->
  (i < length (bcache_buf s))%nat -> p i = true.
Proof.
  intros H Hi. rewrite forallb_forall in H. apply H. apply in_seq. lia.
Qed.

Lemma miss_of_absent s L dv bn :
  rings s L ->
  forallb (fun i => negb (matches s dv bn i)) (seq 0 (length (bcache_buf s))) = true ->
  miss s L dv bn.
Proof.
  intros HR H i Hin. destruct (r_range _ _ HR _ _ Hin) as [_ Hi].
  apply (pool_check s _ i H) in Hi. now apply negb_true_iff in Hi.
Qed.

Lemma free_unlocked_check s :
  forallb (fun i => negb (free_buf s i) ||
                    match lock (deref s (Buf i)) with None => true | Some _ => false end)
          (seq 0 (length (bcache_buf s))) = true ->
  forall i, refcnt (deref s (Buf i)) = 0 -> lock (deref s (Buf i)) = None.
Proof.
  intros H i Hr. destruct (Nat.lt_ge_cases i (length (bcache_buf s))) as [Hi|Hi].
  - apply (pool_check s _ i H) in Hi. unfold free_buf in Hi. rewrite Hr in Hi.
    cbn [Z.eqb negb orb] in Hi. now destruct (lock (deref s (Buf i))).
  - now rewrite deref_outside.
Qed.

Lemma held_state_reachable : reachable 30 no_disk held_state.
Proof. apply reachable_after. vm_compute. discriminate. Qed.

Lemma lru_state_reachable : reachable 30 no_disk lru_state.
Proof. apply reachable_after. vm_compute. discriminate. Qed.

Lemma bread_miss_reads_disk_witness :
  exists v s',
    bread (walk_fuel held_state) thread1 1 2 held_state = Done (Buf v) s' /\
    (v < 30)%nat /\ refcnt (deref held_state (Buf v)) = 0 /\
    data (deref s' (Buf v)) = disk held_state 1 2 /\
    valid (deref s' (Buf v)) = 1 /\
    dev (deref s' (Buf v)) = 1 /\ blockno (deref s' (Buf v)) = 2 /\
    refcnt (deref s' (Buf v)) = 1 /\
    lock (deref s' (Buf v)) = Some (pid thread1) /\
    used_tick (deref s' (Buf v)) = ticks held_state /\
    (forall q, q <> Buf v -> meta (deref s' q) = meta (deref held_state q)) /\
    (forall l, lock_of s' l = None) /\
    ticks s' = ticks held_state /\ disk s' = disk held_state.
Proof.
  destruct (reachable_inv 30 no_disk held_state held_state_reachable) as [L HI].
  apply (bread_miss_reads_disk 30 thread1 1 2 held_state L HI).
  - apply miss_of_absent; [apply (inv_rings _ _ _ HI)|]. vm_compute. reflexivity.
  - exists 0%nat. split; [lia|]. vm_compute. reflexivity.
  - apply free_unlocked_check. vm_compute. reflexivity.
Defined.

Lemma bread_hit_serves_cache_witness :
  exists s',
    bread (walk_fuel lru_state) thread1
      (dev (deref lru_state (Buf 5))) (blockno (deref lru_state (Buf 5))) lru_state
      = Done (Buf 5) s' /\
    data (deref s' (Buf 5)) = data (deref lru_state (Buf 5)) /\
    valid (deref s' (Buf 5)) = valid (deref lru_state (Buf 5)) /\
    dev (deref s' (Buf 5)) = dev (deref lru_state (Buf 5)) /\
    blockno (deref s' (Buf 5)) = blockno (deref lru_state (Buf 5)) /\
    refcnt (deref s' (Buf 5)) = wrap32 (refcnt (deref lru_state (Buf 5)) + 1) /\
    lock (deref s' (Buf 5)) = Some (pid thread1) /\
    used_tick (deref s' (Buf 5)) = ticks lru_state /\
    (forall q, q <> Buf 5 -> deref s' q = deref lru_state q) /\
    (forall q, nx s' q = nx lru_state q /\ pv s' q = pv lru_state q) /\
    (forall l, lock_of s' l = None) /\
    ticks s' = ticks lru_state /\ disk s' = disk lru_state.
Proof.
  destruct (reachable_inv 30 no_disk lru_state lru_state_reachable) as [L HI].
  apply (bread_hit_serves_cache 30 thread1 5 lru_state L HI).
  - lia.
  - left. vm_compute. discriminate.
  - vm_compute. discriminate.
  - vm_compute. reflexivity.
Defined.

Lemma bread_sleeps_on_locked_buffer_witness :
  exists s',
    bread (walk_fuel held_state) thread1
      (dev (deref held_state (Buf 1))) (blockno (deref held_state (Buf 1))) held_state
      = Sleep (Buf 1) s' /\
    refcnt (deref s' (Buf 1)) = wrap32 (refcnt (deref held_state (Buf 1)) + 1) /\
    lock (deref s' (Buf 1)) = Some (pid thread0) /\
    used_tick (deref s' (Buf 1)) = ticks held_state /\
    valid (deref s' (Buf 1)) = valid (deref held_state (Buf 1)) /\
    data (deref s' (Buf 1)) = data (deref held_state (Buf 1)) /\
    dev (deref s' (Buf 1)) = dev (deref held_state (Buf 1)) /\
    blockno (deref s' (Buf 1)) = blockno (deref held_state (Buf 1)) /\
    (forall q, q <> Buf 1 -> deref s' q = deref held_state q) /\
    (forall q, nx s' q = nx held_state q /\ pv s' q = pv held_state q) /\
    (forall l, lock_of s' l = None) /\
    ticks s' = ticks held_state /\ disk s' = disk held_state.
Proof.
  destruct (reachable_inv 30 no_disk held_state held_state_reachable) as [L HI].
  apply (bread_sleeps_on_locked_buffer 30 thread1 1 held_state L (pid thread0) HI).
  - lia.
  - left. vm_compute. discriminate.
  - vm_compute. reflexivity.
Defined.

Lemma bwrite_brelse_bread_witness :
  exists s',
    (bwrite thread0 (Buf 1) ;; brelse thread0 (Buf 1) ;;
     bread (walk_fuel held_state) thread1
       (dev (deref held_state (Buf 1))) (blockno (deref held_state (Buf 1)))) held_state
      = Done (Buf 1) s' /\
    data (deref s' (Buf 1)) = data (deref held_state (Buf 1)) /\
    disk s' (dev (deref held_state (Buf 1))) (blockno (deref held_state (Buf 1)))
      = data (deref held_state (Buf 1)) /\
    valid (deref s' (Buf 1)) <> 0 /\
    dev (deref s' (Buf 1)) = dev (deref held_state (Buf 1)) /\
    blockno (deref s' (Buf 1)) = blockno (deref held_state (Buf 1)) /\
    lock (deref s' (Buf 1)) = Some (pid thread1) /\
    refcnt (deref s' (Buf 1)) = refcnt (deref held_state (Buf 1)).
Proof.
  destruct (reachable_inv 30 no_disk held_state held_state_reachable) as [L HI].
  apply (bwrite_brelse_bread 30 thread0 thread1 1 held_state L HI).
  - lia.
  - left. vm_compute. discriminate.
  - vm_compute. reflexivity.
Defined.

Lemma bread_then_brelse_witness :
  exists s',
    (x <- bread (walk_fuel lru_state) thread1
            (dev (deref lru_state (Buf 5))) (blockno (deref lru_state (Buf 5))) ;;
     brelse thread1 x) lru_state = Done tt s' /\
    refcnt (deref s' (Buf 5)) = refcnt (deref lru_state (Buf 5)) /\
    lock (deref s' (Buf 5)) = None /\
    used_tick (deref s' (Buf 5)) = ticks lru_state.
Proof.
  destruct (reachable_inv 30 no_disk lru_state lru_state_reachable) as [L HI].
  destruct (bread_then_brelse 30 thread1 5 lru_state L HI) as (s' & E & Hr & Hl & _ & _ & Ht & _).
  - lia.
  - left. vm_compute. discriminate.
  - vm_compute. reflexivity.
  - exists s'. auto.
Defined.

Lemma bget_at_tick_zero_takes_last_witness :
  exists s',
    (bget 31 thread0 1 1 (booted 30 no_disk) = Done (Buf 1) s' \/
     bget 31 thread0 1 1 (booted 30 no_disk) = Sleep (Buf 1) s') /\
    In 1%nat (lists_of (booted 30 no_disk) (rot (bucket_of 1) 0)) /\
    refcnt (deref (booted 30 no_disk) (Buf 1)) = 0 /\
    dev (deref s' (Buf 1)) = 1 /\ blockno (deref s' (Buf 1)) = 1 /\
    refcnt (deref s' (Buf 1)) = 1 /\ valid (deref s' (Buf 1)) = 0.
Proof.
  pose proof (bget_at_tick_zero_takes_last 31 thread0 1 1 (booted 30 no_disk)
                (lists_of (booted 30 no_disk)) 0) as H.
  cbv zeta in H.
  assert (E : last (filter (free_buf (booted 30 no_disk))
                      (lists_of (booted 30 no_disk) (rot (bucket_of 1) 0))) 0%nat
              = 1%nat) by (vm_compute; reflexivity).
  rewrite E in H. apply H.
  - apply ringsb_sound. vm_compute. reflexivity.
  - vm_compute. lia.
  - vm_compute. reflexivity.
  - vm_compute. reflexivity.
  - apply miss_check. vm_compute. reflexivity.
  - vm_compute. lia.
  - intros j' Hj'. lia.
  - left. vm_compute. reflexivity.
  - vm_compute. discriminate.
  - assert (Hl : filter (free_buf (booted 30 no_disk))
                   (lists_of (booted 30 no_disk) (rot (bucket_of 1) 0))
                 = [27; 14; 1]%nat) by (vm_compute; reflexivity).
    rewrite Hl. intros i [<-|[<-|[<-|[]]]]; vm_compute; reflexivity.
Defined.

Lemma bget_panics_only_when_exhausted_witness :
  exists b s', bget (walk_fuel held_state) thread1 1 2 held_state = Done b s' \/
               bget (walk_fuel held_state) thread1 1 2 held_state = Sleep b s'.
Proof.
  destruct (reachable_inv 30 no_disk held_state held_state_reachable) as [L HI].
  apply (proj2 (bget_panics_only_when_exhausted 30 thread1 1 2 held_state L HI)).
  intros [_ Hall]. apply (Hall 0%nat); [lia|]. vm_compute. reflexivity.
Defined.

Lemma cache_shape_is_kept_witness :
  length (bcache_buf lru_state) = 30%nat /\
  (forall l, lock_of lru_state l = None) /\
  exists L,
    rings lru_state L /\
    (forall i, (i < 30)%nat -> exists k, In i (L k)) /\
    (forall i, (i < 30)%nat ->
       dev (deref lru_state (Buf i)) <> 0 \/ blockno (deref lru_state (Buf i)) <> 0 ->
       In i (L (bucket_of (blockno (deref lru_state (Buf i)))))).
Proof.
  apply (cache_shape_is_kept 30 no_disk lru_state).
  apply reachable_after. vm_compute. discriminate.
Defined.

Lemma bread_waits_for_brelse_witness :
  exists s1 s2 s3,
    bread (walk_fuel held_state) thread1
      (dev (deref held_state (Buf 1))) (blockno (deref held_state (Buf 1))) held_state
      = Sleep (Buf 1) s1 /\
    brelse thread0 (Buf 1) s1 = Done tt s2 /\
    (acquiresleep thread1 (Buf 1) ;; bread_rest thread1 (Buf 1)) s2 = Done (Buf 1) s3 /\
    lock (deref s3 (Buf 1)) = Some (pid thread1) /\
    refcnt (deref s3 (Buf 1)) = refcnt (deref held_state (Buf 1)) /\
    dev (deref s3 (Buf 1)) = dev (deref held_state (Buf 1)) /\
    blockno (deref s3 (Buf 1)) = blockno (deref held_state (Buf 1)) /\
    valid (deref s3 (Buf 1)) <> 0 /\
    data (deref s3 (Buf 1)) =
      (if valid (deref held_state (Buf 1)) =? 0
       then disk held_state (dev (deref held_state (Buf 1)))
              (blockno (deref held_state (Buf 1)))
       else data (deref held_state (Buf 1))).
Proof.
  destruct (reachable_inv 30 no_disk held_state held_state_reachable) as [L HI].
  apply (bread_waits_for_brelse 30 thread0 thread1 1 held_state L HI).
  - lia.
  - left. vm_compute. discriminate.
  - vm_compute. reflexivity.
Defined.

(** ** What bread returns *)






End BioProofs.
